(** * Solana poker table engine (server/server.ts): embedding and properties

    The poker engine of [server.ts] is embedded as executable Rocq
    definitions: the card utilities and the five-card evaluator, the [Seat]
    and [Table] records, the hand sequencer ([startHandIfReady],
    [advanceStage]), the action arbiter ([handleAction], the action-timer
    callback), the showdown resolver ([resolveShowdown]) and the public
    projection built by [broadcastTableState].

    Conventions of the embedding:
    - JavaScript numbers that hold chips, bets, ranks and seat indices are
      integers, modelled by [Z]; [%] is [Z.rem] (sign of the dividend) and
      [Math.floor(a / b)] for a positive [b] is [Z.div].
    - A card is carried by the source as the string [`${r}${s}`] built by
      [cardStr] and read back by [parseCard]; the embedding keeps the parsed
      form [{ r, s }].  [undefined] (what [deck.pop()] yields on an empty
      deck) is [None] in a list of [option Card].
    - [Array.prototype.sort] is stable; it is modelled by a stable insertion
      sort driven by the same comparator.
    - Objects held in [this.seats] are mutated in place by the source; the
      embedding writes the updated seat back at its index, and re-reads a
      seat after every write, so two names for one seat see the same chips.
    - Socket emissions, Redis/Postgres writes and the timer handle are
      outside the state; every handler is taken to run to completion
      without another handler interleaving at its [await]s. *)

From Stdlib Require Import ZArith List Bool Lia Sorted.
From stdpp Require Import base list gmap strings.
Import ListNotations.
Open Scope Z_scope.

(** ** Card utilities *)

Inductive Suit := suit_s | suit_h | suit_d | suit_c.

#[global] Instance Suit_eq_dec : EqDecision Suit.
Proof. solve_decision. Defined.

(** The result of [parseCard]: [{ r, s }]. *)
Record Card := mkCard { card_r : Z; card_s : Suit }.

#[global] Instance Card_eq_dec : EqDecision Card.
Proof. solve_decision. Defined.

Definition RANKS : list Z := [2;3;4;5;6;7;8;9;10;11;12;13;14].
Definition SUITS : list Suit := [suit_s; suit_h; suit_d; suit_c].

Definition fullDeck : list Card :=
  flat_map (fun r => map (fun s => mkCard r s) SUITS) RANKS.

(** [combinations(arr, k)]: the k-element sub-lists, picked by increasing
    index, in the order the recursive index walk of the source emits them. *)
Fixpoint combinations {A} (arr : list A) (k : nat) {struct arr} : list (list A) :=
  match k, arr with
  | O, _ => [[]]
  | S _, [] => []
  | S k', x :: rest => map (cons x) (combinations rest k') ++ combinations rest k
  end.

(** Stable sort under a JavaScript comparator ([cmp a b < 0]: [a] first;
    ties keep their order). *)
Fixpoint insertBy {A} (cmp : A -> A -> Z) (x : A) (l : list A) : list A :=
  match l with
  | [] => [x]
  | y :: l' => if 0 <? cmp x y then y :: insertBy cmp x l' else x :: y :: l'
  end.

Definition sortBy {A} (cmp : A -> A -> Z) (l : list A) : list A :=
  foldr (insertBy cmp) [] l.

(** [Array.from(new Set(l))]: the distinct values, first occurrences kept,
    in order of first occurrence. *)
Definition setOf (l : list Z) : list Z :=
  foldl (fun acc x => if bool_decide (x ∈ acc) then acc else acc ++ [x]) [] l.

(** [a[i] ?? 0] on a number array. *)
Definition at0 (a : list Z) (i : nat) : Z := default 0 (a !! i).

Fixpoint compareEval_loop (a b : list Z) (idxs : list nat) : Z :=
  match idxs with
  | [] => 0
  | i :: rest =>
      let av := at0 a i in
      let bv := at0 b i in
      if bv <? av then 1
      else if av <? bv then -1
      else compareEval_loop a b rest
  end.

Definition compareEval (a b : list Z) : Z :=
  compareEval_loop a b (seq 0 (Nat.max (length a) (length b))).

Definition countRanks (ranks : list Z) : gmap Z Z :=
  foldl (fun counts r => <[r := default 0 (counts !! r) + 1]> counts) ∅ ranks.

(** Comparator of [byCount]: count descending, then rank descending; an
    entry is [(r, c)].  Two entries never compare equal (their ranks
    differ), so the sorted array does not depend on the order in which
    [Object.entries] (here [map_to_list]) lists them. *)
Definition byCountCmp (a b : Z * Z) : Z :=
  if negb (b.2 =? a.2) then b.2 - a.2 else b.1 - a.1.

(** [evaluate5].  The source is called on five-card hands only (the
    combinations of size five); on such a hand every [byCount[i]] read below
    exists.  A read past the end gives the default, which [compareEval]
    equates with the source's [undefined] through [?? 0]. *)
Definition evaluate5 (cards : list Card) : list Z :=
  let ps := sortBy (fun a b => card_r b - card_r a) cards in
  let ranks := map card_r ps in
  let suits := map card_s ps in
  let isFlush := forallb (fun x => bool_decide (Some x = head suits)) suits in
  let uniqueRanks := setOf ranks in
  let sortedUnique := sortBy (fun a b => b - a) uniqueRanks in
  let straight : bool * Z :=
    if (length sortedUnique =? 5)%nat then
      if forallb (fun i => at0 sortedUnique i - at0 sortedUnique (i + 1) =? 1)
                 (seq 0 4)
      then (true, at0 sortedUnique 0)
      else if bool_decide (sortedUnique = [14;5;4;3;2]) then (true, 5)
      else (false, 0)
    else (false, 0) in
  let isStraight := straight.1 in
  let topStraight := straight.2 in
  let byCount := sortBy byCountCmp (map_to_list (countRanks ranks)) in
  let r_ i := (nth i byCount (0, 0)).1 in
  let c_ i := (nth i byCount (0, 0)).2 in
  let rest k := map fst (drop k byCount) in
  if isStraight && isFlush then [8; topStraight]
  else if c_ 0%nat =? 4 then [7; r_ 0%nat; nth 0 (rest 1%nat) 0]
  else if (c_ 0%nat =? 3) && (c_ 1%nat =? 2) then [6; r_ 0%nat; r_ 1%nat]
  else if isFlush then 5 :: ranks
  else if isStraight then [4; topStraight]
  else if c_ 0%nat =? 3 then [3; r_ 0%nat] ++ take 2 (rest 1%nat)
  else if (c_ 0%nat =? 2) && (c_ 1%nat =? 2)
       then [2; r_ 0%nat; r_ 1%nat; nth 0 (rest 2%nat) 0]
  else if c_ 0%nat =? 2 then [1; r_ 0%nat] ++ take 3 (rest 1%nat)
  else 0 :: ranks.

(** [bestHandFromSeven].  The outer [None] is the [TypeError] raised by
    [parseCard] on an [undefined] card; the inner [None] is the [null]
    [bestEval] left when there is no five-card combination. *)
Definition bestHandFromSeven (cards7 : list (option Card))
  : option (option (list Z) * list Card) :=
  foldl (fun acc h =>
           match acc, mapM id h with
           | Some (bestEval, bestHand), Some hc =>
               let e := evaluate5 hc in
               match bestEval with
               | None => Some (Some e, hc)
               | Some be =>
                   if 0 <? compareEval e be then Some (Some e, hc)
                   else Some (bestEval, bestHand)
               end
           | _, _ => None
           end)
        (Some (None, [])) (combinations cards7 5).

(** ** Seats and the table *)

Inductive Stage := Waiting | Preflop | Flop | Turn | River | Showdown.

#[global] Instance Stage_eq_dec : EqDecision Stage.
Proof. solve_decision. Defined.

Record Seat := mkSeat {
  socketId : option string;
  pubkey : option string;
  chips : Z;
  currentBet : Z;
  totalContributed : Z;
  folded : bool;
  holeCards : list (option Card);
  active : bool;
  allIn : option bool;
  reconnectTimeout : option Z
}.

Record Table := mkTable {
  id : string;
  seats : list (option Seat);
  deck : list Card;
  community : list (option Card);
  pot : Z;
  currentBetToCall : Z;
  dealerIndex : Z;
  currentTurnIndex : Z;
  stage : Stage;
  lastRaiseAmount : Z
}.

(** Truthiness of the optional [allIn] flag. *)
Definition isAllIn (s : Seat) : bool := default false (allIn s).

(** Truthiness of a [string | null | undefined] value. *)
Definition truthyStr (x : option string) : bool :=
  match x with
  | Some v => negb (String.eqb v "")
  | None => false
  end.

(** [seats[i]] for an integer [i]; [undefined] and [null] are both [None]. *)
Definition seatAt (ss : list (option Seat)) (i : Z) : option Seat :=
  if i <? 0 then None else ss !! Z.to_nat i ≫= (fun x => x).

(** Writing an object back at its index in [this.seats]. *)
Definition putSeat (ss : list (option Seat)) (i : Z) (s : Seat) : list (option Seat) :=
  <[Z.to_nat i := Some s]> ss.

(** [seat.chips -= x; seat.currentBet += x; seat.totalContributed += x]. *)
Definition commit (s : Seat) (x : Z) : Seat :=
  {| socketId := socketId s; pubkey := pubkey s;
     chips := chips s - x;
     currentBet := currentBet s + x;
     totalContributed := totalContributed s + x;
     folded := folded s; holeCards := holeCards s; active := active s;
     allIn := allIn s; reconnectTimeout := reconnectTimeout s |}.

(** [if (seat.chips === 0) seat.allIn = true]. *)
Definition markAllIn (s : Seat) : Seat :=
  {| socketId := socketId s; pubkey := pubkey s; chips := chips s;
     currentBet := currentBet s; totalContributed := totalContributed s;
     folded := folded s; holeCards := holeCards s; active := active s;
     allIn := if chips s =? 0 then Some true else allIn s;
     reconnectTimeout := reconnectTimeout s |}.

Definition setFolded (s : Seat) : Seat :=
  {| socketId := socketId s; pubkey := pubkey s; chips := chips s;
     currentBet := currentBet s; totalContributed := totalContributed s;
     folded := true; holeCards := holeCards s; active := active s;
     allIn := allIn s; reconnectTimeout := reconnectTimeout s |}.

Definition clearBet (s : Seat) : Seat :=
  {| socketId := socketId s; pubkey := pubkey s; chips := chips s;
     currentBet := 0; totalContributed := totalContributed s;
     folded := folded s; holeCards := holeCards s; active := active s;
     allIn := allIn s; reconnectTimeout := reconnectTimeout s |}.

Definition addChips (s : Seat) (x : Z) : Seat :=
  {| socketId := socketId s; pubkey := pubkey s; chips := chips s + x;
     currentBet := currentBet s; totalContributed := totalContributed s;
     folded := folded s; holeCards := holeCards s; active := active s;
     allIn := allIn s; reconnectTimeout := reconnectTimeout s |}.

Definition pushHole (s : Seat) (c : option Card) : Seat :=
  {| socketId := socketId s; pubkey := pubkey s; chips := chips s;
     currentBet := currentBet s; totalContributed := totalContributed s;
     folded := folded s; holeCards := holeCards s ++ [c]; active := active s;
     allIn := allIn s; reconnectTimeout := reconnectTimeout s |}.

(** The per-hand reset of [startHandIfReady] and [resetHand]. *)
Definition resetSeat (s : Seat) : Seat :=
  {| socketId := socketId s; pubkey := pubkey s; chips := chips s;
     currentBet := 0; totalContributed := 0;
     folded := false; holeCards := []; active := active s;
     allIn := Some false; reconnectTimeout := reconnectTimeout s |}.

Definition withSeats (t : Table) (ss : list (option Seat)) : Table :=
  {| id := id t; seats := ss; deck := deck t; community := community t;
     pot := pot t; currentBetToCall := currentBetToCall t;
     dealerIndex := dealerIndex t; currentTurnIndex := currentTurnIndex t;
     stage := stage t; lastRaiseAmount := lastRaiseAmount t |}.

Definition withTurn (t : Table) (i : Z) : Table :=
  {| id := id t; seats := seats t; deck := deck t; community := community t;
     pot := pot t; currentBetToCall := currentBetToCall t;
     dealerIndex := dealerIndex t; currentTurnIndex := i;
     stage := stage t; lastRaiseAmount := lastRaiseAmount t |}.

(** [new Table(id, seatCount)]. *)
Definition newTable (BIG_BLIND : Z) (tid : string) (seatCount : nat) : Table :=
  {| id := tid; seats := replicate seatCount None; deck := []; community := [];
     pot := 0; currentBetToCall := 0; dealerIndex := -1; currentTurnIndex := 0;
     stage := Waiting; lastRaiseAmount := BIG_BLIND |}.

(** [seatPlayer]; its only caller, the [sit] handler, passes an index
    inside the array. *)
Definition seatPlayer (t : Table) (index : Z) (pk : string) (sock : string) : Table :=
  withSeats t
    (putSeat (seats t) index
       {| socketId := Some sock; pubkey := Some pk; chips := 1000;
          currentBet := 0; totalContributed := 0; folded := false;
          holeCards := []; active := true; allIn := Some false;
          reconnectTimeout := None |}).

Definition readyPlayerCount (t : Table) : Z :=
  Z.of_nat (length (List.filter
                      (fun o => match o with Some s => active s | None => false end)
                      (seats t))).

(** The ring walk shared by [nextOccupiedFrom], [nextOccupiedForBlinds] and
    [findNextAny]: candidates [(startIdx + i) % n] for [i = 1 .. n], first
    one whose seat satisfies [want]. *)
Definition ringFind (want : Seat -> bool) (ss : list (option Seat)) (startIdx : Z)
  : option Z :=
  let n := Z.of_nat (length ss) in
  List.find (fun cand => match seatAt ss cand with
                         | Some s => want s
                         | None => false
                         end)
            (map (fun i => Z.rem (startIdx + Z.of_nat i) n) (seq 1 (length ss))).

Definition actionable (s : Seat) : bool :=
  active s && negb (folded s) && negb (isAllIn s).

Definition nextOccupiedFrom (t : Table) (startIdx : Z) : Z :=
  default (-1) (ringFind actionable (seats t) startIdx).

Definition nextOccupiedForBlinds (t : Table) (startIdx : Z) : Z :=
  default startIdx (ringFind active (seats t) startIdx).

Definition findNextAny (t : Table) (startIdx : Z) : Z :=
  default (-1) (ringFind (fun s => active s && negb (folded s)) (seats t) startIdx).

Definition isBettingRoundComplete (t : Table) : bool :=
  forallb (fun o => match o with
                    | None => true
                    | Some s => folded s || isAllIn s
                                || (currentBet s =? currentBetToCall t)
                    end)
          (seats t).

Definition resetHand (t : Table) : Table :=
  {| id := id t; seats := map (option_map resetSeat) (seats t);
     deck := []; community := []; pot := 0; currentBetToCall := 0;
     dealerIndex := dealerIndex t; currentTurnIndex := currentTurnIndex t;
     stage := Waiting; lastRaiseAmount := lastRaiseAmount t |}.

(** ** Showdown resolver *)

Record Result := mkResult {
  r_idx : Z;
  r_bestEval : list Z;
  r_bestHand : list Card;
  r_contrib : Z
}.

Record Pot := mkPot { amount : Z; eligibleIndices : list Z }.

(** [this.seats.map((s, idx) => ({ s, idx })).filter(x => x.s && !x.s.folded)]. *)
Definition activePlayers (ss : list (option Seat)) : list (Z * Seat) :=
  omap (fun '(i, o) => match o with
                       | Some s => if folded s then None else Some (Z.of_nat i, s)
                       | None => None
                       end)
       (imap (fun i o => (i, o)) ss).

(** The [results] loop.  [None] is the [TypeError] that ends the resolver:
    by [parseCard] on an [undefined] card, or, for a seat with fewer than
    five cards, by [compareEval] reading [.length] of its [null] [bestEval]
    when the first pot (for which every result is eligible) is filtered for
    winners.  Either way nothing has been paid yet. *)
Definition buildResults (comm : list (option Card)) (ps : list (Z * Seat))
  : option (list Result) :=
  mapM (fun '(i, s) =>
          match bestHandFromSeven (holeCards s ++ comm) with
          | Some (Some e, h) => Some (mkResult i e h (totalContributed s))
          | _ => None
          end) ps.

Fixpoint potsFrom (results : list Result) (prev : Z) (contribs : list Z) : list Pot :=
  match contribs with
  | [] => []
  | level :: rest =>
      let eligible := map r_idx (List.filter (fun r => level <=? r_contrib r) results) in
      let portion := (level - prev) * Z.of_nat (length eligible) in
      mkPot portion eligible :: potsFrom results level rest
  end.

Definition contribLevels (results : list Result) : list Z :=
  sortBy (fun a b => a - b) (setOf (map r_contrib results)).

Definition buildPots (results : list Result) : list Pot :=
  potsFrom results 0 (contribLevels results).

(** The winners of one pot, in the order of the source's [winners] array. *)
Definition potWinners (results : list Result) (p : Pot) : list Z :=
  let eligResults :=
    sortBy (fun a b => compareEval (r_bestEval b) (r_bestEval a))
           (List.filter (fun r => bool_decide (r_idx r ∈ eligibleIndices p)) results) in
  let best := match eligResults with r :: _ => r_bestEval r | [] => [] end in
  map r_idx (List.filter (fun r => compareEval (r_bestEval r) best =? 0) eligResults).

(** [this.seats[w]!.chips += x].  A winner is the index of an occupied
    seat, so the [None] branch is never taken by the resolver. *)
Definition creditSeat (ss : list (option Seat)) (w : Z) (x : Z) : list (option Seat) :=
  match seatAt ss w with
  | Some s => putSeat ss w (addChips s x)
  | None => ss
  end.

(** The body of the paying loop for one pot.  The list of winners of a pot
    is never empty (the best hand ties with itself), so the divisor is
    positive. *)
Definition payPot (ss : list (option Seat)) (p : Pot) (winners : list Z)
  : list (option Seat) :=
  let share := amount p / Z.of_nat (length winners) in
  let ss1 := foldl (fun acc w => creditSeat acc w share) ss winners in
  let leftover := amount p - share * Z.of_nat (length winners) in
  if 0 <? leftover
  then match winners with
       | w0 :: _ => creditSeat ss1 w0 leftover
       | [] => ss1
       end
  else ss1.

Definition resolveShowdown (t : Table) : Table :=
  let players := activePlayers (seats t) in
  match players with
  | [] => resetHand t
  | _ :: _ =>
      match buildResults (community t) players with
      | None => t
      | Some results =>
          let pots := buildPots results in
          let winnersByPot := map (potWinners results) pots in
          let ss := foldl (fun acc pw => payPot acc pw.1 pw.2) (seats t)
                          (zip pots winnersByPot) in
          {| id := id t; seats := ss; deck := []; community := [];
             pot := 0; currentBetToCall := 0;
             dealerIndex := dealerIndex t; currentTurnIndex := currentTurnIndex t;
             stage := Waiting; lastRaiseAmount := lastRaiseAmount t |}
      end
  end.

(** The [showdown] extras of the completion frame: [(potIndex, winners)]. *)
Definition winnersInfo (t : Table) : option (list (Z * list Z)) :=
  match buildResults (community t) (activePlayers (seats t)) with
  | Some results =>
      Some (imap (fun i w => (Z.of_nat i, w))
                 (map (potWinners results) (buildPots results)))
  | None => None
  end.

(** ** Hand sequencer and action arbiter *)

Inductive ActionType := Fold | Check | Call | Raise.

(** An action message [{ type, amount? }]. *)
Record Action := mkAction { type_ : ActionType; amount_ : option Z }.

(** What a handler did with the table.  [Advance t] : the handler applied
    its effect, giving [t], and calls [advanceStage] on it.  [Continue t] :
    the turn passed to another seat (broadcast, persist, new timer).
    [Rejected] : an illegal check or raise, the timer is restarted and the
    handler returns.  [Ignored] : a guard returned before any effect. *)
Inductive Outcome :=
| Ignored
| Rejected
| Advance (t : Table)
| Continue (t : Table).

(** [deck.pop()]. *)
Definition popDeck (d : list Card) : option Card * list Card :=
  (last d, removelast d).

(** One pass of the dealing loop: each occupied seat, by increasing index,
    receives [deck.pop()]. *)
Fixpoint dealRound (ss : list (option Seat)) (d : list Card)
  : list (option Seat) * list Card :=
  match ss with
  | [] => ([], d)
  | None :: rest =>
      let '(rest', d') := dealRound rest d in (None :: rest', d')
  | Some s :: rest =>
      let '(c, d1) := popDeck d in
      let '(rest', d') := dealRound rest d1 in
      (Some (pushHole s c) :: rest', d')
  end.

Section Engine.

(** Configuration read from the environment ([Number(process.env.X || d)]). *)
Variable SMALL_BLIND : Z.
Variable BIG_BLIND : Z.
Variable MIN_PLAYERS_TO_START : Z.
Variable ACTION_TIMEOUT_MS : Z.

(** [startHandIfReady]; [shuffled] is the value of [shuffle(fullDeck())].
    The ring of seats is not empty ([SEAT_COUNT] seats).  When no seat is
    active the blind seats are [null] and reading [sbSeat.chips] raises:
    the table is left as the statements before it made it. *)
Definition startHandIfReady (t : Table) (shuffled : list Card) : Table :=
  if negb (bool_decide (stage t = Waiting)) then t
  else if readyPlayerCount t <? MIN_PLAYERS_TO_START then t
  else
    let ss0 := map (option_map resetSeat) (seats t) in
    let '(ss1, d1) := dealRound ss0 shuffled in
    let '(ss2, d2) := dealRound ss1 d1 in
    let dealer := Z.rem (dealerIndex t + 1) (Z.of_nat (length (seats t))) in
    let t1 := {| id := id t; seats := ss2; deck := d2; community := [];
                 pot := 0; currentBetToCall := 0; dealerIndex := dealer;
                 currentTurnIndex := currentTurnIndex t; stage := Preflop;
                 lastRaiseAmount := BIG_BLIND |} in
    let sb := nextOccupiedForBlinds t1 dealer in
    let bb := nextOccupiedForBlinds t1 sb in
    match seatAt ss2 sb, seatAt ss2 bb with
    | Some sbSeat, Some bbSeat =>
        let small := Z.min SMALL_BLIND (chips sbSeat) in
        let big := Z.min BIG_BLIND (chips bbSeat) in
        let ss3 := putSeat ss2 sb (markAllIn (commit sbSeat small)) in
        let ss4 := match seatAt ss3 bb with
                   | Some bbSeat' => putSeat ss3 bb (markAllIn (commit bbSeat' big))
                   | None => ss3
                   end in
        let t2 := {| id := id t; seats := ss4; deck := d2; community := [];
                     pot := 0 + small + big; currentBetToCall := big;
                     dealerIndex := dealer;
                     currentTurnIndex := currentTurnIndex t; stage := Preflop;
                     lastRaiseAmount := BIG_BLIND |} in
        let first := nextOccupiedFrom t2 bb in
        withTurn t2 (if first =? -1 then bb else first)
    | _, _ => t1
    end.

(** [advanceStage]. *)
Definition advanceStage (t : Table) : Table :=
  let ss := map (option_map clearBet) (seats t) in
  let street (k : nat) (next : Stage) : Table :=
    let d := deck t in
    let dealt := map (fun i => last (Nat.iter i (@removelast Card) d)) (seq 0 k) in
    let t1 := {| id := id t; seats := ss;
                 deck := Nat.iter k (@removelast Card) d;
                 community := community t ++ dealt;
                 pot := pot t; currentBetToCall := 0;
                 dealerIndex := dealerIndex t;
                 currentTurnIndex := currentTurnIndex t;
                 stage := next; lastRaiseAmount := BIG_BLIND |} in
    let first := nextOccupiedFrom t1 (dealerIndex t) in
    withTurn t1 (if first =? -1 then dealerIndex t else first) in
  match stage t with
  | Preflop => street 3%nat Flop
  | Flop => street 1%nat Turn
  | Turn => street 1%nat River
  | River =>
      resolveShowdown
        {| id := id t; seats := ss; deck := deck t; community := community t;
           pot := pot t; currentBetToCall := currentBetToCall t;
           dealerIndex := dealerIndex t; currentTurnIndex := currentTurnIndex t;
           stage := Showdown; lastRaiseAmount := lastRaiseAmount t |}
  | Waiting => street 0%nat Waiting
  | Showdown => street 0%nat Showdown
  end.

(** The effect of an accepted action on the acting seat and the table
    (the [if / else if] chain of [handleAction]); [None] when the action
    is an illegal check or raise. *)
Definition applyAction (t : Table) (seatIndex : Z) (seat : Seat) (action : Action)
  : option Table :=
  match type_ action with
  | Fold => Some (withSeats t (putSeat (seats t) seatIndex (setFolded seat)))
  | Check =>
      if negb (currentBet seat =? currentBetToCall t) then None else Some t
  | Call =>
      let toCall := currentBetToCall t - currentBet seat in
      let callAmount := Z.min toCall (chips seat) in
      Some {| id := id t;
              seats := putSeat (seats t) seatIndex (markAllIn (commit seat callAmount));
              deck := deck t; community := community t;
              pot := pot t + callAmount;
              currentBetToCall := currentBetToCall t;
              dealerIndex := dealerIndex t;
              currentTurnIndex := currentTurnIndex t;
              stage := stage t; lastRaiseAmount := lastRaiseAmount t |}
  | Raise =>
      let raiseAmt := default 0 (amount_ action) in
      let toCall := currentBetToCall t - currentBet seat in
      let minRaise := Z.max (lastRaiseAmount t) BIG_BLIND in
      if raiseAmt <? minRaise then None
      else
        let totalInvest := toCall + raiseAmt in
        let invest := Z.min totalInvest (chips seat) in
        let seat1 := commit seat invest in
        let raised := currentBetToCall t <? currentBet seat1 in
        Some {| id := id t;
                seats := putSeat (seats t) seatIndex (markAllIn seat1);
                deck := deck t; community := community t;
                pot := pot t + invest;
                currentBetToCall :=
                  if raised then currentBet seat1 else currentBetToCall t;
                dealerIndex := dealerIndex t;
                currentTurnIndex := currentTurnIndex t;
                stage := stage t;
                lastRaiseAmount :=
                  if raised then raiseAmt else lastRaiseAmount t |}
  end.

(** The "advance turn" tail of [handleAction]. *)
Definition passTurn (t : Table) : Outcome :=
  let next := nextOccupiedFrom t (currentTurnIndex t) in
  if next =? -1 then
    if isBettingRoundComplete t then Advance t
    else
      let next' := findNextAny t (currentTurnIndex t) in
      if next' =? -1 then Advance t
      else
        let t' := withTurn t next' in
        if isBettingRoundComplete t' then Advance t' else Continue t'
  else
    let t' := withTurn t next in
    if isBettingRoundComplete t' then Advance t' else Continue t'.

Definition handleAction_outcome (t : Table) (seatIndex : Z) (action : Action)
  : Outcome :=
  match seatAt (seats t) seatIndex with
  | None => Ignored
  | Some seat =>
      if folded seat || isAllIn seat then Ignored
      else if negb (currentTurnIndex t =? seatIndex) then Ignored
      else match applyAction t seatIndex seat action with
           | None => Rejected
           | Some t1 => passTurn t1
           end
  end.

Definition settle (t : Table) (o : Outcome) : Table :=
  match o with
  | Ignored | Rejected => t
  | Advance t' => advanceStage t'
  | Continue t' => t'
  end.

(** [handleAction]. *)
Definition handleAction (t : Table) (seatIndex : Z) (action : Action) : Table :=
  settle t (handleAction_outcome t seatIndex action).

(** The callback armed by [startActionTimer]: auto-fold of the seat whose
    turn it is. *)
Definition actionTimeout_outcome (t : Table) : Outcome :=
  let idx := currentTurnIndex t in
  match seatAt (seats t) idx with
  | None => Ignored
  | Some seat =>
      if negb (folded seat) && negb (isAllIn seat) then
        let t1 := withSeats t (putSeat (seats t) idx (setFolded seat)) in
        if isBettingRoundComplete t1 then Advance t1
        else
          let next := nextOccupiedFrom t1 idx in
          if next =? -1 then Advance t1 else Continue (withTurn t1 next)
      else Ignored
  end.

Definition actionTimeout (t : Table) : Table :=
  settle t (actionTimeout_outcome t).

(** ** Session layer: [sit] and the broadcast *)

Inductive SitReply :=
| NotAuthenticated
| BadSeat
| SeatTaken
| Banned
| ServerError
| Sat (seatIndex : Z).

(** How the promise of [prisma.player.findUnique] settles: rejected, or
    fulfilled with a row [p] for which [p && p.banned] is [banned]. *)
Inductive Lookup :=
| LookupFailed
| LookupDone (banned : bool).

(** The [sit] handler runs in two steps.  [sitGuards] is the synchronous
    one, run when the message is handled: [sockPubkey] is
    [(socket as any).pubkey]; a guard that fires replies at once ([inl]),
    otherwise the lookup of the player is started for that identity
    ([inr]).  Nothing is written to the table. *)
Definition sitGuards (t : Table) (sockPubkey : option string) (seatIndex : Z)
  : SitReply + string :=
  match sockPubkey with
  | None => inl NotAuthenticated
  | Some pk =>
      if String.eqb pk "" then inl NotAuthenticated
      else if (seatIndex <? 0) || (Z.of_nat (length (seats t)) <=? seatIndex)
      then inl BadSeat
      else match seatAt (seats t) seatIndex with
           | Some _ => inl SeatTaken
           | None => inr pk
           end
  end.

(** [sitSettled] is the second step, the callback run when the lookup
    settles, on the table [t] as it is at that moment: [.catch] for a
    rejected lookup, [.then] otherwise.  The seat is not read again before
    [seatPlayer] writes it.  Nothing in the [.then] callback throws, and
    the promise of the async [startHandIfReady] is dropped, so [.catch]
    runs for a rejected lookup only.  [shuffled] is the deck of the hand
    that [startHandIfReady] may start. *)
Definition sitSettled (t : Table) (pk sock : string) (seatIndex : Z)
           (lookup : Lookup) (shuffled : list Card) : SitReply * Table :=
  match lookup with
  | LookupFailed => (ServerError, t)
  | LookupDone true => (Banned, t)
  | LookupDone false =>
      (Sat seatIndex, startHandIfReady (seatPlayer t seatIndex pk sock) shuffled)
  end.

(** The handler when no other handler runs between its two steps. *)
Definition sit (t : Table) (sockPubkey : option string) (sock : string)
           (seatIndex : Z) (lookup : Lookup) (shuffled : list Card)
  : SitReply * Table :=
  match sitGuards t sockPubkey seatIndex with
  | inl reply => (reply, t)
  | inr pk => sitSettled t pk sock seatIndex lookup shuffled
  end.

Record PublicSeat := mkPublicSeat {
  pub_pubkey : option string;
  pub_chips : Z;
  pub_active : bool;
  pub_folded : bool;
  pub_currentBet : Z;
  pub_totalContributed : Z;
  pub_allIn : bool
}.

(** The [table_state] payload. *)
Record TableState := mkTableState {
  ts_id : string;
  ts_seats : list (option PublicSeat);
  ts_community : list (option Card);
  ts_pot : Z;
  ts_stage : Stage;
  ts_currentBetToCall : Z;
  ts_currentTurnIndex : Z;
  ts_dealerIndex : Z;
  ts_lastRaiseAmount : Z;
  ts_actionTimeoutMs : Z;
  ts_showdown : option (list (Z * list Z))
}.

(** The [private_state] payload for the socket of one seat. *)
Record PrivateState := mkPrivateState {
  ps_socket : string;
  ps_myIndex : Z;
  ps_myHole : list (option Card);
  ps_timeMs : Z
}.

Definition publicSeat (s : Seat) : PublicSeat :=
  {| pub_pubkey := pubkey s; pub_chips := chips s; pub_active := active s;
     pub_folded := folded s; pub_currentBet := currentBet s;
     pub_totalContributed := totalContributed s;
     pub_allIn := default false (allIn s) |}.

Definition publicState (t : Table) (extras : option (list (Z * list Z)))
  : TableState :=
  {| ts_id := id t;
     ts_seats := map (option_map publicSeat) (seats t);
     ts_community := community t;
     ts_pot := pot t;
     ts_stage := stage t;
     ts_currentBetToCall := currentBetToCall t;
     ts_currentTurnIndex := currentTurnIndex t;
     ts_dealerIndex := dealerIndex t;
     ts_lastRaiseAmount := lastRaiseAmount t;
     ts_actionTimeoutMs := ACTION_TIMEOUT_MS;
     ts_showdown := extras |}.

Definition privateStates (t : Table) : list PrivateState :=
  omap (fun '(i, o) =>
          match o with
          | Some s =>
              if truthyStr (socketId s)
              then Some (mkPrivateState (default ""%string (socketId s))
                                        (Z.of_nat i) (holeCards s)
                                        ACTION_TIMEOUT_MS)
              else None
          | None => None
          end)
       (imap (fun i o => (i, o)) (seats t)).

(** [broadcastTableState]: the payload emitted to the room, and the
    payloads emitted to single sockets. *)
Definition broadcastTableState (t : Table) (extras : option (list (Z * list Z)))
  : TableState * list PrivateState :=
  (publicState t extras, privateStates t).

End Engine.

(** ** Rest of the server: the shuffle, leaving and disconnecting, the
    action handler, the seat suggestion *)

(** [[a[i], a[j]] = [a[j], a[i]]] for two indices inside the array. *)
Definition swapAt {A} (a : list A) (i j : nat) : list A :=
  match a !! i, a !! j with
  | Some x, Some y => <[i := y]> (<[j := x]> a)
  | _, _ => a
  end.

(** [shuffle(arr)].  [draws i] is the value of
    [Math.floor(Math.random() * (i + 1))] at step [i], a number between 0
    and [i]; the loop runs [i] from [length - 1] down to 1. *)
Fixpoint shuffle_loop {A} (draws : nat -> nat) (i : nat) (a : list A) : list A :=
  match i with
  | O => a
  | S i' => shuffle_loop draws i' (swapAt a i (draws i))
  end.

Definition shuffle {A} (draws : nat -> nat) (arr : list A) : list A :=
  shuffle_loop draws (length arr - 1) arr.

(** [removePlayerBySocket]. *)
Definition removePlayerBySocket (t : Table) (sock : string) : Table :=
  withSeats t
    (map (fun o => match o with
                   | Some s => if bool_decide (socketId s = Some sock) then None else Some s
                   | None => None
                   end)
         (seats t)).

(** The [leave] handler. *)
Definition leave (t : Table) (sock : string) : Table := removePlayerBySocket t sock.

Definition markDisconnected (s : Seat) (deadline : Z) : Seat :=
  {| socketId := None; pubkey := pubkey s; chips := chips s;
     currentBet := currentBet s; totalContributed := totalContributed s;
     folded := folded s; holeCards := holeCards s; active := active s;
     allIn := allIn s; reconnectTimeout := Some deadline |}.

(** The [disconnect] handler; [now] is the value of [Date.now()]. *)
Definition disconnect (t : Table) (sockPubkey : option string) (sock : string) (now : Z)
  : Table :=
  if truthyStr sockPubkey then
    withSeats t
      (map (fun o => match o with
                     | Some s =>
                         if bool_decide (pubkey s = sockPubkey)
                            && bool_decide (socketId s = Some sock)
                         then Some (markDisconnected s (now + 60000))
                         else Some s
                     | None => None
                     end)
           (seats t))
  else t.

(** The callback scheduled by [disconnect] for seat [i] of identity [pk],
    run when [Date.now()] is [now]. *)
Definition reclaimExpired (t : Table) (i : Z) (pk : string) (now : Z) : Table :=
  match seatAt (seats t) i with
  | Some cur =>
      if bool_decide (pubkey cur = Some pk)
         && negb (truthyStr (socketId cur))
         && match reconnectTimeout cur with
            | Some d => negb (d =? 0) && (d <? now)
            | None => false
            end
      then withSeats t (<[Z.to_nat i := None]> (seats t))
      else t
  | None => t
  end.

Inductive ActionReply := ActNotAuthenticated | ActNotYourSeat | ActHandled.

(** The [action] handler. *)
Definition onAction (BIG_BLIND : Z) (t : Table) (sockPubkey : option string)
           (seatIndex : Z) (a : Action) : ActionReply * Table :=
  if negb (truthyStr sockPubkey) then (ActNotAuthenticated, t)
  else match seatAt (seats t) seatIndex with
       | None => (ActNotYourSeat, t)
       | Some s =>
           if negb (bool_decide (pubkey s = sockPubkey)) then (ActNotYourSeat, t)
           else (ActHandled, handleAction BIG_BLIND t seatIndex a)
       end.

(** The [/api/get_empty_seat] endpoint.  [snapshot] is the [seats] array of
    the table snapshot read back from the store, [None] when there is no
    snapshot or it cannot be parsed. *)
Definition getEmptySeat (snapshot : option (list (option Seat))) : Z :=
  match snapshot with
  | None => 0
  | Some ss =>
      match list_find (fun o : option Seat => o = None) ss with
      | Some (i, _) => Z.of_nat i
      | None => 0
      end
  end.

(** What drives a hand once it has started: an action message that passed
    the [action] handler, or the expiry of the action timer. *)
Inductive Event :=
| EvAction (seatIndex : Z) (a : Action)
| EvTimeout.

Definition step (BIG_BLIND : Z) (t : Table) (e : Event) : Table :=
  match e with
  | EvAction i a => handleAction BIG_BLIND t i a
  | EvTimeout => actionTimeout BIG_BLIND t
  end.

Definition run (BIG_BLIND : Z) (t : Table) (es : list Event) : Table :=
  foldl (step BIG_BLIND) t es.

(** ** Vocabulary of the statements *)

Definition sumZ (l : list Z) : Z := foldr Z.add 0 l.

Definition seatChips (o : option Seat) : Z :=
  match o with Some s => chips s | None => 0 end.

(** Chips on the table: every stack plus the pot. *)
Definition tableChips (t : Table) : Z := sumZ (map seatChips (seats t)) + pot t.

(** Candidates visited by [ringFind]. *)
Definition ringCands (n : nat) (startIdx : Z) : list Z :=
  map (fun i => Z.rem (startIdx + Z.of_nat i) (Z.of_nat n)) (seq 1 n).

(** Every occupied seat has [active = true], as [seatPlayer] creates it
    (no statement of the source clears the flag). *)
Definition allActive (ss : list (option Seat)) : Prop :=
  forall i s, seatAt ss i = Some s -> active s = true.

(** Every unfolded seat that is not all-in has matched the bet to call. *)
Definition betsMatched (t : Table) : Prop :=
  forall i s, seatAt (seats t) i = Some s ->
              folded s = false -> isAllIn s = false ->
              currentBet s = currentBetToCall t.

(** The resolver can rank the cards: at least five of them and no
    [undefined] one. *)
Definition evaluable (cards : list (option Card)) : Prop :=
  exists e h, bestHandFromSeven cards = Some (Some e, h).





(** A seat as the hand start leaves it before the blinds: stack kept,
    per-hand fields reset. *)
Definition dealtIn (s s2 : Seat) : Prop :=
  chips s2 = chips s /\ currentBet s2 = 0 /\ totalContributed s2 = 0 /\
  folded s2 = false /\ active s2 = active s /\ allIn s2 = Some false.

(** Only the seats [d] and [o] can be occupied. *)
Definition twoSeated (ss : list (option Seat)) (d o : Z) : Prop :=
  d <> o /\ forall i s, seatAt ss i = Some s -> i = d \/ i = o.

(** Who sits where: the [pubkey] of every slot. *)
Definition identities (ss : list (option Seat)) : list (option (option string)) :=
  map (option_map pubkey) ss.

(** The highest contribution level not above [c], or [prev] when there is
    none. *)
Fixpoint topBelow (prev : Z) (levels : list Z) (c : Z) : Z :=
  match levels with
  | [] => prev
  | l :: ls => if l <=? c then topBelow l ls c else prev
  end.

(** The level under the k-th one ([prev] of the pot loop). *)
Definition prevLevel (levels : list Z) (k : nat) : Z :=
  match k with
  | O => 0
  | S k' => default 0 (levels !! k')
  end.

(** Chips put in by the seats that have not folded. *)
Definition unfoldedContributions (ss : list (option Seat)) : Z :=
  sumZ (map (fun p => totalContributed p.2) (activePlayers ss)).

(** Chips put in by every seat, folded or not. *)
Definition allContributions (ss : list (option Seat)) : Z :=
  sumZ (map (fun o => match o with Some s => totalContributed s | None => 0 end) ss).

Definition sortedCards (cards : list Card) : list Card :=
  sortBy (fun a b => card_r b - card_r a) cards.

Definition flushOf (cards : list Card) : bool :=
  let suits := map card_s (sortedCards cards) in
  forallb (fun x => bool_decide (Some x = head suits)) suits.

(** The part of [evaluate5] below the computation of [ranks] and
    [isFlush], as a function of the two. *)
Definition classify (ranks : list Z) (isFlush : bool) : list Z :=
  let uniqueRanks := setOf ranks in
  let sortedUnique := sortBy (fun a b => b - a) uniqueRanks in
  let straight : bool * Z :=
    if (length sortedUnique =? 5)%nat then
      if forallb (fun i => at0 sortedUnique i - at0 sortedUnique (i + 1) =? 1)
                 (seq 0 4)
      then (true, at0 sortedUnique 0)
      else if bool_decide (sortedUnique = [14;5;4;3;2]) then (true, 5)
      else (false, 0)
    else (false, 0) in
  let isStraight := straight.1 in
  let topStraight := straight.2 in
  let byCount := sortBy byCountCmp (map_to_list (countRanks ranks)) in
  let r_ i := (nth i byCount (0, 0)).1 in
  let c_ i := (nth i byCount (0, 0)).2 in
  let rest k := map fst (drop k byCount) in
  if isStraight && isFlush then [8; topStraight]
  else if c_ 0%nat =? 4 then [7; r_ 0%nat; nth 0 (rest 1%nat) 0]
  else if (c_ 0%nat =? 3) && (c_ 1%nat =? 2) then [6; r_ 0%nat; r_ 1%nat]
  else if isFlush then 5 :: ranks
  else if isStraight then [4; topStraight]
  else if c_ 0%nat =? 3 then [3; r_ 0%nat] ++ take 2 (rest 1%nat)
  else if (c_ 0%nat =? 2) && (c_ 1%nat =? 2)
       then [2; r_ 0%nat; r_ 1%nat; nth 0 (rest 2%nat) 0]
  else if c_ 0%nat =? 2 then [1; r_ 0%nat] ++ take 3 (rest 1%nat)
  else 0 :: ranks.

(** Two of the cards differ in suit. *)
Definition mixedSuits (cards : list Card) : Prop :=
  exists c1 c2, c1 ∈ cards /\ c2 ∈ cards /\ card_s c1 <> card_s c2.

(** Two seats that agree on every field but [holeCards], [socketId] and
    [reconnectTimeout]. *)
Definition samePublicSeat (s1 s2 : Seat) : Prop :=
  pubkey s1 = pubkey s2 /\ chips s1 = chips s2 /\ currentBet s1 = currentBet s2 /\
  totalContributed s1 = totalContributed s2 /\ folded s1 = folded s2 /\
  active s1 = active s2 /\ allIn s1 = allIn s2.

(** Two tables that differ at most in some seats' [holeCards], [socketId]
    or [reconnectTimeout]. *)
Definition differOnlyInPrivate (t1 t2 : Table) : Prop :=
  id t1 = id t2 /\ deck t1 = deck t2 /\ community t1 = community t2 /\
  pot t1 = pot t2 /\ currentBetToCall t1 = currentBetToCall t2 /\
  dealerIndex t1 = dealerIndex t2 /\ currentTurnIndex t1 = currentTurnIndex t2 /\
  stage t1 = stage t2 /\ lastRaiseAmount t1 = lastRaiseAmount t2 /\
  Forall2 (option_Forall2 samePublicSeat) (seats t1) (seats t2).

(** *** The specification's own bookkeeping

    Two notions that the specification words and the source does not
    compute; they are used to state where the two part. *)

(** Section 4.B: "mark each seat has-acted-this-round after any action,
    clear those marks on a raise".  The marks after seat [seatIndex]
    performed the accepted action [a]. *)
Definition spec_marksAfter (marks : list Z) (seatIndex : Z) (a : Action) : list Z :=
  match type_ a with
  | Raise => [seatIndex]
  | _ => seatIndex :: marks
  end.

(** Section 4.B: "require all unfolded non-all-in seats to be marked before
    completion". *)
Definition spec_allMarked (t : Table) (marks : list Z) : bool :=
  forallb (fun '(i, s) => isAllIn s || bool_decide (i ∈ marks))
          (activePlayers (seats t)).

(** Section 4.D: "the winner closest clockwise after the dealer": the first
    seat of the ring walk from the dealer that is one of the winners. *)
Definition spec_closestAfterDealer (t : Table) (winners : list Z) : option Z :=
  List.find (fun cand => bool_decide (cand ∈ winners))
            (ringCands (length (seats t)) (dealerIndex t)).

(** *** Vocabulary for the rest of the server *)

(** The draws of a shuffle are those [Math.floor(Math.random() * (i + 1))]
    can return. *)
Definition validDraws (draws : nat -> nat) : Prop := forall i, (draws i <= i)%nat.

(** The body of the loop of [bestHandFromSeven]. *)
Definition keepBest (acc : option (option (list Z) * list Card)) (h : list (option Card))
  : option (option (list Z) * list Card) :=
  match acc, mapM Datatypes.id h with
  | Some (bestEval, bestHand), Some hc =>
      let e := evaluate5 hc in
      match bestEval with
      | None => Some (Some e, hc)
      | Some be =>
          if 0 <? compareEval e be then Some (Some e, hc)
          else Some (bestEval, bestHand)
      end
  | _, _ => None
  end.

(** Number of cards of rank [r]. *)
Definition occurrences (r : Z) (ranks : list Z) : Z :=
  Z.of_nat (length (List.filter (Z.eqb r) ranks)).

(** The entries of [counts] in [evaluate5]: each distinct rank with its number of
    cards. *)
Definition rankEntries (ranks : list Z) : list (Z * Z) :=
  map (fun r => (r, occurrences r ranks)) (setOf ranks).

(** The returns of [evaluate5], as a function of [ranks], [sortedUnique],
    [byCount] and [isFlush]. *)
Definition verdict (ranks sortedUnique : list Z) (byCount : list (Z * Z))
           (isFlush : bool) : list Z :=
  let straight : bool * Z :=
    if (length sortedUnique =? 5)%nat then
      if forallb (fun i => at0 sortedUnique i - at0 sortedUnique (i + 1) =? 1)
                 (seq 0 4)
      then (true, at0 sortedUnique 0)
      else if bool_decide (sortedUnique = [14;5;4;3;2]) then (true, 5)
      else (false, 0)
    else (false, 0) in
  let isStraight := straight.1 in
  let topStraight := straight.2 in
  let r_ i := (nth i byCount (0, 0)).1 in
  let c_ i := (nth i byCount (0, 0)).2 in
  let rest k := map fst (drop k byCount) in
  if isStraight && isFlush then [8; topStraight]
  else if c_ 0%nat =? 4 then [7; r_ 0%nat; nth 0 (rest 1%nat) 0]
  else if (c_ 0%nat =? 3) && (c_ 1%nat =? 2) then [6; r_ 0%nat; r_ 1%nat]
  else if isFlush then 5 :: ranks
  else if isStraight then [4; topStraight]
  else if c_ 0%nat =? 3 then [3; r_ 0%nat] ++ take 2 (rest 1%nat)
  else if (c_ 0%nat =? 2) && (c_ 1%nat =? 2)
       then [2; r_ 0%nat; r_ 1%nat; nth 0 (rest 2%nat) 0]
  else if c_ 0%nat =? 2 then [1; r_ 0%nat] ++ take 3 (rest 1%nat)
  else 0 :: ranks.

(** The rank patterns of five cards that are not all of one rank. *)
Inductive Pattern :=
| FourOfAKind (a b : Z)
| FullHouse (a b : Z)
| ThreeOfAKind (a b c : Z)
| TwoPair (a b c : Z)
| OnePair (a b c d : Z)
| NoPair (a b c d e : Z).

Definition patternRanks (p : Pattern) : list Z :=
  match p with
  | FourOfAKind a b => [a; a; a; a; b]
  | FullHouse a b => [a; a; a; b; b]
  | ThreeOfAKind a b c => [a; a; a; b; c]
  | TwoPair a b c => [a; a; b; b; c]
  | OnePair a b c d => [a; a; b; c; d]
  | NoPair a b c d e => [a; b; c; d; e]
  end.

(** The letters of a pattern stand for different ranks; the two pairs and
    the kickers are listed from high to low. *)
Definition wellFormed (p : Pattern) : Prop :=
  match p with
  | FourOfAKind a b => a <> b
  | FullHouse a b => a <> b
  | ThreeOfAKind a b c => a <> b /\ a <> c /\ c < b
  | TwoPair a b c => b < a /\ c <> a /\ c <> b
  | OnePair a b c d => a <> b /\ a <> c /\ a <> d /\ d < c /\ c < b
  | NoPair a b c d e => e < d /\ d < c /\ c < b /\ b < a
  end.

(** The value of a hand of poker: its category, then the ranks that break
    ties inside the category.  Five consecutive ranks, or ace to five, make
    a straight. *)
Definition patternValue (p : Pattern) (flush : bool) : list Z :=
  let high := sortBy (fun x y => y - x) (patternRanks p) in
  match p with
  | FourOfAKind a b => [7; a; b]
  | FullHouse a b => [6; a; b]
  | ThreeOfAKind a b c => if flush then 5 :: high else [3; a; b; c]
  | TwoPair a b c => if flush then 5 :: high else [2; a; b; c]
  | OnePair a b c d => if flush then 5 :: high else [1; a; b; c; d]
  | NoPair a b c d e =>
      if a - e =? 4 then [if flush then 8 else 4; a]
      else if (a =? 14) && (b =? 5) && (e =? 2) then [if flush then 8 else 4; 5]
      else (if flush then 5 else 0) :: [a; b; c; d; e]
  end.

(** The seat whose turn it is cannot act: it is empty, folded or all-in. *)
Definition turnCannotAct (t : Table) : Prop :=
  match seatAt (seats t) (currentTurnIndex t) with
  | Some s => folded s || isAllIn s = true
  | None => True
  end.

(** The board holds the number of cards of the stage. *)
Definition boardForStage (t : Table) : Prop :=
  match stage t with
  | Preflop => length (community t) = 0%nat
  | Flop => length (community t) = 3%nat
  | Turn => length (community t) = 4%nat
  | River | Showdown => length (community t) = 5%nat
  | Waiting => True
  end.

(** Stacks are not negative, no bet is above the bet to call, and a seat
    flagged all-in has no chips left. *)
Definition seatsSound (t : Table) : Prop :=
  forall i s, seatAt (seats t) i = Some s ->
              0 <= chips s /\ currentBet s <= currentBetToCall t /\
              (isAllIn s = true -> chips s = 0).

(** Cards held by the seats, in seat order. *)
Definition holeCardsOf (ss : list (option Seat)) : list (option Card) :=
  flat_map (fun o => match o with Some s => holeCards s | None => [] end) ss.

(** The cards of the table that are not [undefined]: hole cards, board and
    remaining deck. *)
Definition cardsOf (t : Table) : list Card :=
  omap (fun c => c) (holeCardsOf (seats t) ++ community t) ++ deck t.

(** Seat [i] of [ss'] is seat [i] of [ss] with [x] chips more. *)
Definition paid (ss ss' : list (option Seat)) (i : Z) (x : Z) : Prop :=
  seatAt ss' i = (fun s => addChips s x) <$> seatAt ss i.

(** Seat [c] is the first seat satisfying [want] met when walking the ring
    from the seat after [a], [a] itself coming last. *)
Definition nearestAfter (want : Seat -> bool) (ss : list (option Seat)) (a c : Z) : Prop :=
  let n := Z.of_nat (length ss) in
  exists k, 1 <= k <= n /\ c = Z.rem (a + k) n /\
            (exists s, seatAt ss c = Some s /\ want s = true) /\
            forall k' s, 1 <= k' < k -> seatAt ss (Z.rem (a + k') n) = Some s ->
                         want s = false.

(** No seat of the walk from [a] satisfies [want]. *)
Definition noneAround (want : Seat -> bool) (ss : list (option Seat)) (a : Z) : Prop :=
  let n := Z.of_nat (length ss) in
  forall k s, 1 <= k <= n -> seatAt ss (Z.rem (a + k) n) = Some s -> want s = false.

(** ** Example tables *)

(** Two players seated at seats 0 and 1 of the default six-seat table,
    default blinds 1 and 2, no hand started yet. *)
Definition headsUpLobby : Table :=
  seatPlayer (seatPlayer (newTable 2 "table-1" 6) 0 "alice" "sock-a") 1 "bob" "sock-b".

(** The first hand of that table; the shuffle returned the deck in the
    order of [fullDeck]. *)
Definition headsUpStart : Table := startHandIfReady 1 2 2 headsUpLobby fullDeck.

Definition doAction (ty : ActionType) (t : Table) (seatIndex : Z) : Table :=
  handleAction 2 t seatIndex (mkAction ty None).

(** Seat 1 (small blind) folds, then seat 0 checks the flop and the turn:
    the table on the river with seat 0 to act. *)
Definition headsUpRiver : Table :=
  doAction Check (doAction Check (doAction Fold headsUpStart 1) 0) 0.

(** ... and checks the river: the hand is resolved. *)
Definition headsUpResolved : Table := doAction Check headsUpRiver 0.

Definition exampleSeat (c tc : Z) (h : list (option Card)) : Seat :=
  {| socketId := Some "sock"%string; pubkey := Some "player"%string; chips := c;
     currentBet := 0; totalContributed := tc; folded := false; holeCards := h;
     active := true; allIn := Some false; reconnectTimeout := None |}.

(** A showdown with a pot of 201: three seats put in 67 each; seats 0 and 1
    both hold ace-queen and tie with A-K-Q-J-9, seat 2 holds less.  The
    button is on seat 0. *)
Definition split201 : Table :=
  {| id := "table-1";
     seats := [Some (exampleSeat 933 67 [Some (mkCard 14 suit_h); Some (mkCard 12 suit_d)]);
               Some (exampleSeat 933 67 [Some (mkCard 14 suit_d); Some (mkCard 12 suit_c)]);
               Some (exampleSeat 933 67 [Some (mkCard 3 suit_c); Some (mkCard 4 suit_d)]);
               None; None; None];
     deck := [];
     community := [Some (mkCard 2 suit_s); Some (mkCard 7 suit_h);
                   Some (mkCard 9 suit_d); Some (mkCard 11 suit_c);
                   Some (mkCard 13 suit_s)];
     pot := 201; currentBetToCall := 0; dealerIndex := 0; currentTurnIndex := 1;
     stage := Showdown; lastRaiseAmount := 2 |}.

Definition split201Results : list Result :=
  default [] (buildResults (community split201) (activePlayers (seats split201))).

(** The table that [advanceStage] hands to [resolveShowdown] at the end of
    [headsUpRiver]. *)
Definition headsUpShowdown : Table :=
  {| id := id headsUpRiver;
     seats := map (option_map clearBet) (seats headsUpRiver);
     deck := deck headsUpRiver; community := community headsUpRiver;
     pot := pot headsUpRiver; currentBetToCall := currentBetToCall headsUpRiver;
     dealerIndex := dealerIndex headsUpRiver;
     currentTurnIndex := currentTurnIndex headsUpRiver;
     stage := Showdown; lastRaiseAmount := lastRaiseAmount headsUpRiver |}.

Definition headsUpShowdownResults : list Result :=
  default [] (buildResults (community headsUpShowdown)
                           (activePlayers (seats headsUpShowdown))).

(** A showdown with side pots and a folded seat: seat 0 is all-in for 50,
    seats 1 and 2 put in 100 each, seat 3 put in 20 and folded.  The pot
    the engine has tracked is 270. *)
Definition sidePotsWithFold : Table :=
  {| id := "table-1";
     seats := [Some (markAllIn
                       (exampleSeat 0 50 [Some (mkCard 14 suit_h); Some (mkCard 12 suit_d)]));
               Some (exampleSeat 900 100 [Some (mkCard 13 suit_d); Some (mkCard 13 suit_c)]);
               Some (exampleSeat 900 100 [Some (mkCard 3 suit_c); Some (mkCard 4 suit_d)]);
               Some (setFolded
                       (exampleSeat 980 20 [Some (mkCard 5 suit_c); Some (mkCard 6 suit_d)]));
               None; None];
     deck := [];
     community := [Some (mkCard 2 suit_s); Some (mkCard 7 suit_h);
                   Some (mkCard 9 suit_d); Some (mkCard 11 suit_c);
                   Some (mkCard 13 suit_s)];
     pot := 270; currentBetToCall := 0; dealerIndex := 0; currentTurnIndex := 1;
     stage := Showdown; lastRaiseAmount := 2 |}.

Definition sidePotsWithFoldResults : list Result :=
  default [] (buildResults (community sidePotsWithFold)
                           (activePlayers (seats sidePotsWithFold))).

(** [headsUpStart] with other hole cards, another socket and a reconnect
    deadline at seat 0. *)
Definition headsUpStartOtherPrivate : Table :=
  withSeats headsUpStart
    (match seats headsUpStart with
     | Some s :: rest =>
         Some {| socketId := None; pubkey := pubkey s; chips := chips s;
                 currentBet := currentBet s; totalContributed := totalContributed s;
                 folded := folded s;
                 holeCards := [Some (mkCard 2 suit_c); Some (mkCard 7 suit_d)];
                 active := active s; allIn := allIn s;
                 reconnectTimeout := Some 60000 |} :: rest
     | other => other
     end).

(** The seat at index [i] of [headsUpStart]. *)
Definition headsUpSeat (i : Z) : Seat :=
  default (exampleSeat 0 0 []) (seatAt (seats headsUpStart) i).

(** [headsUpStart] after the small blind (seat 1) called, as handed to
    [advanceStage]. *)
Definition headsUpAfterCall : Table :=
  match handleAction_outcome 2 headsUpStart 1 (mkAction Call None) with
  | Advance t' => t'
  | _ => headsUpStart
  end.


(** The small blind (seat 1) raises by 1000, which puts it all-in, and the
    big blind (seat 0) folds. *)
Definition headsUpAllInFolded : Table :=
  handleAction 2 (handleAction 2 headsUpStart 1 (mkAction Raise (Some 1000)))
               0 (mkAction Fold None).

(** One player seated, the same identity asking for a second seat. *)
Definition aliceSeated : Table := seatPlayer (newTable 2 "table-1" 6) 0 "alice" "sock-a".

(** A mixed-suit wheel and a mixed-suit six-high straight. *)
Definition wheelHand : list Card :=
  [mkCard 14 suit_s; mkCard 5 suit_h; mkCard 4 suit_d; mkCard 3 suit_c; mkCard 2 suit_s].

Definition sixHighHand : list Card :=
  [mkCard 6 suit_s; mkCard 5 suit_h; mkCard 4 suit_d; mkCard 3 suit_c; mkCard 2 suit_s].

(** [headsUpStart] after the small blind (seat 1) raised by 2: seat 0 to
    act. *)
Definition headsUpAfterRaise : Table :=
  handleAction 2 headsUpStart 1 (mkAction Raise (Some 2)).

(** Both seats all-in before the flop: seat 1 raises by 1000, seat 0
    calls. *)
Definition headsUpAllIn : Table :=
  handleAction 2 (handleAction 2 headsUpStart 1 (mkAction Raise (Some 1000)))
               0 (mkAction Call None).

(** Four nines with an ace, and the same cards in another order. *)
Definition fourNines : list Card :=
  [mkCard 9 suit_s; mkCard 14 suit_d; mkCard 9 suit_h; mkCard 9 suit_d; mkCard 9 suit_c].

Definition fourNinesSorted : list Card :=
  [mkCard 9 suit_s; mkCard 9 suit_h; mkCard 9 suit_d; mkCard 9 suit_c; mkCard 14 suit_d].

(** The table handed to [advanceStage] when seat 0 has called the all-in
    raise of seat 1. *)
Definition headsUpAllInCalled : Table :=
  match handleAction_outcome
          2 (handleAction 2 headsUpStart 1 (mkAction Raise (Some 1000)))
          0 (mkAction Call None) with
  | Advance t' => t'
  | _ => headsUpStart
  end.

(** [headsUpStart] after the raise by 4 of seat 1 was applied, before the
    turn is passed. *)
Definition headsUpRaisedBy4 : Table :=
  default headsUpStart
          (applyAction 2 headsUpStart 1 (headsUpSeat 1) (mkAction Raise (Some 4))).

(** The seats of [split201], every one of them folded. *)
Definition everyoneFolded : Table :=
  withSeats split201 (map (option_map setFolded) (seats split201)).

(** ** Seats as a ring *)

Lemma seatAt_Some_lookup ss i s :
  seatAt ss i = Some s <-> 0 <= i /\ ss !! Z.to_nat i = Some (Some s).
Proof.
  unfold seatAt. destruct (Z.ltb_spec i 0) as [Hneg|Hpos].
  - split; [discriminate | lia].
  - destruct (ss !! Z.to_nat i) as [[x|]|]; simpl.
    + split; [intros [= ->]; by split | intros [_ [= ->]]; done].
    + split; [discriminate | intros [_ [=]]].
    + split; [discriminate | intros [_ [=]]].
Qed.

Lemma seatAt_range ss i s :
  seatAt ss i = Some s -> 0 <= i < Z.of_nat (length ss).
Proof.
  intros [H0 H]%seatAt_Some_lookup. apply lookup_lt_Some in H. lia.
Qed.

Lemma seatAt_of_nat ss (k : nat) : seatAt ss (Z.of_nat k) = ss !! k ≫= (fun x => x).
Proof.
  unfold seatAt. destruct (Z.ltb_spec (Z.of_nat k) 0); [lia|]. by rewrite Nat2Z.id.
Qed.

Lemma seatAt_putSeat_eq ss i s :
  0 <= i < Z.of_nat (length ss) -> seatAt (putSeat ss i s) i = Some s.
Proof.
  intros Hi. apply seatAt_Some_lookup. split; [lia|].
  unfold putSeat. apply list_lookup_insert_eq. lia.
Qed.

Lemma seatAt_putSeat_ne ss i j s :
  0 <= i -> i <> j -> seatAt (putSeat ss i s) j = seatAt ss j.
Proof.
  intros Hi Hne. unfold seatAt, putSeat.
  destruct (Z.ltb_spec j 0); [reflexivity|].
  rewrite list_lookup_insert_ne; [reflexivity|]. lia.
Qed.

Lemma length_putSeat ss i s : length (putSeat ss i s) = length ss.
Proof. apply length_insert. Qed.

Lemma seatAt_fmap (f : Seat -> Seat) ss i :
  seatAt (map (option_map f) ss) i = f <$> seatAt ss i.
Proof.
  unfold seatAt. destruct (i <? 0); [reflexivity|].
  change (map (option_map f) ss) with (fmap (M:=list) (option_map f) ss).
  rewrite list_lookup_fmap. destruct (ss !! Z.to_nat i) as [[x|]|]; reflexivity.
Qed.

Lemma ringFind_unfold want ss startIdx :
  ringFind want ss startIdx =
  List.find (fun cand => match seatAt ss cand with Some s => want s | None => false end)
            (ringCands (length ss) startIdx).
Proof. reflexivity. Qed.

Lemma ringCands_cover n startIdx i :
  0 <= startIdx < Z.of_nat n -> 0 <= i < Z.of_nat n -> In i (ringCands n startIdx).
Proof.
  intros Hs Hi. unfold ringCands. apply in_map_iff.
  exists (Z.to_nat (if startIdx <? i then i - startIdx else i - startIdx + Z.of_nat n)).
  destruct (Z.ltb_spec startIdx i).
  - split.
    + rewrite Z2Nat.id by lia. replace (startIdx + (i - startIdx)) with i by lia.
      apply Z.rem_small. lia.
    + apply in_seq. lia.
  - split.
    + rewrite Z2Nat.id by lia.
      replace (startIdx + (i - startIdx + Z.of_nat n)) with (i + 1 * Z.of_nat n) by lia.
      rewrite Z.rem_mod_nonneg by lia.
      rewrite Z.mod_add by lia. apply Z.mod_small. lia.
    + apply in_seq. lia.
Qed.

Lemma ringFind_Some want ss startIdx c :
  ringFind want ss startIdx = Some c ->
  exists s, seatAt ss c = Some s /\ want s = true.
Proof.
  rewrite ringFind_unfold. intros [_ H]%find_some.
  destruct (seatAt ss c) as [s|]; [eauto | discriminate].
Qed.

Lemma ringFind_None want ss startIdx :
  0 <= startIdx < Z.of_nat (length ss) ->
  ringFind want ss startIdx = None ->
  forall i s, seatAt ss i = Some s -> want s = false.
Proof.
  rewrite ringFind_unfold. intros Hs Hnone i s Hi.
  pose proof (find_none _ _ Hnone i) as H. simpl in H. rewrite Hi in H.
  apply H. apply ringCands_cover; [done|]. by eapply seatAt_range.
Qed.


Lemma find_app {A} (f : A -> bool) l1 l2 :
  List.find f (l1 ++ l2) = match List.find f l1 with Some x => Some x | None => List.find f l2 end.
Proof. induction l1 as [|x l1 IH]; simpl; [reflexivity|]. destruct (f x); auto. Qed.

(** With exactly two occupied seats [a] and [b], the walk from [a] stops at
    [b] as soon as [b] qualifies, whatever [a] is. *)
Lemma ringFind_two want ss a b sb :
  0 <= a < Z.of_nat (length ss) ->
  a <> b ->
  seatAt ss b = Some sb -> want sb = true ->
  (forall i s, seatAt ss i = Some s -> i = a \/ i = b) ->
  ringFind want ss a = Some b.
Proof.
  intros Ha Hab Hb Hw Honly.
  pose proof (seatAt_range _ _ _ Hb) as Hbr.
  rewrite ringFind_unfold. unfold ringCands.
  set (n := length ss) in *.
  assert (Hsplit : seq 1 n = seq 1 (n - 1) ++ [n]).
  { assert (Hn : n = ((n - 1) + 1)%nat) by lia.
    rewrite Hn at 1. rewrite seq_app. simpl. do 2 f_equal. lia. }
  rewrite Hsplit, map_app, find_app.
  set (f := fun cand => match seatAt ss cand with Some s => want s | None => false end).
  destruct (List.find f _) as [c|] eqn:E.
  - apply find_some in E as [Hin Hf]. unfold f in Hf.
    destruct (seatAt ss c) as [s|] eqn:Hc; [|discriminate].
    apply in_map_iff in Hin as (k & Hk & Hkin). apply in_seq in Hkin.
    destruct (Honly _ _ Hc) as [->| ->]; [|reflexivity].
    exfalso.
    rewrite Z.rem_mod_nonneg in Hk by lia.
    assert (0 < Z.of_nat k < Z.of_nat n) by lia.
    destruct (Z.ltb_spec (a + Z.of_nat k) (Z.of_nat n)).
    + rewrite Z.mod_small in Hk by lia. lia.
    + replace (a + Z.of_nat k) with ((a + Z.of_nat k - Z.of_nat n) + 1 * Z.of_nat n) in Hk by lia.
      rewrite Z.mod_add in Hk by lia. rewrite Z.mod_small in Hk by lia. lia.
  - exfalso.
    pose proof (find_none _ _ E b) as H. unfold f in H. rewrite Hb in H.
    rewrite H in Hw; [discriminate|].
    apply in_map_iff.
    exists (Z.to_nat (if a <? b then b - a else b - a + Z.of_nat n)).
    destruct (Z.ltb_spec a b).
    + split.
      * rewrite Z2Nat.id by lia. replace (a + (b - a)) with b by lia.
        apply Z.rem_small. lia.
      * apply in_seq. lia.
    + split.
      * rewrite Z2Nat.id by lia.
        replace (a + (b - a + Z.of_nat n)) with (b + 1 * Z.of_nat n) by lia.
        rewrite Z.rem_mod_nonneg by lia.
        rewrite Z.mod_add by lia. apply Z.mod_small. lia.
      * apply in_seq. lia.
Qed.

(** ** Completion of a betting round *)

Lemma seatAt_In ss i s : seatAt ss i = Some s -> In (Some s) ss.
Proof.
  intros [_ H]%seatAt_Some_lookup. apply list_elem_of_In.
  by eapply list_elem_of_lookup_2.
Qed.

Lemma In_seatAt ss s : In (Some s) ss -> exists i, seatAt ss i = Some s.
Proof.
  intros H%list_elem_of_In. apply list_elem_of_lookup_1 in H as [k Hk].
  exists (Z.of_nat k). rewrite seatAt_of_nat, Hk. reflexivity.
Qed.

Lemma isBettingRoundComplete_spec t :
  isBettingRoundComplete t = true <-> betsMatched t.
Proof.
  unfold isBettingRoundComplete, betsMatched. rewrite forallb_forall. split.
  - intros H i s Hi Hf Ha. specialize (H _ (seatAt_In _ _ _ Hi)). simpl in H.
    rewrite Hf, Ha in H. simpl in H. by apply Z.eqb_eq.
  - intros H [s|] Hin; [|reflexivity].
    apply In_seatAt in Hin as [i Hi].
    destruct (folded s) eqn:Hf; [reflexivity|].
    destruct (isAllIn s) eqn:Ha; [reflexivity|]. simpl.
    apply Z.eqb_eq. eauto.
Qed.

Lemma isBettingRoundComplete_withTurn t k :
  isBettingRoundComplete (withTurn t k) = isBettingRoundComplete t.
Proof. reflexivity. Qed.

Lemma nextOccupiedFrom_none t startIdx :
  nextOccupiedFrom t startIdx = -1 -> ringFind actionable (seats t) startIdx = None.
Proof.
  unfold nextOccupiedFrom.
  destruct (ringFind actionable (seats t) startIdx) as [c|] eqn:E; [|reflexivity].
  simpl. intros ->. apply ringFind_Some in E as (s & Hs & _).
  apply seatAt_range in Hs. lia.
Qed.

Lemma no_actionable_complete t startIdx :
  allActive (seats t) ->
  0 <= startIdx < Z.of_nat (length (seats t)) ->
  nextOccupiedFrom t startIdx = -1 ->
  isBettingRoundComplete t = true.
Proof.
  intros Hact Hr Hn%nextOccupiedFrom_none.
  apply isBettingRoundComplete_spec. intros i s Hi Hf Ha.
  pose proof (ringFind_None _ _ _ Hr Hn _ _ Hi) as H.
  unfold actionable in H. rewrite (Hact _ _ Hi), Hf, Ha in H. discriminate.
Qed.

Lemma passTurn_Advance t t' :
  allActive (seats t) ->
  0 <= currentTurnIndex t < Z.of_nat (length (seats t)) ->
  passTurn t = Advance t' ->
  isBettingRoundComplete t' = true.
Proof.
  intros Hact Hr. unfold passTurn.
  destruct (Z.eqb_spec (nextOccupiedFrom t (currentTurnIndex t)) (-1)) as [E|E].
  - pose proof (no_actionable_complete _ _ Hact Hr E) as Hc. rewrite Hc.
    intros [= <-]. exact Hc.
  - rewrite isBettingRoundComplete_withTurn.
    destruct (isBettingRoundComplete t) eqn:Hc; [|discriminate].
    intros [= <-]. exact Hc.
Qed.


Section ApplyAction.
Variable BIG_BLIND : Z.

Lemma allActive_putSeat ss i s s' :
  allActive ss -> seatAt ss i = Some s -> active s' = active s ->
  allActive (putSeat ss i s').
Proof.
  intros Hact Hi Hs' j sj Hj.
  pose proof (seatAt_range _ _ _ Hi) as Hr.
  destruct (Z.eq_dec i j) as [<-|Hne].
  - rewrite seatAt_putSeat_eq in Hj by done. injection Hj as <-.
    rewrite Hs'. eauto.
  - rewrite seatAt_putSeat_ne in Hj by lia. eauto.
Qed.

Lemma applyAction_frame t seatIndex seat a t1 :
  applyAction BIG_BLIND t seatIndex seat a = Some t1 ->
  stage t1 = stage t /\ community t1 = community t /\ deck t1 = deck t /\
  dealerIndex t1 = dealerIndex t /\ currentTurnIndex t1 = currentTurnIndex t /\
  (seats t1 = seats t \/
   exists seat', seats t1 = putSeat (seats t) seatIndex seat' /\
                 active seat' = active seat /\ pubkey seat' = pubkey seat).
Proof.
  unfold applyAction. destruct (type_ a).
  - intros [= <-]. simpl. repeat split; try done. right. by eexists.
  - destruct (negb _); [discriminate|]. intros [= <-]. repeat split; auto.
  - intros [= <-]. simpl. repeat split; try done. right. by eexists.
  - destruct (_ <? _); [discriminate|]. intros [= <-]. simpl.
    repeat split; try done. right. by eexists.
Qed.

Lemma applyAction_allActive t seatIndex seat a t1 :
  allActive (seats t) -> seatAt (seats t) seatIndex = Some seat ->
  applyAction BIG_BLIND t seatIndex seat a = Some t1 ->
  allActive (seats t1) /\ length (seats t1) = length (seats t).
Proof.
  intros Hact Hseat (_ & _ & _ & _ & _ & [->|(s' & -> & Ha & _)])%applyAction_frame.
  - done.
  - split; [by eapply allActive_putSeat | apply length_putSeat].
Qed.

(** Claim C2, as amended.  When [handleAction] or the action-timer callback
    calls [advanceStage], every unfolded seat that is not all-in has
    [currentBet] equal to [currentBetToCall] (seats being active, as
    [seatPlayer] creates them).  Who has acted since the last raise is not
    part of the test. *)
Theorem advance_only_when_bets_match (t : Table) (o : Outcome) (t' : Table) :
  allActive (seats t) ->
  (exists seatIndex a, o = handleAction_outcome BIG_BLIND t seatIndex a) \/
  o = actionTimeout_outcome t ->
  o = Advance t' ->
  betsMatched t'.
Proof.
  intros Hact Ho Hadv. apply isBettingRoundComplete_spec. subst o.
  destruct Ho as [(seatIndex & a & Ho) | Ho].
  - unfold handleAction_outcome in Ho.
    destruct (seatAt (seats t) seatIndex) as [seat|] eqn:Hseat; [|discriminate].
    destruct (folded seat || isAllIn seat); [discriminate|].
    destruct (Z.eqb_spec (currentTurnIndex t) seatIndex) as [Ht|]; [|discriminate].
    simpl in Ho.
    destruct (applyAction BIG_BLIND t seatIndex seat a) as [t1|] eqn:Happ; [|discriminate].
    destruct (applyAction_allActive _ _ _ _ _ Hact Hseat Happ) as [Hact1 Hlen].
    apply applyAction_frame in Happ as (_ & _ & _ & _ & Hturn & _).
    eapply passTurn_Advance; [exact Hact1| |symmetry; exact Ho].
    rewrite Hturn, Hlen, Ht. by eapply seatAt_range.
  - unfold actionTimeout_outcome in Ho.
    destruct (seatAt (seats t) (currentTurnIndex t)) as [seat|] eqn:Hseat; [|discriminate].
    destruct (negb (folded seat) && negb (isAllIn seat)); [|discriminate].
    set (t1 := withSeats t _) in *.
    assert (Hact1 : allActive (seats t1)) by (by eapply allActive_putSeat).
    assert (Hlen1 : length (seats t1) = length (seats t)) by apply length_putSeat.
    destruct (isBettingRoundComplete t1) eqn:Hc.
    + by injection Ho as <-.
    + destruct (Z.eqb_spec (nextOccupiedFrom t1 (currentTurnIndex t)) (-1)) as [E|E];
        [|discriminate].
      injection Ho as <-.
      eapply no_actionable_complete; [exact Hact1| |exact E].
      rewrite Hlen1. by eapply seatAt_range.
Qed.

End ApplyAction.

(** ** The unfolded seats *)

Lemma activePlayers_elem ss i s :
  (i, s) ∈ activePlayers ss -> seatAt ss i = Some s /\ folded s = false.
Proof.
  unfold activePlayers. intros ([k o] & Hin & Hf)%list_elem_of_omap.
  apply elem_of_lookup_imap in Hin as (k' & o' & [= <- <-] & Hk).
  destruct o as [s0|]; [|discriminate].
  destruct (folded s0) eqn:Hfold; [discriminate|].
  injection Hf as <- <-. split; [|done].
  rewrite seatAt_of_nat, Hk. reflexivity.
Qed.

Lemma buildResults_Some comm ps :
  (forall i s, (i, s) ∈ ps -> evaluable (holeCards s ++ comm)) ->
  is_Some (buildResults comm ps).
Proof.
  intros H. unfold buildResults. apply mapM_is_Some.
  apply Forall_forall. intros [i s] Hin. simpl.
  destruct (H _ _ Hin) as (e & h & ->). eauto.
Qed.

Lemma resolveShowdown_done t :
  (forall i s, seatAt (seats t) i = Some s -> folded s = false ->
               evaluable (holeCards s ++ community t)) ->
  stage (resolveShowdown t) = Waiting /\ pot (resolveShowdown t) = 0.
Proof.
  intros H. unfold resolveShowdown.
  destruct (activePlayers (seats t)) as [|p ps] eqn:E; [done|].
  destruct (buildResults_Some (community t) (p :: ps)) as [rs ->]; [|done].
  intros i s Hin. rewrite <- E in Hin.
  apply activePlayers_elem in Hin as [? ?]. eauto.
Qed.


(** ** Blinds and first to act with two players *)

Lemma dealRound_length ss d : length (dealRound ss d).1 = length ss.
Proof.
  revert d. induction ss as [|[s|] ss IH]; intros d; simpl; [done| |].
  - specialize (IH (removelast d)). destruct (dealRound ss (removelast d)). simpl in *. lia.
  - specialize (IH d). destruct (dealRound ss d). simpl in *. lia.
Qed.

Lemma dealRound_lookup ss d (k : nat) :
  match ss !! k with
  | Some (Some s) => exists c, (dealRound ss d).1 !! k = Some (Some (pushHole s c))
  | Some None => (dealRound ss d).1 !! k = Some None
  | None => (dealRound ss d).1 !! k = None
  end.
Proof.
  revert d k. induction ss as [|[s|] ss IH]; intros d k; simpl; [done| |].
  - specialize (IH (removelast d)).
    destruct (dealRound ss (removelast d)) as [rest' d'] eqn:E. simpl in *.
    destruct k as [|k]; simpl; [eauto|]. apply IH.
  - specialize (IH d). destruct (dealRound ss d) as [rest' d'] eqn:E. simpl in *.
    destruct k as [|k]; simpl; [done|]. apply IH.
Qed.

Lemma dealRound_seatAt ss d i :
  match seatAt ss i with
  | Some s => exists c, seatAt (dealRound ss d).1 i = Some (pushHole s c)
  | None => seatAt (dealRound ss d).1 i = None
  end.
Proof.
  unfold seatAt. destruct (i <? 0); [done|].
  pose proof (dealRound_lookup ss d (Z.to_nat i)) as H.
  destruct (ss !! Z.to_nat i) as [[s|]|]; simpl.
  - destruct H as [c ->]. eauto.
  - by rewrite H.
  - by rewrite H.
Qed.

Lemma deal_two_seatAt ss d i :
  let ss0 := map (option_map resetSeat) ss in
  let r1 := dealRound ss0 d in
  let r2 := dealRound r1.1 r1.2 in
  match seatAt ss i with
  | Some s => exists s2, seatAt r2.1 i = Some s2 /\ dealtIn s s2
  | None => seatAt r2.1 i = None
  end.
Proof.
  intros ss0 r1 r2.
  pose proof (dealRound_seatAt ss0 d i) as H1.
  pose proof (dealRound_seatAt r1.1 r1.2 i) as H2.
  fold r1 in H1. fold r2 in H2. unfold ss0 in H1. rewrite seatAt_fmap in H1.
  destruct (seatAt ss i) as [s|]; simpl in H1.
  - destruct H1 as [c1 H1]. rewrite H1 in H2. destruct H2 as [c2 H2].
    eexists. split; [exact H2|]. by repeat split.
  - rewrite H1 in H2. exact H2.
Qed.

Section HeadsUp.
Variables SMALL_BLIND BIG_BLIND MIN_PLAYERS_TO_START : Z.

(** Claim C5, as amended.  With two seats occupied, one of them at the new
    [dealerIndex], the other seat posts the small blind and is first to act
    preflop; the seat at [dealerIndex] posts the big blind; on every later
    street the other seat is again first to act as long as it can act. *)
Theorem heads_up_blinds_as_coded
    (t : Table) (shuffled : list Card) (d o : Z) (sd so : Seat) :
  stage t = Waiting ->
  MIN_PLAYERS_TO_START <= readyPlayerCount t ->
  d = Z.rem (dealerIndex t + 1) (Z.of_nat (length (seats t))) ->
  twoSeated (seats t) d o ->
  seatAt (seats t) d = Some sd -> active sd = true ->
  seatAt (seats t) o = Some so -> active so = true ->
  SMALL_BLIND < chips so ->
  let t' := startHandIfReady SMALL_BLIND BIG_BLIND MIN_PLAYERS_TO_START t shuffled in
  stage t' = Preflop /\ dealerIndex t' = d /\
  (exists so', seatAt (seats t') o = Some so' /\
               currentBet so' = SMALL_BLIND /\ totalContributed so' = SMALL_BLIND /\
               chips so' = chips so - SMALL_BLIND) /\
  (exists sd', seatAt (seats t') d = Some sd' /\
               currentBet sd' = Z.min BIG_BLIND (chips sd) /\
               totalContributed sd' = Z.min BIG_BLIND (chips sd)) /\
  currentBetToCall t' = Z.min BIG_BLIND (chips sd) /\
  currentTurnIndex t' = o /\
  forall t2 : Table,
    dealerIndex t2 = d -> twoSeated (seats t2) d o ->
    (exists s, seatAt (seats t2) d = Some s) ->
    (exists s, seatAt (seats t2) o = Some s /\ actionable s = true) ->
    stage t2 = Preflop \/ stage t2 = Flop \/ stage t2 = Turn ->
    currentTurnIndex (advanceStage BIG_BLIND t2) = o.
Proof.
  intros Hst Hmin Hd [Hne Honly] Hsd Had Hso Hao Hchips t'.
  pose proof (seatAt_range _ _ _ Hsd) as Hdr.
  pose proof (seatAt_range _ _ _ Hso) as Hor.
  assert (Hpost : forall t2 : Table,
    dealerIndex t2 = d -> twoSeated (seats t2) d o ->
    (exists s, seatAt (seats t2) d = Some s) ->
    (exists s, seatAt (seats t2) o = Some s /\ actionable s = true) ->
    stage t2 = Preflop \/ stage t2 = Flop \/ stage t2 = Turn ->
    currentTurnIndex (advanceStage BIG_BLIND t2) = o).
  { intros t2 Hd2 [_ Honly2] [s2d Hs2d] (s2o & Hs2o & Hact2) Hstage.
    assert (Hfind : ringFind actionable (map (option_map clearBet) (seats t2)) d = Some o).
    { eapply ringFind_two with (sb := clearBet s2o).
      - rewrite length_map. by eapply seatAt_range.
      - done.
      - by rewrite seatAt_fmap, Hs2o.
      - exact Hact2.
      - intros i s Hi. rewrite seatAt_fmap in Hi.
        destruct (seatAt (seats t2) i) eqn:E; [|discriminate]. eauto. }
    unfold advanceStage.
    destruct Hstage as [-> | [-> | ->]]; simpl;
      unfold nextOccupiedFrom; simpl; rewrite Hd2, Hfind; simpl;
      destruct (Z.eqb_spec o (-1)); lia. }
  subst t'. unfold startHandIfReady. rewrite Hst. simpl.
  destruct (Z.ltb_spec (readyPlayerCount t) MIN_PLAYERS_TO_START); [lia|].
  pose proof (deal_two_seatAt (seats t) shuffled) as Hdeal. simpl in Hdeal.
  pose proof (dealRound_length (map (option_map resetSeat) (seats t)) shuffled) as Hl1.
  destruct (dealRound (map (option_map resetSeat) (seats t)) shuffled) as [ss1 d1].
  simpl in Hdeal.
  pose proof (dealRound_length ss1 d1) as Hl2.
  destruct (dealRound ss1 d1) as [ss2 d2]. simpl in Hdeal, Hl1, Hl2.
  rewrite length_map in Hl1.
  rewrite <- Hd.
  pose proof (Hdeal d) as Hdd. rewrite Hsd in Hdd. destruct Hdd as (sd2 & Hsd2 & Dd).
  pose proof (Hdeal o) as Hdo. rewrite Hso in Hdo. destruct Hdo as (so2 & Hso2 & Do).
  assert (Honly2 : forall i s, seatAt ss2 i = Some s -> i = d \/ i = o).
  { intros i s Hi. specialize (Hdeal i).
    destruct (seatAt (seats t) i) eqn:E; [eauto | congruence]. }
  destruct Dd as (Dd1 & Dd2 & Dd3 & Dd4 & Dd5 & Dd6).
  destruct Do as (Do1 & Do2 & Do3 & Do4 & Do5 & Do6).
  assert (Hsb : ringFind active ss2 d = Some o).
  { apply ringFind_two with (sb := so2); [lia | done | done | congruence | done]. }
  assert (Hbb : ringFind active ss2 o = Some d).
  { apply ringFind_two with (sb := sd2); [lia | done | done | congruence |].
    intros i s Hi. destruct (Honly2 _ _ Hi); auto. }
  assert (E1 : forall t0, seats t0 = ss2 -> nextOccupiedForBlinds t0 d = o).
  { intros t0 E. unfold nextOccupiedForBlinds. by rewrite E, Hsb. }
  assert (E2 : forall t0, seats t0 = ss2 -> nextOccupiedForBlinds t0 o = d).
  { intros t0 E. unfold nextOccupiedForBlinds. by rewrite E, Hbb. }
  rewrite !E1 by reflexivity. rewrite !E2 by reflexivity.
  rewrite Hso2, Hsd2.
  rewrite Do1, Dd1. rewrite (Z.min_l SMALL_BLIND (chips so)) by lia.
  set (so3 := markAllIn (commit so2 SMALL_BLIND)).
  set (big := Z.min BIG_BLIND (chips sd)).
  rewrite seatAt_putSeat_ne by lia. rewrite Hsd2.
  set (sd3 := markAllIn (commit sd2 big)).
  set (ss4 := putSeat (putSeat ss2 o so3) d sd3).
  assert (Ho4 : seatAt ss4 o = Some so3).
  { unfold ss4. rewrite seatAt_putSeat_ne by lia. apply seatAt_putSeat_eq. lia. }
  assert (Hd4 : seatAt ss4 d = Some sd3).
  { unfold ss4. apply seatAt_putSeat_eq. rewrite length_putSeat. lia. }
  assert (Hact3 : actionable so3 = true).
  { unfold actionable, isAllIn, so3. simpl. rewrite Do5, Hao, Do4, Do6, Do1.
    destruct (Z.eqb_spec (chips so - SMALL_BLIND) 0); [lia|]. reflexivity. }
  assert (Hfirst : ringFind actionable ss4 d = Some o).
  { apply ringFind_two with (sb := so3); [|done|done|done|].
    - unfold ss4. rewrite !length_putSeat. lia.
    - intros i s Hi. destruct (Z.eq_dec i d) as [|Hid]; [auto|].
      destruct (Z.eq_dec i o) as [|Hio]; [auto|].
      unfold ss4 in Hi. rewrite !seatAt_putSeat_ne in Hi by lia. eauto. }
  unfold nextOccupiedFrom. simpl. rewrite Hfirst. simpl.
  destruct (Z.eqb_spec o (-1)); [lia|]. simpl.
  repeat split; try done.
  - exists so3. split; [exact Ho4|]. unfold so3. simpl. rewrite Do1, Do2, Do3.
    repeat split; lia.
  - exists sd3. split; [exact Hd4|]. unfold sd3. simpl. rewrite Dd2, Dd3.
    split; lia.
Qed.

End HeadsUp.

(** ** Seating *)

Lemma identities_fmap (f : Seat -> Seat) ss :
  (forall s, pubkey (f s) = pubkey s) ->
  identities (map (option_map f) ss) = identities ss.
Proof.
  intros Hf. unfold identities. rewrite map_map. apply map_ext.
  intros [s|]; simpl; [by rewrite Hf | done].
Qed.

Lemma identities_dealRound ss d : identities (dealRound ss d).1 = identities ss.
Proof.
  revert d. induction ss as [|[s|] ss IH]; intros d; simpl; [done| |].
  - specialize (IH (removelast d)). destruct (dealRound ss (removelast d)).
    simpl in *. by rewrite IH.
  - specialize (IH d). destruct (dealRound ss d). simpl in *. by rewrite IH.
Qed.

Lemma identities_putSeat ss i s s' :
  seatAt ss i = Some s -> pubkey s' = pubkey s ->
  identities (putSeat ss i s') = identities ss.
Proof.
  intros [Hi Hl]%seatAt_Some_lookup Hp. unfold identities, putSeat.
  change (map (option_map pubkey)) with (fmap (M:=list) (option_map pubkey)).
  rewrite list_fmap_insert. apply list_insert_id.
  rewrite list_lookup_fmap, Hl. simpl. by rewrite Hp.
Qed.

Section Sit.
Variables SMALL_BLIND BIG_BLIND MIN_PLAYERS_TO_START : Z.

Lemma identities_startHandIfReady t shuffled :
  identities (seats (startHandIfReady SMALL_BLIND BIG_BLIND MIN_PLAYERS_TO_START t shuffled))
  = identities (seats t).
Proof.
  unfold startHandIfReady.
  destruct (negb _); [done|]. destruct (_ <? _); [done|].
  pose proof (identities_dealRound (map (option_map resetSeat) (seats t)) shuffled) as H1.
  destruct (dealRound (map (option_map resetSeat) (seats t)) shuffled) as [ss1 d1].
  pose proof (identities_dealRound ss1 d1) as H2.
  destruct (dealRound ss1 d1) as [ss2 d2]. simpl in H1, H2.
  rewrite identities_fmap in H1 by done.
  assert (H : identities ss2 = identities (seats t)) by congruence.
  set (sb := nextOccupiedForBlinds _ _). set (bb := nextOccupiedForBlinds _ sb).
  destruct (seatAt ss2 sb) as [sbSeat|] eqn:Hsb; [|done].
  destruct (seatAt ss2 bb) as [bbSeat|] eqn:Hbb; [|done].
  simpl. rewrite <- H.
  set (ss3 := putSeat ss2 sb _).
  assert (H3 : identities ss3 = identities ss2) by (by eapply identities_putSeat).
  destruct (seatAt ss3 bb) as [bbSeat'|] eqn:Hbb'; [|done].
  rewrite <- H3. by eapply identities_putSeat.
Qed.

Lemma identities_seatPlayer t i pk sock :
  identities (seats (seatPlayer t i pk sock))
  = <[Z.to_nat i := Some (Some pk)]> (identities (seats t)).
Proof.
  unfold seatPlayer, identities, putSeat. simpl.
  change (map (option_map pubkey)) with (fmap (M:=list) (option_map pubkey)).
  by rewrite list_fmap_insert.
Qed.

Lemma identities_seatAt ss i pk :
  0 <= i ->
  identities ss !! Z.to_nat i = Some (Some (Some pk)) ->
  exists s, seatAt ss i = Some s /\ pubkey s = Some pk.
Proof.
  intros Hi. unfold identities.
  change (map (option_map pubkey)) with (fmap (M:=list) (option_map pubkey)).
  rewrite list_lookup_fmap. unfold seatAt.
  destruct (Z.ltb_spec i 0); [lia|].
  destruct (ss !! Z.to_nat i) as [[s|]|]; simpl; try discriminate.
  intros [= Hp]. eauto.
Qed.

(** The guards of [sit] let the request through exactly when the socket is
    authenticated, the index in range and the seat empty. *)
Lemma sitGuards_inr t sockPubkey seatIndex pk :
  sitGuards t sockPubkey seatIndex = inr pk <->
  sockPubkey = Some pk /\ pk <> ""%string /\
  0 <= seatIndex < Z.of_nat (length (seats t)) /\
  seatAt (seats t) seatIndex = None.
Proof.
  unfold sitGuards. destruct sockPubkey as [pk'|]; [|split; [done|by intros [? _]]].
  destruct (String.eqb_spec pk' "") as [->|Hpk].
  { split; [done|]. intros ([= <-] & Hne & _). done. }
  destruct (Z.ltb_spec seatIndex 0); simpl.
  { split; [done|]. intros (_ & _ & ? & _). lia. }
  destruct (Z.leb_spec (Z.of_nat (length (seats t))) seatIndex); simpl.
  { split; [done|]. intros (_ & _ & ? & _). lia. }
  destruct (seatAt (seats t) seatIndex) as [s|] eqn:Hs.
  { split; [done|]. intros (_ & _ & _ & ?). done. }
  split.
  - intros [= <-]. repeat split; (done || lia).
  - by intros ([= <-] & _).
Qed.

(** Claim C6, as amended.  The handler runs in two steps.  When the
    message is handled the guards run on the table [t] of that moment:
    they answer "not authenticated", "bad seat" or "seat taken", in this
    order of precedence, and otherwise start the lookup of the player.
    When the lookup settles the callback runs on the table [t'] of that
    moment, whose seat array has the length it had: a failed lookup is
    answered "server" and a banned player "banned", both with the table
    untouched; otherwise the seat is written for the identity without being
    read again, so that slot holds the identity, whatever it held in [t'],
    and every other slot keeps its own.  When nothing runs between the two
    steps, [sit] seats the player exactly when the socket is authenticated,
    the index in range, the seat empty, the lookup succeeds and the player
    is not banned, and returns the table untouched otherwise.  Whether the
    identity already holds a seat plays no part. *)
Theorem sit_guards_the_seat_not_the_identity
    (t t' : Table) (sockPubkey : option string) (sock : string)
    (seatIndex : Z) (lookup : Lookup) (shuffled : list Card) :
  length (seats t') = length (seats t) ->
  let authenticated := exists pk, sockPubkey = Some pk /\ pk <> ""%string in
  let inRange := 0 <= seatIndex < Z.of_nat (length (seats t)) in
  match sitGuards t sockPubkey seatIndex with
  | inl NotAuthenticated => ~ authenticated
  | inl BadSeat => authenticated /\ ~ inRange
  | inl SeatTaken =>
      authenticated /\ inRange /\ is_Some (seatAt (seats t) seatIndex)
  | inl _ => False
  | inr pk =>
      sockPubkey = Some pk /\ pk <> ""%string /\ inRange /\
      seatAt (seats t) seatIndex = None /\
      let r := sitSettled SMALL_BLIND BIG_BLIND MIN_PLAYERS_TO_START
                          t' pk sock seatIndex lookup shuffled in
      (r.1 = ServerError <-> lookup = LookupFailed) /\
      (r.1 = Banned <-> lookup = LookupDone true) /\
      (r.1 = Sat seatIndex <-> lookup = LookupDone false) /\
      (r.1 <> Sat seatIndex -> r.2 = t') /\
      (r.1 = Sat seatIndex ->
       identities (seats r.2)
       = <[Z.to_nat seatIndex := Some (Some pk)]> (identities (seats t')) /\
       exists s, seatAt (seats r.2) seatIndex = Some s /\ pubkey s = Some pk)
  end /\
  let r := sit SMALL_BLIND BIG_BLIND MIN_PLAYERS_TO_START
               t sockPubkey sock seatIndex lookup shuffled in
  (r.1 = Sat seatIndex <->
     exists pk, sockPubkey = Some pk /\ pk <> ""%string /\ inRange /\
                seatAt (seats t) seatIndex = None /\ lookup = LookupDone false) /\
  (r.1 <> Sat seatIndex -> r.2 = t) /\
  (forall pk, sockPubkey = Some pk -> r.1 = Sat seatIndex ->
     identities (seats r.2)
     = <[Z.to_nat seatIndex := Some (Some pk)]> (identities (seats t))).
Proof.
  intros Hlen authenticated inRange. subst authenticated inRange. split.
  - destruct (sitGuards t sockPubkey seatIndex) as [reply|pk] eqn:Hg.
    + unfold sitGuards in Hg. destruct sockPubkey as [pk|].
      2: { injection Hg as <-. by intros (? & ? & _). }
      destruct (String.eqb_spec pk "") as [->|Hpk].
      { injection Hg as <-. intros (? & [= <-] & ?). done. }
      assert (Hauth : exists pk0, Some pk = Some pk0 /\ pk0 <> ""%string) by eauto.
      destruct (Z.ltb_spec seatIndex 0); simpl in Hg.
      { injection Hg as <-. split; [done|lia]. }
      destruct (Z.leb_spec (Z.of_nat (length (seats t))) seatIndex); simpl in Hg.
      { injection Hg as <-. split; [done|lia]. }
      destruct (seatAt (seats t) seatIndex) as [s|] eqn:Hs; [|done].
      injection Hg as <-. split; [done|]. split; [lia|by eauto].
    + apply sitGuards_inr in Hg as (Hsock & Hpk & Hr & Hfree).
      split; [done|]. split; [done|]. split; [done|]. split; [done|].
      unfold sitSettled. destruct lookup as [|[|]]; simpl.
      * repeat split; (done || discriminate).
      * repeat split; (done || discriminate).
      * split; [done|]. split; [done|]. split; [done|]. split; [done|].
        intros _. rewrite identities_startHandIfReady, identities_seatPlayer.
        split; [done|].
        apply identities_seatAt; [lia|].
        rewrite identities_startHandIfReady, identities_seatPlayer.
        apply list_lookup_insert_eq. unfold identities. rewrite length_map. lia.
  - unfold sit.
    destruct (sitGuards t sockPubkey seatIndex) as [reply|pk] eqn:Hg.
    + simpl. split; [split|split; [done|]].
      * intros ->. exfalso. unfold sitGuards in Hg.
        destruct sockPubkey as [pk|]; [|done].
        destruct (String.eqb pk ""); [done|].
        destruct (_ || _); [done|]. by destruct (seatAt (seats t) seatIndex).
      * intros (pk & Hsock & Hpk & Hr & Hfree & _).
        assert (sitGuards t sockPubkey seatIndex = inr pk) by (by apply sitGuards_inr).
        congruence.
      * intros pk _ ->. exfalso. unfold sitGuards in Hg.
        destruct sockPubkey as [pk0|]; [|done].
        destruct (String.eqb pk0 ""); [done|].
        destruct (_ || _); [done|]. by destruct (seatAt (seats t) seatIndex).
    + apply sitGuards_inr in Hg as (Hsock & Hpk & Hr & Hfree).
      unfold sitSettled. destruct lookup as [|[|]]; simpl.
      * split; [split; [done|by intros (? & _ & _ & _ & _ & ?)]|]. split; [done|].
        intros; discriminate.
      * split; [split; [done|by intros (? & _ & _ & _ & _ & ?)]|]. split; [done|].
        intros; discriminate.
      * split; [split; [by eauto 10|done]|]. split; [done|].
        intros pk' Hpk' _. rewrite Hsock in Hpk'. injection Hpk' as <-.
        by rewrite identities_startHandIfReady, identities_seatPlayer.
Qed.

End Sit.

(** ** Chips on the table *)

Lemma sumZ_insert {A} (f : A -> Z) (l : list A) (k : nat) (old x : A) :
  l !! k = Some old ->
  sumZ (map f (<[k := x]> l)) = sumZ (map f l) - f old + f x.
Proof.
  revert k. induction l as [|y l IH]; intros k; [done|].
  destruct k as [|k]; simpl.
  - intros [= ->]. lia.
  - intros H. rewrite (IH _ H). lia.
Qed.

Lemma stacks_putSeat ss i s s' :
  seatAt ss i = Some s ->
  sumZ (map seatChips (putSeat ss i s')) = sumZ (map seatChips ss) - chips s + chips s'.
Proof.
  intros [_ Hl]%seatAt_Some_lookup. unfold putSeat.
  by rewrite (sumZ_insert _ _ _ _ _ Hl).
Qed.

Lemma stacks_clearBet ss :
  sumZ (map seatChips (map (option_map clearBet) ss)) = sumZ (map seatChips ss).
Proof. induction ss as [|[s|] ss IH]; simpl; lia. Qed.

Section Conservation.
Variable BIG_BLIND : Z.

Lemma applyAction_conserves t seatIndex seat a t1 :
seatAt (seats t) seatIndex = Some seat ->
applyAction BIG_BLIND t seatIndex seat a = Some t1 ->
tableChips t1 = tableChips t.
Proof.
intros Hseat. unfold applyAction, tableChips.
destruct (type_ a).
- intros [= <-]. simpl. rewrite (stacks_putSeat _ _ _ _ Hseat). simpl. lia.
- destruct (negb _); [discriminate|]. by intros [= <-].
- intros [= <-]. simpl. rewrite (stacks_putSeat _ _ _ _ Hseat). simpl. lia.
- destruct (_ <? _); [discriminate|]. intros [= <-]. simpl.
  rewrite (stacks_putSeat _ _ _ _ Hseat). simpl. lia.
Qed.

Lemma passTurn_frame t :
exists k, passTurn t = Advance t \/ passTurn t = Advance (withTurn t k)
          \/ passTurn t = Continue (withTurn t k).
Proof.
unfold passTurn.
destruct (nextOccupiedFrom t (currentTurnIndex t) =? -1).
- destruct (isBettingRoundComplete t); [exists 0; by left|].
  destruct (findNextAny t (currentTurnIndex t) =? -1); [exists 0; by left|].
  eexists. destruct (isBettingRoundComplete _); [right; by left | right; by right].
- eexists. destruct (isBettingRoundComplete _); [right; by left | right; by right].
Qed.

Lemma advanceStage_conserves t k :
stage t <> River ->
tableChips (advanceStage BIG_BLIND t) = tableChips t /\
tableChips (advanceStage BIG_BLIND (withTurn t k)) = tableChips t.
Proof.
intros Hst. unfold advanceStage, tableChips.
destruct (stage t) eqn:E; simpl; rewrite ?E; simpl;
  rewrite ?stacks_clearBet; done.
Qed.

(** Away from the river, an action moves chips between a stack and the pot
  and nothing else: the total on the table is unchanged. *)
Lemma handleAction_conserves_before_river t seatIndex a :
stage t <> River ->
tableChips (handleAction BIG_BLIND t seatIndex a) = tableChips t.
Proof.
intros Hst. unfold handleAction, handleAction_outcome.
destruct (seatAt (seats t) seatIndex) as [seat|] eqn:Hseat; [|done].
destruct (folded seat || isAllIn seat); [done|].
destruct (negb _); [done|].
destruct (applyAction BIG_BLIND t seatIndex seat a) as [t1|] eqn:Happ; [|done].
pose proof (applyAction_conserves _ _ _ _ _ Hseat Happ) as Hc.
apply applyAction_frame in Happ as (Hs & _).
assert (Hst1 : stage t1 <> River) by congruence.
destruct (passTurn_frame t1) as [k [-> | [-> | ->]]]; simpl.
- rewrite <- Hc. by apply (advanceStage_conserves t1 0).
- rewrite <- Hc. by apply (advanceStage_conserves t1 k).
- by rewrite <- Hc.
Qed.

End Conservation.

(** ** Side pots *)

(** *** Sorting and de-duplication *)

Lemma insertBy_Permutation {A} (cmp : A -> A -> Z) x l : insertBy cmp x l ≡ₚ x :: l.
Proof.
  induction l as [|y l IH]; simpl; [done|].
  destruct (0 <? cmp x y); [|done]. rewrite IH. apply Permutation_swap.
Qed.

Lemma sortBy_Permutation {A} (cmp : A -> A -> Z) l : sortBy cmp l ≡ₚ l.
Proof.
  induction l as [|x l IH]; simpl; [done|].
  rewrite insertBy_Permutation. by rewrite IH.
Qed.

Lemma setOf_acc_spec (acc l : list Z) :
  NoDup acc ->
  let r := foldl (fun acc x => if bool_decide (x ∈ acc) then acc else acc ++ [x]) acc l in
  NoDup r /\ forall x, x ∈ r <-> x ∈ acc \/ x ∈ l.
Proof.
  revert acc. induction l as [|y l IH]; intros acc Hnd; simpl.
  - split; [done|]. intros x. rewrite elem_of_nil. tauto.
  - case_bool_decide as Hy.
    + destruct (IH acc Hnd) as [H1 H2]. split; [done|].
      intros x. rewrite H2, elem_of_cons. split; [tauto|].
      intros [?|[->|?]]; auto.
    + assert (Hnd' : NoDup (acc ++ [y])).
      { apply NoDup_app. split; [done|]. split; [|apply NoDup_singleton].
        intros x Hx ->%list_elem_of_singleton. done. }
      destruct (IH _ Hnd') as [H1 H2]. split; [done|].
      intros x. rewrite H2, elem_of_app, list_elem_of_singleton, elem_of_cons. tauto.
Qed.

Lemma setOf_NoDup l : NoDup (setOf l).
Proof. apply (setOf_acc_spec [] l). constructor. Qed.

Lemma elem_of_setOf l x : x ∈ setOf l <-> x ∈ l.
Proof.
  destruct (setOf_acc_spec [] l (NoDup_nil_2)) as [_ H]. unfold setOf.
  rewrite H, elem_of_nil. tauto.
Qed.

Lemma insertAsc_sorted x l :
  StronglySorted Z.lt l -> x ∉ l ->
  StronglySorted Z.lt (insertBy (fun a b => a - b) x l).
Proof.
  induction 1 as [|y l Hs IH Hall]; intros Hx; simpl.
  - repeat constructor.
  - apply not_elem_of_cons in Hx as [Hxy Hxl].
    destruct (Z.ltb_spec 0 (x - y)).
    + constructor; [by apply IH|].
      rewrite insertBy_Permutation. constructor; [lia|done].
    + constructor; [by constructor|].
      constructor; [lia|]. eapply Forall_impl; [exact Hall|]. simpl. lia.
Qed.

Lemma sortAsc_sorted l :
  NoDup l -> StronglySorted Z.lt (sortBy (fun a b => a - b) l).
Proof.
  induction 1 as [|x l Hx Hnd IH]; simpl; [constructor|].
  apply insertAsc_sorted; [done|]. by rewrite sortBy_Permutation.
Qed.

Lemma contribLevels_sorted results : StronglySorted Z.lt (contribLevels results).
Proof. apply sortAsc_sorted, setOf_NoDup. Qed.

Lemma elem_of_contribLevels results c :
  c ∈ contribLevels results <-> c ∈ map r_contrib results.
Proof. unfold contribLevels. by rewrite sortBy_Permutation, elem_of_setOf. Qed.

(** *** Telescoping of the pot amounts *)

Lemma topBelow_above prev levels c :
  Forall (Z.lt c) levels -> topBelow prev levels c = prev.
Proof.
  destruct 1 as [|l ls Hl _]; simpl; [done|].
  destruct (Z.leb_spec l c); [lia|done].
Qed.

Lemma topBelow_member prev levels c :
  StronglySorted Z.lt levels -> c ∈ levels -> topBelow prev levels c = c.
Proof.
  intros Hs. revert prev. induction Hs as [|l ls Hs IH Hall]; intros prev Hc.
  - by apply elem_of_nil in Hc.
  - simpl. apply elem_of_cons in Hc as [->|Hc].
    + rewrite Z.leb_refl. by apply topBelow_above.
    + rewrite Forall_forall in Hall. pose proof (Hall _ Hc).
      destruct (Z.leb_spec l c); [|lia]. by apply IH.
Qed.

Lemma sumZ_zero {A} (f : A -> Z) l : (forall x, f x = 0) -> sumZ (map f l) = 0.
Proof. intros H. induction l; simpl; [done|]. rewrite H. lia. Qed.

Lemma level_split results prev l ls :
  Forall (Z.lt l) ls ->
  (l - prev) * Z.of_nat (length (List.filter (fun r => l <=? r_contrib r) results))
  + sumZ (map (fun r => topBelow l ls (r_contrib r) - l) results)
  = sumZ (map (fun r => topBelow prev (l :: ls) (r_contrib r) - prev) results).
Proof.
  intros Hall. induction results as [|r rs IH]; simpl; [lia|].
  simpl in IH. destruct (Z.leb_spec l (r_contrib r)); simpl.
  - rewrite <- IH. lia.
  - rewrite <- IH. rewrite topBelow_above; [lia|].
    eapply Forall_impl; [exact Hall|]. simpl. lia.
Qed.

Lemma potsFrom_sum results prev levels :
  StronglySorted Z.lt levels ->
  sumZ (map amount (potsFrom results prev levels))
  = sumZ (map (fun r => topBelow prev levels (r_contrib r) - prev) results).
Proof.
  intros Hs. revert prev. induction Hs as [|l ls Hs IH Hall]; intros prev.
  - simpl. symmetry. apply sumZ_zero. intros. lia.
  - cbn [potsFrom map sumZ foldr amount]. fold (sumZ (map amount (potsFrom results l ls))).
    rewrite IH, length_map. by apply level_split.
Qed.

Lemma buildPots_sum results :
  sumZ (map amount (buildPots results)) = sumZ (map r_contrib results).
Proof.
  unfold buildPots. rewrite potsFrom_sum by apply contribLevels_sorted.
  f_equal. apply map_ext_in. intros r Hr.
  rewrite topBelow_member; [lia | apply contribLevels_sorted |].
  apply elem_of_contribLevels, list_elem_of_In, in_map, Hr.
Qed.

(** *** Shape of the k-th pot *)

Lemma potsFrom_lookup results prev levels k p :
  potsFrom results prev levels !! k = Some p ->
  exists level,
    levels !! k = Some level /\
    eligibleIndices p
    = map r_idx (List.filter (fun r => level <=? r_contrib r) results) /\
    amount p = (level - match k with O => prev | S k' => default prev (levels !! k') end)
               * Z.of_nat (length (eligibleIndices p)).
Proof.
  revert prev k. induction levels as [|l ls IH]; intros prev k; simpl; [done|].
  destruct k as [|k]; simpl.
  - intros [= <-]. exists l. simpl. done.
  - intros H. destruct (IH _ _ H) as (level & Hl & He & Ha).
    exists level. split; [done|]. split; [done|]. rewrite Ha.
    destruct k as [|k']; simpl; [done|].
    destruct (ls !! k') eqn:E; [done|].
    apply lookup_ge_None in E. apply lookup_lt_Some in Hl. lia.
Qed.

(** *** From seats to results *)

Lemma elem_of_activePlayers ss i s :
  (i, s) ∈ activePlayers ss <-> seatAt ss i = Some s /\ folded s = false.
Proof.
  split; [apply activePlayers_elem|].
  intros [[Hi Hl]%seatAt_Some_lookup Hf]. unfold activePlayers.
  apply list_elem_of_omap. exists (Z.to_nat i, Some s). split.
  - apply elem_of_lookup_imap. eauto.
  - simpl. rewrite Hf. f_equal. f_equal. lia.
Qed.

Lemma buildResults_fields comm ps results :
  buildResults comm ps = Some results ->
  Forall2 (fun p r => r_idx r = p.1 /\ r_contrib r = totalContributed p.2) ps results.
Proof.
  unfold buildResults. intros H%mapM_Some.
  eapply Forall2_impl; [exact H|]. intros [i s] r. simpl.
  destruct (bestHandFromSeven _) as [[[e|] h]|]; try discriminate.
  by intros [= <-].
Qed.

Lemma results_contrib_sum ps results :
  Forall2 (fun p r => r_idx r = p.1 /\ r_contrib r = totalContributed p.2) ps results ->
  sumZ (map r_contrib results) = sumZ (map (fun p => totalContributed p.2) ps).
Proof. induction 1 as [|p r ps rs [_ Hc] _ IH]; simpl; [done|]. by rewrite Hc, IH. Qed.

Lemma results_eligible (ps : list (Z * Seat)) results level :
  Forall2 (fun p r => r_idx r = p.1 /\ r_contrib r = totalContributed p.2) ps results ->
  map r_idx (List.filter (fun r => level <=? r_contrib r) results)
  = map fst (List.filter (fun p => level <=? totalContributed p.2) ps).
Proof.
  induction 1 as [|p r ps rs [Hi Hc] _ IH]; simpl; [done|].
  rewrite Hc. destruct (level <=? totalContributed p.2); simpl; by rewrite ?Hi, IH.
Qed.

(** What [buildPots] builds: the pots add up to the [totalContributed] of
    the seats that have not folded; there is one pot per distinct
    contribution level of those seats; the eligible seats of a pot are the
    unfolded seats whose [totalContributed] reaches its level, and its
    amount is (level - previous level) times their number.  What a folded
    seat put in enters no pot. *)
Lemma side_pots_from_unfolded_contributions
    (t : Table) (results : list Result) :
  buildResults (community t) (activePlayers (seats t)) = Some results ->
  let pots := buildPots results in
  let levels := contribLevels results in
  sumZ (map amount pots) = unfoldedContributions (seats t) /\
  length pots = length levels /\
  forall k p, pots !! k = Some p ->
    exists level,
      levels !! k = Some level /\
      (forall i, i ∈ eligibleIndices p <->
                 exists s, seatAt (seats t) i = Some s /\ folded s = false /\
                           level <= totalContributed s) /\
      amount p = (level - prevLevel levels k) * Z.of_nat (length (eligibleIndices p)).
Proof.
  intros Hres pots levels. apply buildResults_fields in Hres.
  split; [|split].
  - unfold pots. rewrite buildPots_sum. by apply results_contrib_sum.
  - unfold pots, buildPots. fold levels. generalize 0.
    induction levels; intros; simpl; [done|]. by f_equal.
  - intros k p Hk. apply potsFrom_lookup in Hk as (level & Hl & He & Ha).
    exists level. split; [done|]. split.
    + intros i. rewrite He, (results_eligible _ _ _ Hres).
      rewrite list_elem_of_In, in_map_iff. split.
      * intros ([i' s] & <- & [Hin Hle]%filter_In). simpl in *.
        apply list_elem_of_In, elem_of_activePlayers in Hin as [? ?].
        exists s. repeat split; try done. by apply Z.leb_le.
      * intros (s & Hs & Hf & Hle). exists (i, s). split; [done|].
        apply filter_In. split; [|by apply Z.leb_le].
        by apply list_elem_of_In, elem_of_activePlayers.
    + rewrite Ha. unfold prevLevel. by destruct k.
Qed.

(** ** Winners and the odd chip *)

(** *** Ties of [compareEval] *)

Lemma compareEval_loop_zero a b idxs :
  compareEval_loop a b idxs = 0 <-> forall i, In i idxs -> at0 a i = at0 b i.
Proof.
  induction idxs as [|i idxs IH]; simpl; [by split|].
  destruct (Z.ltb_spec (at0 b i) (at0 a i)).
  - split; [done|]. intros H'. specialize (H' i (or_introl eq_refl)). lia.
  - destruct (Z.ltb_spec (at0 a i) (at0 b i)).
    + split; [done|]. intros H'. specialize (H' i (or_introl eq_refl)). lia.
    + rewrite IH. split.
      * intros H' k [<-|?]; [lia|auto].
      * intros H' k ?. auto.
Qed.

Lemma compareEval_zero a b :
  compareEval a b = 0 <-> forall i, at0 a i = at0 b i.
Proof.
  unfold compareEval. rewrite compareEval_loop_zero. split; [|by auto].
  intros H i. destruct (Nat.lt_ge_cases i (Nat.max (length a) (length b))).
  - apply H, in_seq. lia.
  - unfold at0. rewrite !(proj2 (lookup_ge_None _ _)) by lia. done.
Qed.

Lemma compareEval_refl a : compareEval a a = 0.
Proof. by apply compareEval_zero. Qed.

Lemma compareEval_tie_trans a b c :
  compareEval a c = 0 -> compareEval b c = 0 -> compareEval b a = 0.
Proof.
  rewrite !compareEval_zero. intros Ha Hb i. by rewrite Ha, Hb.
Qed.

(** *** Stability of the sort on a class of tied elements *)

Lemma filter_insertBy {A} (cmp : A -> A -> Z) (P : A -> bool) x l :
  (forall y, P x = true -> P y = true -> (0 <? cmp x y) = false) ->
  List.filter P (insertBy cmp x l) = List.filter P (x :: l).
Proof.
  intros Htie. induction l as [|y l IH]; simpl; [done|].
  destruct (0 <? cmp x y) eqn:E; [|done]. simpl. rewrite IH. simpl.
  destruct (P x) eqn:Hx; [|done].
  destruct (P y) eqn:Hy; [|done].
  rewrite Htie in E by done. discriminate.
Qed.

Lemma filter_sortBy {A} (cmp : A -> A -> Z) (P : A -> bool) l :
  (forall x y, P x = true -> P y = true -> (0 <? cmp x y) = false) ->
  List.filter P (sortBy cmp l) = List.filter P l.
Proof.
  intros Htie. induction l as [|x l IH]; simpl; [done|].
  rewrite filter_insertBy by auto. simpl. by rewrite IH.
Qed.

(** The winners of a pot are its eligible results tied with the best one,
    in the order of [results]. *)
Lemma potWinners_order results p :
  exists best,
    potWinners results p
    = map r_idx (List.filter (fun r => compareEval (r_bestEval r) best =? 0)
                   (List.filter (fun r => bool_decide (r_idx r ∈ eligibleIndices p))
                                results)).
Proof.
  unfold potWinners.
  set (elig := List.filter _ results).
  set (best := match sortBy _ elig with r :: _ => r_bestEval r | [] => [] end).
  exists best. f_equal. apply filter_sortBy.
  intros x y Hx%Z.eqb_eq Hy%Z.eqb_eq.
  rewrite (compareEval_tie_trans _ _ _ Hx Hy). reflexivity.
Qed.

Lemma potWinners_nonempty results p r :
  In r results -> r_idx r ∈ eligibleIndices p -> potWinners results p <> [].
Proof.
  intros Hr He. unfold potWinners.
  set (elig := List.filter _ results).
  assert (Hin : In r elig) by (apply filter_In; split; [done | by apply bool_decide_eq_true_2]).
  destruct (sortBy _ elig) as [|b bs] eqn:E.
  - pose proof (sortBy_Permutation (fun a b => compareEval (r_bestEval b) (r_bestEval a)) elig) as Hp.
    rewrite E in Hp. apply Permutation_nil in Hp. by rewrite Hp in Hin.
  - simpl. rewrite compareEval_refl. simpl. done.
Qed.

(** *** Seat order of the results *)

Lemma StronglySorted_map_filter {A} (f : A -> Z) (P : A -> bool) l :
  StronglySorted Z.lt (map f l) -> StronglySorted Z.lt (map f (List.filter P l)).
Proof.
  induction l as [|x l IH]; simpl; [done|].
  intros [Hs Hall]%StronglySorted_inv.
  destruct (P x); simpl; [|auto]. constructor; [auto|].
  rewrite List.Forall_forall in *. intros y [z [<- [Hz _]%filter_In]]%in_map_iff.
  apply Hall. by apply in_map.
Qed.

Lemma activePlayers_from_sorted (ss : list (option Seat)) (n : nat) :
  let l := map fst
             (omap (fun '(i, o) => match o with
                                    | Some s => if folded s then None
                                                else Some (Z.of_nat i, s)
                                    | None => None
                                    end)
                   (imap (fun i (o : option Seat) => ((n + i)%nat, o)) ss)) in
  StronglySorted Z.lt l /\ Forall (fun x => Z.of_nat n <= x) l.
Proof.
  revert n. induction ss as [|o ss IH]; intros n; simpl; [by split; constructor|].
  destruct (IH (S n)) as [Hs Hall].
  rewrite (imap_ext _ (fun i o => ((S n + i)%nat, o))) by (intros; simpl; f_equal; lia).
  assert (Hall' : Forall (fun x => Z.of_nat n <= x)
            (map fst (omap (fun '(i, o) => match o with
                                    | Some s => if folded s then None
                                                else Some (Z.of_nat i, s)
                                    | None => None
                                    end)
                   (imap (fun i (o : option Seat) => ((S n + i)%nat, o)) ss)))).
  { eapply Forall_impl; [exact Hall|]. simpl. lia. }
  destruct o as [s|]; [destruct (folded s)|]; simpl; try by split.
  split.
  - constructor; [done|]. eapply Forall_impl; [exact Hall|]. simpl. lia.
  - constructor; [lia | done].
Qed.

Lemma activePlayers_sorted ss : StronglySorted Z.lt (map fst (activePlayers ss)).
Proof. apply (activePlayers_from_sorted ss 0). Qed.

Lemma results_idx ps results :
  Forall2 (fun (p : Z * Seat) r => r_idx r = p.1 /\ r_contrib r = totalContributed p.2)
          ps results ->
  map r_idx results = map fst ps.
Proof. induction 1 as [|p r ps rs [Hi _] _ IH]; simpl; [done|]. by rewrite Hi, IH. Qed.

(** *** The paying loop *)

Lemma creditSeat_seatAt ss w x i :
  seatAt (creditSeat ss w x) i
  = if decide (i = w) then (fun s => addChips s x) <$> seatAt ss i else seatAt ss i.
Proof.
  unfold creditSeat. destruct (seatAt ss w) as [s|] eqn:Hw.
  - pose proof (seatAt_range _ _ _ Hw). case_decide as Hd.
    + subst. rewrite seatAt_putSeat_eq by done. by rewrite Hw.
    + rewrite seatAt_putSeat_ne by lia. done.
  - case_decide; [subst; by rewrite Hw | done].
Qed.

Lemma creditAll_seatAt ws ss x i :
  NoDup ws ->
  seatAt (foldl (fun acc w => creditSeat acc w x) ss ws) i
  = if decide (i ∈ ws) then (fun s => addChips s x) <$> seatAt ss i else seatAt ss i.
Proof.
  intros Hnd. revert ss. induction Hnd as [|w ws Hw Hnd IH]; intros ss; simpl.
  - done.
  - rewrite IH, creditSeat_seatAt.
    destruct (decide (i = w)) as [->|Hne].
    + rewrite (decide_False (P := w ∈ ws)) by done.
      rewrite (decide_True (P := w ∈ w :: ws)) by left. done.
    + destruct (decide (i ∈ ws)) as [Hin|Hnin].
      * rewrite (decide_True (P := i ∈ w :: ws)) by (by right). done.
      * rewrite (decide_False (P := i ∈ w :: ws)); [done|].
        by intros [?|?]%elem_of_cons.
Qed.

Lemma StronglySorted_lt_NoDup (l : list Z) : StronglySorted Z.lt l -> NoDup l.
Proof.
  induction 1 as [|x l Hs IH Hall]; constructor; [|done].
  intros Hin. rewrite Forall_forall in Hall.
  specialize (Hall _ Hin). lia.
Qed.

Lemma buildPots_winners_nonempty results p :
  p ∈ buildPots results -> potWinners results p <> [].
Proof.
  intros [k Hk]%list_elem_of_lookup_1.
  apply potsFrom_lookup in Hk as (level & Hl & He & _).
  apply list_elem_of_lookup_2, elem_of_contribLevels, list_elem_of_In, in_map_iff in Hl
    as (r & Hc & Hr).
  apply (potWinners_nonempty _ _ r Hr). rewrite He.
  apply list_elem_of_In, in_map, filter_In. split; [done|]. apply Z.leb_le. lia.
Qed.

(** Claim C7, as amended.  For every pot of a showdown the winners are
    listed by increasing seat index; each receives floor(amount / number of
    winners), and the remainder, between 0 and the number of winners minus
    one, goes to the first of the list, the winner with the lowest seat
    index.  Seats outside the list receive nothing from the pot. *)
Theorem odd_chip_goes_to_first_listed_winner
    (t : Table) (results : list Result) (p : Pot) (ws : list Z) :
  buildResults (community t) (activePlayers (seats t)) = Some results ->
  p ∈ buildPots results ->
  ws = potWinners results p ->
  let n := Z.of_nat (length ws) in
  let share := amount p / n in
  let leftover := amount p - share * n in
  exists w0 rest,
    ws = w0 :: rest /\ Forall (fun w => w0 < w) rest /\
    0 <= leftover < n /\
    forall ss : list (option Seat),
      (forall i, seatAt (payPot ss p ws) i
                 = (fun s => addChips s (if decide (i = w0) then share + leftover
                                         else if decide (i ∈ rest) then share
                                         else 0))
                   <$> seatAt ss i).
Proof.
  intros Hres Hp -> n share leftover.
  apply buildResults_fields in Hres.
  (* the winners are listed by increasing seat index *)
  assert (Hsorted : StronglySorted Z.lt (potWinners results p)).
  { destruct (potWinners_order results p) as [best ->].
    do 2 apply StronglySorted_map_filter.
    rewrite (results_idx _ _ Hres). apply activePlayers_sorted. }
  (* and there is at least one *)
  pose proof (buildPots_winners_nonempty _ _ Hp) as Hne.
  pose proof (StronglySorted_lt_NoDup _ Hsorted) as Hnd.
  subst n share leftover. unfold payPot.
  destruct (potWinners results p) as [|w0 rest] eqn:E; [done|].
  apply StronglySorted_inv in Hsorted as [_ Hall].
  exists w0, rest. split; [done|]. split; [done|].
  set (n := Z.of_nat (length (w0 :: rest))).
  assert (Hn : 0 < n) by (unfold n; simpl; lia).
  pose proof (Z.mod_pos_bound (amount p) n Hn) as Hmod.
  pose proof (Z.div_mod (amount p) n ltac:(lia)) as Hdm.
  split; [lia|].
  intros ss i.
  assert (Hw0 : w0 ∉ rest).
  { by apply NoDup_cons in Hnd as [? _]. }
  destruct (Z.ltb_spec 0 (amount p - amount p / n * n));
    rewrite ?creditSeat_seatAt, creditAll_seatAt by done;
    destruct (seatAt ss i) as [s|]; simpl;
    repeat case_decide; subst; simpl; try done;
    try (exfalso;
         match goal with
         | H : ¬ _ ∈ _ :: _ |- _ => apply H; (by left) || (by right)
         | H : _ ∈ _ :: _ |- _ => apply elem_of_cons in H as [?|?]; done
         end);
    f_equal; destruct s; unfold addChips; simpl; f_equal; lia.
Qed.

(** ** What the showdown pays *)





Lemma potWinners_in_results results p w :
  w ∈ potWinners results p -> w ∈ map r_idx results.
Proof.
  destruct (potWinners_order results p) as [best ->].
  rewrite !list_elem_of_In, !in_map_iff.
  intros (r & <- & [[Hr _]%filter_In _]%filter_In). eauto.
Qed.



(** ** The wheel *)

Lemma evaluate5_classify cards :
  evaluate5 cards = classify (map card_r (sortedCards cards)) (flushOf cards).
Proof. reflexivity. Qed.

Lemma insertBy_map_r c l :
  map card_r (insertBy (fun a b => card_r b - card_r a) c l)
  = insertBy (fun a b => b - a) (card_r c) (map card_r l).
Proof.
  induction l as [|y l IH]; simpl; [done|].
  destruct (0 <? card_r y - card_r c); simpl; by rewrite ?IH.
Qed.

Lemma sortedCards_ranks cards :
  map card_r (sortedCards cards) = sortBy (fun a b => b - a) (map card_r cards).
Proof.
  unfold sortedCards. induction cards as [|c cards IH]; simpl; [done|].
  by rewrite insertBy_map_r, IH.
Qed.

Lemma sort_desc_of_permutation (target l : list Z) :
  bool_decide (Forall (fun l' => sortBy (fun a b => b - a) l' = sortBy (fun a b => b - a) target)
                      (permutations target)) = true ->
  l ≡ₚ target -> sortBy (fun a b => b - a) l = sortBy (fun a b => b - a) target.
Proof.
  intros H%bool_decide_eq_true_1 Hp. rewrite Forall_forall in H. apply H.
  apply permutations_Permutation. done.
Qed.

Lemma wheel_ranks l : l ≡ₚ [14;5;4;3;2] -> sortBy (fun a b => b - a) l = [14;5;4;3;2].
Proof. intros H. by rewrite (sort_desc_of_permutation [14;5;4;3;2] l). Qed.

Lemma six_high_ranks l : l ≡ₚ [6;5;4;3;2] -> sortBy (fun a b => b - a) l = [6;5;4;3;2].
Proof. intros H. by rewrite (sort_desc_of_permutation [6;5;4;3;2] l). Qed.

Lemma mixedSuits_no_flush cards : mixedSuits cards -> flushOf cards = false.
Proof.
  intros (c1 & c2 & H1 & H2 & Hne). apply not_true_is_false. intros Hf.
  unfold flushOf in Hf. rewrite forallb_forall in Hf.
  assert (Hall : forall c, c ∈ cards ->
            Some (card_s c) = head (map card_s (sortedCards cards))).
  { intros c Hc. eapply bool_decide_eq_true_1, Hf.
    apply in_map, list_elem_of_In. unfold sortedCards.
    by rewrite sortBy_Permutation. }
  pose proof (Hall _ H1) as E1. pose proof (Hall _ H2) as E2. congruence.
Qed.

Lemma setOf_full (l : list Z) : length (setOf l) = length l -> setOf l ≡ₚ l.
Proof.
  intros Hlen. apply submseteq_length_Permutation; [|lia].
  apply NoDup_submseteq; [apply setOf_NoDup|].
  intros x. by rewrite elem_of_setOf.
Qed.

Lemma straight_shape (ranks : list Z) (fl : bool) (c t : Z) :
  classify ranks fl = [c; t] -> c = 4 \/ c = 8 -> length ranks = 5%nat ->
  ranks ≡ₚ [t; t - 1; t - 2; t - 3; t - 4] \/
  (t = 5 /\ ranks ≡ₚ [14;5;4;3;2]).
Proof.
  intros Hcl Hc Hlen. unfold classify in Hcl.
  set (su := sortBy (fun a b => b - a) (setOf ranks)) in *.
  assert (Hsu : (length su = 5)%nat -> su ≡ₚ ranks).
  { intros H5. unfold su in *. rewrite sortBy_Permutation in *.
    apply setOf_full. lia. }
  set (byCount := sortBy byCountCmp (map_to_list (countRanks ranks))) in *.
  assert (Hstraight :
    (if (length su =? 5)%nat
     then if forallb (fun i => at0 su i - at0 su (i + 1) =? 1) (seq 0 4)
          then (true, at0 su 0)
          else if bool_decide (su = [14;5;4;3;2]) then (true, 5) else (false, 0)
     else (false, 0)) = (true, t)).
  { destruct (if (length su =? 5)%nat then _ else _) as [isS top] eqn:E.
    simpl in Hcl.
    repeat match type of Hcl with
           | (if ?b then _ else _) = _ => destruct b eqn:?
           end;
      try (apply (f_equal (hd 0)) in Hcl; simpl in Hcl; lia);
      try (apply (f_equal (@length Z)) in Hcl; simpl in Hcl; lia).
    all: injection Hcl as _ <-.
    all: repeat match goal with
                | H : _ && _ = true |- _ => apply andb_prop in H as [? ?]
                end; subst; try done. }
  destruct (Nat.eqb_spec (length su) 5) as [H5|]; [|discriminate].
  specialize (Hsu H5).
  destruct (forallb _ (seq 0 4)) eqn:Hcons.
  - injection Hstraight as <-. left. rewrite <- Hsu.
    destruct su as [|a0 [|a1 [|a2 [|a3 [|a4 [|]]]]]]; try discriminate.
    simpl in Hcons. unfold at0 in *. simpl in *.
    repeat (apply andb_prop in Hcons as [?%Z.eqb_eq Hcons]).
    replace a1 with (a0 - 1) by lia. replace a2 with (a0 - 2) by lia.
    replace a3 with (a0 - 3) by lia. replace a4 with (a0 - 4) by lia. done.
  - case_bool_decide as Hw; [|discriminate].
    injection Hstraight as <-. right. split; [done|]. by rewrite <- Hsu, Hw.
Qed.

(** Claim C8.  Five cards of ranks 14, 5, 4, 3, 2 that are not all of one
    suit evaluate to [4; 5]; this compares strictly below the evaluation of
    any five cards of ranks 6, 5, 4, 3, 2; and a five-card hand evaluated as
    a straight or a straight flush of top rank [t] has the ranks
    [t, t-1, t-2, t-3, t-4], except for the wheel with top rank 5. *)
Theorem wheel_is_five_high_straight (w six : list Card) :
  map card_r w ≡ₚ [14;5;4;3;2] ->
  mixedSuits w ->
  map card_r six ≡ₚ [6;5;4;3;2] ->
  evaluate5 w = [4; 5] /\
  compareEval (evaluate5 w) (evaluate5 six) = -1 /\
  forall (cards : list Card) (c t : Z),
    length cards = 5%nat ->
    evaluate5 cards = [c; t] -> c = 4 \/ c = 8 ->
    map card_r cards ≡ₚ [t; t - 1; t - 2; t - 3; t - 4] \/
    (t = 5 /\ map card_r cards ≡ₚ [14;5;4;3;2]).
Proof.
  intros Hw Hmixed Hsix.
  assert (Ew : evaluate5 w = [4; 5]).
  { rewrite evaluate5_classify, sortedCards_ranks, (wheel_ranks _ Hw),
      (mixedSuits_no_flush _ Hmixed). by vm_compute. }
  split; [done|]. split.
  - rewrite Ew, evaluate5_classify, sortedCards_ranks, (six_high_ranks _ Hsix).
    by destruct (flushOf six); vm_compute.
  - intros cards c t Hlen He Hc.
    rewrite evaluate5_classify in He.
    assert (Hp : map card_r (sortedCards cards) ≡ₚ map card_r cards).
    { unfold sortedCards. by rewrite sortBy_Permutation. }
    rewrite <- Hp. eapply straight_shape; [exact He | done |].
    by rewrite Hp, length_map.
Qed.

(** ** Rejected actions and the public view *)

(** Claim C9.  A check by the seat to act whose [currentBet] differs from
    [currentBetToCall], or a raise below max([lastRaiseAmount], BIG_BLIND),
    returns the table with every field of the table and of every seat as it
    was. *)
Theorem illegal_action_leaves_table_unchanged
    (BIG_BLIND : Z) (t : Table) (seatIndex : Z) (seat : Seat) (a : Action) :
  seatAt (seats t) seatIndex = Some seat ->
  currentTurnIndex t = seatIndex ->
  (type_ a = Check /\ currentBet seat <> currentBetToCall t) \/
  (type_ a = Raise /\ default 0 (amount_ a) < Z.max (lastRaiseAmount t) BIG_BLIND) ->
  handleAction BIG_BLIND t seatIndex a = t.
Proof.
  intros Hseat Hturn Hbad.
  unfold handleAction, handleAction_outcome. rewrite Hseat.
  destruct (folded seat || isAllIn seat); [reflexivity|].
  destruct (negb (currentTurnIndex t =? seatIndex)); [reflexivity|].
  unfold applyAction.
  destruct Hbad as [[-> Hne] | [-> Hlt]].
  - apply Z.eqb_neq in Hne. rewrite Hne. reflexivity.
  - apply Z.ltb_lt in Hlt. rewrite Hlt. reflexivity.
Qed.

(** Claim C10.  Two tables that differ only in the [holeCards], [socketId]
    or [reconnectTimeout] of some seats give the same [table_state]
    payload. *)
Theorem public_view_noninterference (T : Z) (t1 t2 : Table) ex :
  differOnlyInPrivate t1 t2 ->
  (broadcastTableState T t1 ex).1 = (broadcastTableState T t2 ex).1.
Proof.
  intros (Hid & _ & Hc & Hp & Hb & Hd & Ht & Hs & Hl & Hseats).
  unfold broadcastTableState, publicState. simpl.
  rewrite Hid, Hc, Hp, Hb, Hd, Ht, Hs, Hl. f_equal.
  induction Hseats as [|o1 o2 l1 l2 Ho _ IH]; [reflexivity|].
  simpl. rewrite IH. f_equal.
  destruct Ho as [s1 s2 (H1 & H2 & H3 & H4 & H5 & H6 & H7)|]; [|reflexivity].
  simpl. unfold publicSeat. by rewrite H1, H2, H3, H4, H5, H6, H7.
Qed.

(** ** Worked hands *)

(** Checking a property of every occupied seat of a given list. *)
Lemma seatAt_forallb (Q : Z -> Seat -> bool) ss :
  forallb (fun '(i, o) => match o with
                          | Some s => Q (Z.of_nat i) s
                          | None => true
                          end)
          (imap (fun i (o : option Seat) => (i, o)) ss) = true ->
  forall i s, seatAt ss i = Some s -> Q i s = true.
Proof.
  intros H i s [Hi Hl]%seatAt_Some_lookup. rewrite forallb_forall in H.
  specialize (H (Z.to_nat i, Some s)). simpl in H.
  rewrite Z2Nat.id in H by done. apply H.
  apply list_elem_of_In, elem_of_lookup_imap. eauto.
Qed.

Lemma allActive_check ss :
  forallb (fun '(i, o) => match o with Some s => active s | None => true end)
          (imap (fun i (o : option Seat) => (i, o)) ss) = true ->
  allActive ss.
Proof. intros H. exact (seatAt_forallb (fun _ s => active s) ss H). Qed.


Lemma twoSeated_check ss d o :
  d <> o ->
  forallb (fun '(i, x) => match x with
                          | Some s => (Z.of_nat i =? d) || (Z.of_nat i =? o)
                          | None => true
                          end)
          (imap (fun i (x : option Seat) => (i, x)) ss) = true ->
  twoSeated ss d o.
Proof.
  intros Hne H. split; [done|]. intros i s Hi.
  pose proof (seatAt_forallb (fun i _ => (i =? d) || (i =? o)) ss H i s Hi) as Hq.
  simpl in Hq. apply orb_prop in Hq as [?%Z.eqb_eq | ?%Z.eqb_eq]; auto.
Qed.

(** C2 on [headsUpStart]: the small blind calls and the street ends. *)
Lemma advance_only_when_bets_match_witness :
  allActive (seats headsUpStart) /\
  handleAction_outcome 2 headsUpStart 1 (mkAction Call None) = Advance headsUpAfterCall /\
  betsMatched headsUpAfterCall.
Proof.
  assert (Ha : allActive (seats headsUpStart)) by (apply allActive_check; reflexivity).
  assert (Ho : handleAction_outcome 2 headsUpStart 1 (mkAction Call None)
               = Advance headsUpAfterCall) by reflexivity.
  split; [exact Ha|]. split; [exact Ho|].
  apply (advance_only_when_bets_match 2 headsUpStart
           (handleAction_outcome 2 headsUpStart 1 (mkAction Call None))
           headsUpAfterCall Ha);
    [left; eexists; eexists; reflexivity | exact Ho].
Defined.

(** C2 as stated fails: after the small blind's call [advanceStage] is
    called and the flop is dealt, although seat 0, the big blind, unfolded
    and not all-in, carries no has-acted mark. *)
Lemma big_blind_skipped_after_small_blind_call :
  handleAction_outcome 2 headsUpStart 1 (mkAction Call None) = Advance headsUpAfterCall /\
  spec_allMarked headsUpAfterCall (spec_marksAfter [] 1 (mkAction Call None)) = false /\
  (folded <$> seatAt (seats headsUpAfterCall) 0) = Some false /\
  (isAllIn <$> seatAt (seats headsUpAfterCall) 0) = Some false /\
  stage (handleAction 2 headsUpStart 1 (mkAction Call None)) = Flop /\
  length (community (handleAction 2 headsUpStart 1 (mkAction Call None))) = 3%nat.
Proof. repeat split; reflexivity. Qed.


(** C5 on [headsUpLobby]: button on seat 0, seat 1 the other seat. *)
Lemma heads_up_blinds_as_coded_witness :
  stage headsUpLobby = Waiting /\
  twoSeated (seats headsUpLobby) 0 1 /\
  (currentBet <$> seatAt (seats headsUpStart) 1) = Some 1 /\
  (currentBet <$> seatAt (seats headsUpStart) 0) = Some 2 /\
  currentTurnIndex headsUpStart = 1.
Proof.
  assert (Ht : twoSeated (seats headsUpLobby) 0 1)
    by (apply twoSeated_check; [lia | reflexivity]).
  split; [reflexivity|]. split; [exact Ht|].
  destruct (heads_up_blinds_as_coded 1 2 2 headsUpLobby fullDeck 0 1
              (default (exampleSeat 0 0 []) (seatAt (seats headsUpLobby) 0))
              (default (exampleSeat 0 0 []) (seatAt (seats headsUpLobby) 1)))
    as (_ & _ & (so' & Hso & Hbo & _) & (sd' & Hsd & Hbd & _) & _ & Hturn & _);
    try reflexivity; try exact Ht; try (apply Z.leb_le; reflexivity).
  fold headsUpStart in Hso, Hsd, Hturn. rewrite Hso, Hsd. simpl.
  rewrite Hbo, Hbd. split; [reflexivity|]. split; [reflexivity|]. exact Hturn.
Defined.

(** C5 as stated fails: the button is on seat 0, which has posted the big
    blind of 2; seat 1 posted the small blind and is first to act. *)
Lemma dealer_posts_the_big_blind_heads_up :
  identities (seats headsUpStart)
  = [Some (Some "alice"%string); Some (Some "bob"%string); None; None; None; None] /\
  dealerIndex headsUpStart = 0 /\
  (currentBet <$> seatAt (seats headsUpStart) 0) = Some 2 /\
  (currentBet <$> seatAt (seats headsUpStart) 1) = Some 1 /\
  currentTurnIndex headsUpStart = 1 /\
  currentTurnIndex headsUpStart <> dealerIndex headsUpStart.
Proof. repeat split; try reflexivity. vm_compute. discriminate. Qed.

(** C6 on a seat asked for twice: the table is empty when bob's message
    is handled; alice is given seat 0 before bob's lookup settles; bob's
    callback then writes seat 0 and alice is seated nowhere. *)
Lemma sit_guards_the_seat_not_the_identity_witness :
  length (seats aliceSeated) = length (seats (newTable 2 "table-1" 6)) /\
  sitGuards (newTable 2 "table-1" 6) (Some "alice"%string) 0 = inr "alice"%string /\
  sitGuards (newTable 2 "table-1" 6) (Some "bob"%string) 0 = inr "bob"%string /\
  (sitSettled 1 2 2 (newTable 2 "table-1" 6) "alice" "sock-a" 0
              (LookupDone false) fullDeck).2 = aliceSeated /\
  identities (seats aliceSeated)
  = [Some (Some "alice"%string); None; None; None; None; None] /\
  let r := sitSettled 1 2 2 aliceSeated "bob" "sock-b" 0 (LookupDone false) fullDeck in
  r.1 = Sat 0 /\
  identities (seats r.2)
  = <[0%nat := Some (Some "bob"%string)]> (identities (seats aliceSeated)) /\
  identities (seats r.2) = [Some (Some "bob"%string); None; None; None; None; None].
Proof.
  assert (Hlen : length (seats aliceSeated) = length (seats (newTable 2 "table-1" 6)))
    by reflexivity.
  split; [exact Hlen|]. split; [reflexivity|]. split; [reflexivity|].
  split; [reflexivity|]. split; [reflexivity|].
  pose proof (sit_guards_the_seat_not_the_identity 1 2 2
                (newTable 2 "table-1" 6) aliceSeated (Some "bob"%string) "sock-b" 0
                (LookupDone false) fullDeck Hlen) as [Hg _].
  change (sitGuards (newTable 2 "table-1" 6) (Some "bob"%string) 0)
    with (@inr SitReply string "bob"%string) in Hg.
  destruct Hg as (_ & _ & _ & _ & _ & _ & Hsat & _ & Hids).
  destruct (Hids (proj2 Hsat eq_refl)) as [Hid _].
  split; [exact (proj2 Hsat eq_refl)|]. split; [exact Hid|]. reflexivity.
Defined.

(** C6 as stated fails: alice holds seat 0, asks for seat 1 and gets
    it. *)
Lemma same_identity_sits_twice :
  let r := sit 1 2 2 aliceSeated (Some "alice"%string) "sock-a2" 1
               (LookupDone false) fullDeck in
  identities (seats aliceSeated)
  = [Some (Some "alice"%string); None; None; None; None; None] /\
  r.1 = Sat 1 /\
  r.2 <> aliceSeated /\
  identities (seats r.2)
  = [Some (Some "alice"%string); Some (Some "alice"%string); None; None; None; None].
Proof.
  repeat split; try reflexivity.
  intros H. apply (f_equal (fun t => identities (seats t) !! 1%nat)) in H.
  vm_compute in H. discriminate.
Qed.

(** Claim C1 (chip conservation), evaluated on the code.  Two players with
    1000 chips each; the small blind (seat 1) folds before the flop and
    seat 0 checks the hand down.  Stacks plus pot are 2000 in the lobby, at
    the start of the hand and on the river, where the pot of 3 holds the
    folded seat's chip.  After [resolveShowdown] the pot is 0 and the stacks
    are 1000 and 999: the folded blind was paid to nobody and one chip has
    left the table. *)
Theorem folded_blind_leaves_the_table :
  tableChips headsUpLobby = 2000 /\
  tableChips headsUpStart = 2000 /\
  tableChips headsUpRiver = 2000 /\
  (folded <$> seatAt (seats headsUpRiver) 1) = Some true /\
  (totalContributed <$> seatAt (seats headsUpRiver) 1) = Some 1 /\
  pot headsUpRiver = 3 /\
  stage headsUpResolved = Waiting /\
  pot headsUpResolved = 0 /\
  map (option_map chips) (seats headsUpResolved)
  = [Some 1000; Some 999; None; None; None; None] /\
  tableChips headsUpResolved = 1999.
Proof. repeat split; reflexivity. Qed.

(** The pots of [split201], where nobody folded. *)
Lemma side_pots_of_split201 :
  buildResults (community split201) (activePlayers (seats split201))
  = Some split201Results /\
  sumZ (map amount (buildPots split201Results)) = unfoldedContributions (seats split201) /\
  length (buildPots split201Results) = length (contribLevels split201Results).
Proof.
  assert (H : buildResults (community split201) (activePlayers (seats split201))
              = Some split201Results) by reflexivity.
  split; [exact H|].
  destruct (side_pots_from_unfolded_contributions split201 split201Results H)
    as (Hsum & Hlen & _).
  split; [exact Hsum | exact Hlen].
Defined.

(** Claim C3 (side-pot correctness), evaluated on the code.  The claim
    sizes the pots from the contributions of all seats, folded ones
    included.  At the showdown of the hand of C1 the seats have put in 3,
    which is the pot the engine has tracked, and the one pot built holds 2:
    the chip of the folded small blind is in no pot.  With side pots it is
    the same: seat 0 all-in for 50, seats 1 and 2 in for 100, seat 3 in for
    20 and folded; the contributions and the tracked pot are 270, the pots
    built are 150 for seats 0, 1, 2 and 100 for seats 1, 2, the 20 of the
    folded seat are in neither, and after [resolveShowdown] the pot is 0
    with 250 paid out.  Eligibility is as the claim has it: no folded seat
    is eligible for a pot. *)
Theorem folded_contributions_are_in_no_pot :
  (buildResults (community headsUpShowdown) (activePlayers (seats headsUpShowdown))
   = Some headsUpShowdownResults /\
   map (option_map folded) (seats headsUpShowdown)
   = [Some false; Some true; None; None; None; None] /\
   map (option_map totalContributed) (seats headsUpShowdown)
   = [Some 2; Some 1; None; None; None; None] /\
   allContributions (seats headsUpShowdown) = 3 /\
   pot headsUpShowdown = 3 /\
   buildPots headsUpShowdownResults = [mkPot 2 [0]] /\
   sumZ (map amount (buildPots headsUpShowdownResults)) = 2 /\
   sumZ (map amount (buildPots headsUpShowdownResults))
   <> allContributions (seats headsUpShowdown)) /\
  (buildResults (community sidePotsWithFold) (activePlayers (seats sidePotsWithFold))
   = Some sidePotsWithFoldResults /\
   map (option_map folded) (seats sidePotsWithFold)
   = [Some false; Some false; Some false; Some true; None; None] /\
   map (option_map totalContributed) (seats sidePotsWithFold)
   = [Some 50; Some 100; Some 100; Some 20; None; None] /\
   allContributions (seats sidePotsWithFold) = 270 /\
   pot sidePotsWithFold = 270 /\
   buildPots sidePotsWithFoldResults = [mkPot 150 [0; 1; 2]; mkPot 100 [1; 2]] /\
   sumZ (map amount (buildPots sidePotsWithFoldResults)) = 250 /\
   sumZ (map amount (buildPots sidePotsWithFoldResults))
   <> allContributions (seats sidePotsWithFold) /\
   pot (resolveShowdown sidePotsWithFold) = 0 /\
   map (option_map chips) (seats sidePotsWithFold)
   = [Some 0; Some 900; Some 900; Some 980; None; None] /\
   map (option_map chips) (seats (resolveShowdown sidePotsWithFold))
   = [Some 0; Some 1150; Some 900; Some 980; None; None]).
Proof.
  split; repeat split; try reflexivity; vm_compute; discriminate.
Qed.

(** C7 on [split201]. *)
Lemma odd_chip_goes_to_first_listed_winner_witness :
  buildResults (community split201) (activePlayers (seats split201))
  = Some split201Results /\
  mkPot 201 [0; 1; 2] ∈ buildPots split201Results /\
  [0; 1] = potWinners split201Results (mkPot 201 [0; 1; 2]) /\
  exists w0 rest,
    [0; 1] = w0 :: rest /\ Forall (fun w => w0 < w) rest /\
    0 <= 201 - 201 / 2 * 2 < 2.
Proof.
  assert (H : buildResults (community split201) (activePlayers (seats split201))
              = Some split201Results) by reflexivity.
  assert (Hp : mkPot 201 [0; 1; 2] ∈ buildPots split201Results)
    by (apply list_elem_of_In; vm_compute; left; reflexivity).
  assert (Hw : [0; 1] = potWinners split201Results (mkPot 201 [0; 1; 2]))
    by reflexivity.
  split; [exact H|]. split; [exact Hp|]. split; [exact Hw|].
  destruct (odd_chip_goes_to_first_listed_winner split201 split201Results
              (mkPot 201 [0; 1; 2]) [0; 1] H Hp Hw)
    as (w0 & rest & Hws & Hall & Hleft & _).
  exists w0, rest. split; [exact Hws|]. split; [exact Hall|]. exact Hleft.
Defined.

(** C7 as stated fails: button on seat 0, winners 0 and 1 of a pot of 201;
    the first winner clockwise after the button is seat 1, and the odd chip
    goes to seat 0 (933 + 101), seat 1 receives 100. *)
Lemma odd_chip_not_to_seat_after_dealer :
  dealerIndex split201 = 0 /\
  buildPots split201Results = [mkPot 201 [0; 1; 2]] /\
  winnersInfo split201 = Some [(0, [0; 1])] /\
  spec_closestAfterDealer split201 [0; 1] = Some 1 /\
  map (option_map chips) (seats split201)
  = [Some 933; Some 933; Some 933; None; None; None] /\
  map (option_map chips) (seats (resolveShowdown split201))
  = [Some 1034; Some 1033; Some 933; None; None; None].
Proof. repeat split; reflexivity. Qed.

(** C8 on a wheel and a six-high straight of mixed suits. *)
Lemma wheel_is_five_high_straight_witness :
  map card_r wheelHand ≡ₚ [14;5;4;3;2] /\
  mixedSuits wheelHand /\
  map card_r sixHighHand ≡ₚ [6;5;4;3;2] /\
  evaluate5 wheelHand = [4; 5] /\
  compareEval (evaluate5 wheelHand) (evaluate5 sixHighHand) = -1.
Proof.
  assert (Hw : map card_r wheelHand ≡ₚ [14;5;4;3;2]) by reflexivity.
  assert (Hm : mixedSuits wheelHand).
  { exists (mkCard 14 suit_s), (mkCard 5 suit_h).
    split; [apply list_elem_of_In; simpl; tauto|].
    split; [apply list_elem_of_In; simpl; tauto | discriminate]. }
  assert (Hs : map card_r sixHighHand ≡ₚ [6;5;4;3;2]) by reflexivity.
  split; [exact Hw|]. split; [exact Hm|]. split; [exact Hs|].
  destruct (wheel_is_five_high_straight wheelHand sixHighHand Hw Hm Hs) as (H1 & H2 & _).
  split; [exact H1 | exact H2].
Defined.

(** C9 on [headsUpStart]: the small blind, one chip short of the bet,
    checks; and raises by 1 under a minimum of 2. *)
Lemma illegal_action_leaves_table_unchanged_witness :
  seatAt (seats headsUpStart) 1 = Some (headsUpSeat 1) /\
  currentTurnIndex headsUpStart = 1 /\
  currentBet (headsUpSeat 1) <> currentBetToCall headsUpStart /\
  handleAction 2 headsUpStart 1 (mkAction Check None) = headsUpStart /\
  handleAction 2 headsUpStart 1 (mkAction Raise (Some 1)) = headsUpStart.
Proof.
  assert (Hne : currentBet (headsUpSeat 1) <> currentBetToCall headsUpStart)
    by (vm_compute; discriminate).
  split; [reflexivity|]. split; [reflexivity|]. split; [exact Hne|]. split.
  - apply (illegal_action_leaves_table_unchanged 2 headsUpStart 1 (headsUpSeat 1)
             (mkAction Check None)); [reflexivity | reflexivity |].
    left. split; [reflexivity | exact Hne].
  - apply (illegal_action_leaves_table_unchanged 2 headsUpStart 1 (headsUpSeat 1)
             (mkAction Raise (Some 1))); [reflexivity | reflexivity |].
    right. split; reflexivity.
Defined.

(** C10 on [headsUpStart] and a copy with other private fields at
    seat 0. *)
Lemma public_view_noninterference_witness :
  differOnlyInPrivate headsUpStart headsUpStartOtherPrivate /\
  (holeCards <$> seatAt (seats headsUpStart) 0)
  <> (holeCards <$> seatAt (seats headsUpStartOtherPrivate) 0) /\
  (broadcastTableState 20000 headsUpStart None).1
  = (broadcastTableState 20000 headsUpStartOtherPrivate None).1.
Proof.
  assert (Hd : differOnlyInPrivate headsUpStart headsUpStartOtherPrivate).
  { repeat split; try reflexivity.
    vm_compute. repeat constructor. }
  split; [exact Hd|]. split; [vm_compute; discriminate|].
  apply (public_view_noninterference 20000 headsUpStart headsUpStartOtherPrivate None Hd).
Defined.

(** ** The walk around the ring *)

Lemma find_first {A} (f : A -> bool) (l : list A) (x : A) :
  List.find f l = Some x ->
  exists l1 l2, l = l1 ++ x :: l2 /\ f x = true /\ forall y, In y l1 -> f y = false.
Proof.
  induction l as [|y l IH]; simpl; [done|].
  destruct (f y) eqn:E.
  - intros [= ->]. exists [], l. by repeat split.
  - intros (l1 & l2 & -> & Hx & Hpre)%IH. exists (y :: l1), l2.
    split; [done|]. split; [done|]. intros z [<-|Hz]; auto.
Qed.

Lemma ringCands_lookup n a (i : nat) :
  (i < n)%nat ->
  ringCands n a !! i = Some (Z.rem (a + Z.of_nat (S i)) (Z.of_nat n)).
Proof.
  intros Hi. unfold ringCands.
  change (map ?f ?l) with (fmap (M := list) f l).
  rewrite list_lookup_fmap, lookup_seq_lt by done. done.
Qed.

Lemma ringFind_nearest want ss a :
  match ringFind want ss a with
  | Some c => nearestAfter want ss a c
  | None => noneAround want ss a
  end.
Proof.
  rewrite ringFind_unfold.
  set (f := fun cand => match seatAt ss cand with Some s => want s | None => false end).
  destruct (List.find f _) as [c|] eqn:E.
  - apply find_first in E as (l1 & l2 & Hl & Hc & Hpre).
    assert (Hlen : (length l1 < length ss)%nat).
    { apply (f_equal (@length Z)) in Hl. unfold ringCands in Hl.
      rewrite length_map, length_seq, length_app in Hl. simpl in Hl. lia. }
    exists (Z.of_nat (S (length l1))). split; [lia|]. split; [|split].
    + pose proof (ringCands_lookup (length ss) a (length l1) Hlen) as Hk.
      rewrite Hl, list_lookup_middle in Hk by done. by injection Hk.
    + unfold f in Hc. destruct (seatAt ss c) as [s|]; [eauto|done].
    + intros k' s Hk' Hs.
      assert (Hin : In (Z.rem (a + k') (Z.of_nat (length ss))) l1).
      { pose proof (ringCands_lookup (length ss) a (Z.to_nat k' - 1) ltac:(lia)) as Hk.
        replace (Z.of_nat (S (Z.to_nat k' - 1))) with k' in Hk by lia.
        rewrite Hl, lookup_app_l in Hk by lia.
        apply list_elem_of_lookup_2 in Hk. by apply list_elem_of_In. }
      specialize (Hpre _ Hin). unfold f in Hpre. by rewrite Hs in Hpre.
  - intros k s Hk Hs.
    pose proof (find_none _ _ E (Z.rem (a + k) (Z.of_nat (length ss)))) as H.
    unfold f in H. rewrite Hs in H. apply H.
    pose proof (ringCands_lookup (length ss) a (Z.to_nat k - 1) ltac:(lia)) as Hl.
    replace (Z.of_nat (S (Z.to_nat k - 1))) with k in Hl by lia.
    apply list_elem_of_lookup_2 in Hl. by apply list_elem_of_In.
Qed.

(** Property X1.  The three walks around the table return the nearest
    seat after the start that qualifies (able to act for
    [nextOccupiedFrom], active for [nextOccupiedForBlinds], active and not
    folded for [findNextAny]), the start itself being tried last; when no
    seat qualifies they return -1, and [nextOccupiedForBlinds] the start. *)
Theorem ring_walks_return_the_nearest_seat (t : Table) (a : Z) :
  (nearestAfter actionable (seats t) a (nextOccupiedFrom t a) \/
   (nextOccupiedFrom t a = -1 /\ noneAround actionable (seats t) a)) /\
  (nearestAfter active (seats t) a (nextOccupiedForBlinds t a) \/
   (nextOccupiedForBlinds t a = a /\ noneAround active (seats t) a)) /\
  (nearestAfter (fun s => active s && negb (folded s)) (seats t) a (findNextAny t a) \/
   (findNextAny t a = -1 /\
    noneAround (fun s => active s && negb (folded s)) (seats t) a)).
Proof.
  unfold nextOccupiedFrom, nextOccupiedForBlinds, findNextAny.
  pose proof (ringFind_nearest actionable (seats t) a) as H1.
  pose proof (ringFind_nearest active (seats t) a) as H2.
  pose proof (ringFind_nearest (fun s => active s && negb (folded s)) (seats t) a) as H3.
  destruct (ringFind actionable _ _), (ringFind active _ _),
    (ringFind (fun s => active s && negb (folded s)) _ _); simpl; auto.
Qed.

(** ** The deck and its shuffle *)

Lemma swapAt_Permutation {A} (a : list A) i j : swapAt a i j ≡ₚ a.
Proof.
  unfold swapAt. destruct (a !! i) as [x|] eqn:Hi; [|done].
  destruct (a !! j) as [y|] eqn:Hj; [|done].
  by apply Permutation_insert_swap.
Qed.

Lemma shuffle_loop_Permutation {A} draws i (a : list A) : shuffle_loop draws i a ≡ₚ a.
Proof.
  revert a. induction i as [|i IH]; intros a; simpl; [done|].
  by rewrite IH, swapAt_Permutation.
Qed.

Lemma fullDeck_NoDup : NoDup fullDeck.
Proof. apply (bool_decide_unpack _). by vm_compute. Qed.

(** Property X2.  Whatever the random draws, [shuffle] returns a
    rearrangement of its argument: the same elements, each as many times,
    and as many of them. *)
Theorem shuffle_is_a_permutation {A} (draws : nat -> nat) (arr : list A) :
  validDraws draws ->
  shuffle draws arr ≡ₚ arr /\ length (shuffle draws arr) = length arr.
Proof.
  intros _.
  assert (H : shuffle draws arr ≡ₚ arr) by apply shuffle_loop_Permutation.
  split; [done | by rewrite H].
Qed.

Lemma shuffle_is_a_permutation_witness :
  shuffle (fun i => Nat.div2 i) [1; 2; 3; 4; 5] ≡ₚ [1; 2; 3; 4; 5] /\
  length (shuffle (fun i => Nat.div2 i) [1; 2; 3; 4; 5]) = 5%nat.
Proof.
  apply (shuffle_is_a_permutation (fun i => Nat.div2 i) [1; 2; 3; 4; 5]).
  intros i. apply Nat.div2_decr. lia.
Defined.

(** Property X3.  The deck a hand is dealt from, [shuffle(fullDeck())],
    holds 52 cards, no card twice, and exactly the cards of ranks 2 to 14 in
    the four suits. *)
Theorem shuffled_deck_has_52_distinct_cards (draws : nat -> nat) :
  validDraws draws ->
  NoDup (shuffle draws fullDeck) /\ length (shuffle draws fullDeck) = 52%nat /\
  forall r s, mkCard r s ∈ shuffle draws fullDeck <-> 2 <= r <= 14.
Proof.
  intros _.
  assert (Hp : shuffle draws fullDeck ≡ₚ fullDeck) by apply shuffle_loop_Permutation.
  split; [rewrite Hp; apply fullDeck_NoDup|]. split; [by rewrite Hp|].
  intros r s. rewrite Hp. unfold fullDeck.
  rewrite list_elem_of_In, in_flat_map. split.
  - intros (r' & Hr' & Hin). apply in_map_iff in Hin as (s' & [= <- <-] & _).
    unfold RANKS in Hr'. simpl in Hr'. lia.
  - intros Hr. exists r. split.
    + unfold RANKS. simpl.
      assert (r = 2 \/ r = 3 \/ r = 4 \/ r = 5 \/ r = 6 \/ r = 7 \/ r = 8 \/ r = 9 \/
              r = 10 \/ r = 11 \/ r = 12 \/ r = 13 \/ r = 14) by lia.
      intuition auto.
    + apply in_map_iff. exists s. split; [done|]. destruct s; simpl; auto.
Qed.

Lemma shuffled_deck_has_52_distinct_cards_witness :
  NoDup (shuffle (fun i => Nat.div2 i) fullDeck) /\
  length (shuffle (fun i => Nat.div2 i) fullDeck) = 52%nat /\
  forall r s, mkCard r s ∈ shuffle (fun i => Nat.div2 i) fullDeck <-> 2 <= r <= 14.
Proof.
  apply (shuffled_deck_has_52_distinct_cards (fun i => Nat.div2 i)).
  intros i. apply Nat.div2_decr. lia.
Defined.

(** ** [combinations] *)

Lemma combinations_0 {A} (arr : list A) : combinations arr 0 = [[]].
Proof. by destruct arr. Qed.

Lemma elem_of_combinations {A} (arr : list A) (k : nat) (l : list A) :
  l ∈ combinations arr k <-> l `sublist_of` arr /\ length l = k.
Proof.
  revert k l. induction arr as [|x rest IH]; intros k l.
  - destruct k as [|k]; simpl.
    + rewrite list_elem_of_singleton, sublist_nil_r. split; [by intros ->|by intros [-> _]].
    + rewrite elem_of_nil, sublist_nil_r. split; [done|]. by intros [-> ?].
  - destruct k as [|k].
    + rewrite combinations_0, list_elem_of_singleton. split.
      * intros ->. split; [apply sublist_nil_l | done].
      * intros [_ Hl]. by destruct l.
    + cbn [combinations]. rewrite elem_of_app, sublist_cons_r.
      change (map (cons x)) with (fmap (M:=list) (cons x)).
      rewrite list_elem_of_fmap. setoid_rewrite IH. split.
      * intros [(l' & -> & Hs & Hl) | [Hs Hl]].
        -- split; [right; eauto | simpl; lia].
        -- split; [by left | done].
      * intros [[Hs | (l' & -> & Hs)] Hl].
        -- right. done.
        -- left. exists l'. simpl in Hl. split; [done|]. split; [done|lia].
Qed.

(** Property X4.  [combinations(arr, k)] lists exactly the selections of
    [k] elements of [arr] that keep the order of [arr]. *)
Theorem combinations_are_the_sublists {A} (arr : list A) (k : nat) (l : list A) :
  l ∈ combinations arr k <-> l `sublist_of` arr /\ length l = k.
Proof. apply elem_of_combinations. Qed.

Lemma combinations_short {A} (arr : list A) (k : nat) :
  (length arr < k)%nat -> combinations arr k = [].
Proof.
  intros Hlt. destruct (combinations arr k) as [|l ls] eqn:E; [done|].
  assert (Hin : l ∈ combinations arr k) by (rewrite E; left).
  apply elem_of_combinations in Hin as [Hs <-].
  apply sublist_length in Hs. lia.
Qed.

Lemma combinations_fmap {A B} (f : A -> B) (arr : list A) (k : nat) :
  combinations (map f arr) k = map (map f) (combinations arr k).
Proof.
  revert k. induction arr as [|x rest IH]; intros k; destruct k as [|k]; simpl; try done.
  rewrite map_app, !map_map, !IH, map_map. done.
Qed.

(** ** The order of [compareEval] *)

Lemma compareEval_loop_neg a b idxs :
  compareEval_loop a b idxs = -1 <->
  exists k pre post, idxs = pre ++ k :: post /\
                     (forall i, In i pre -> at0 a i = at0 b i) /\ at0 a k < at0 b k.
Proof.
  induction idxs as [|i idxs IH]; simpl.
  - split; [done|]. intros (k & pre & post & H & _). by destruct pre.
  - destruct (Z.ltb_spec (at0 b i) (at0 a i)) as [Hlt|Hge].
    + split; [done|]. intros (k & [|p pre] & post & [= ? ?] & Hpre & Hk); subst; [lia|].
      specialize (Hpre p (or_introl eq_refl)). lia.
    + destruct (Z.ltb_spec (at0 a i) (at0 b i)) as [Hlt'|Hge'].
      * split; [|done]. intros _. exists i, [], idxs. by repeat split.
      * rewrite IH. split.
        -- intros (k & pre & post & -> & Hpre & Hk). exists k, (i :: pre), post.
           split; [done|]. split; [|done]. intros j [<-|?]; [lia|auto].
        -- intros (k & [|p pre] & post & [= ? ?] & Hpre & Hk); subst; [lia|].
           exists k, pre, post. split; [done|]. split; [|done]. intros j ?. apply Hpre. by right.
Qed.

Lemma at0_beyond (a : list Z) i : (length a <= i)%nat -> at0 a i = 0.
Proof. intros H. unfold at0. by rewrite (proj2 (lookup_ge_None _ _)). Qed.

(** [compareEval a b] is -1 exactly when the arrays, read with missing
    entries as 0, first differ at a position where [a] is smaller. *)
Lemma compareEval_neg a b :
  compareEval a b = -1 <->
  exists k : nat, (forall i, (i < k)%nat -> at0 a i = at0 b i) /\ at0 a k < at0 b k.
Proof.
  unfold compareEval. rewrite compareEval_loop_neg. split.
  - intros (k & pre & post & Hseq & Hpre & Hk). exists k. split; [|done].
    intros i Hi. apply Hpre.
    assert (Hlen : length pre = k).
    { pose proof (f_equal (fun l => l !! length pre) Hseq) as E. simpl in E.
      rewrite list_lookup_middle in E by done.
      apply lookup_seq in E as [E _]. simpl in E. lia. }
    assert (Hi' : seq 0 (Nat.max (length a) (length b)) !! i = Some i).
    { apply lookup_seq. split; [done|].
      pose proof (f_equal (@length nat) Hseq) as E.
      rewrite length_seq, length_app in E. simpl in E. lia. }
    rewrite Hseq, lookup_app_l in Hi' by lia.
    apply list_elem_of_In. by eapply list_elem_of_lookup_2.
  - intros (k & Heq & Hk).
    assert (Hkm : (k < Nat.max (length a) (length b))%nat).
    { destruct (Nat.lt_ge_cases k (Nat.max (length a) (length b))); [done|].
      rewrite !at0_beyond in Hk by lia. lia. }
    exists k, (seq 0 k), (seq (S k) (Nat.max (length a) (length b) - S k)).
    split; [|split; [|done]].
    + replace (Nat.max (length a) (length b))
        with (k + S (Nat.max (length a) (length b) - S k))%nat at 1 by lia.
      rewrite seq_app. simpl. done.
    + intros i Hi%in_seq. apply Heq. lia.
Qed.

Lemma compareEval_loop_flip a b idxs :
  compareEval_loop b a idxs = - compareEval_loop a b idxs.
Proof.
  induction idxs as [|i idxs IH]; simpl; [done|].
  destruct (Z.ltb_spec (at0 a i) (at0 b i)), (Z.ltb_spec (at0 b i) (at0 a i));
    try lia; done.
Qed.

Lemma compareEval_flip a b : compareEval b a = - compareEval a b.
Proof.
  unfold compareEval. rewrite (Nat.max_comm (length b)). apply compareEval_loop_flip.
Qed.

Lemma compareEval_loop_range a b idxs :
  compareEval_loop a b idxs = -1 \/ compareEval_loop a b idxs = 0 \/
  compareEval_loop a b idxs = 1.
Proof.
  induction idxs as [|i idxs IH]; simpl; [auto|].
  destruct (_ <? _); [auto|]. destruct (_ <? _); auto.
Qed.

Lemma compareEval_range a b :
  compareEval a b = -1 \/ compareEval a b = 0 \/ compareEval a b = 1.
Proof. apply compareEval_loop_range. Qed.

Lemma compareEval_le_trans a b c :
  compareEval a b <= 0 -> compareEval b c <= 0 -> compareEval a c <= 0.
Proof.
  intros Hab Hbc.
  destruct (compareEval_range a b) as [Hab'|[Hab'|Hab']]; [| |lia];
  destruct (compareEval_range b c) as [Hbc'|[Hbc'|Hbc']]; try lia.
  - apply compareEval_neg in Hab' as (k1 & E1 & L1).
    apply compareEval_neg in Hbc' as (k2 & E2 & L2).
    assert (compareEval a c = -1); [|lia].
    apply compareEval_neg. exists (Nat.min k1 k2). split.
    + intros i Hi. rewrite E1, E2 by lia. done.
    + destruct (Nat.lt_trichotomy k1 k2) as [H|[H|H]].
      * rewrite Nat.min_l by lia. rewrite <- E2 by lia. done.
      * subst. rewrite Nat.min_id. lia.
      * rewrite Nat.min_r by lia. rewrite E1 by lia. done.
  - apply compareEval_neg in Hab' as (k1 & E1 & L1).
    pose proof (proj1 (compareEval_zero b c) Hbc') as E.
    assert (compareEval a c = -1); [|lia].
    apply compareEval_neg. exists k1. split; [intros; rewrite <- E; auto | by rewrite <- E].
  - pose proof (proj1 (compareEval_zero a b) Hab') as E.
    apply compareEval_neg in Hbc' as (k2 & E2 & L2).
    assert (compareEval a c = -1); [|lia].
    apply compareEval_neg. exists k2. split; [intros; rewrite E; auto | by rewrite E].
  - pose proof (proj1 (compareEval_zero a b) Hab') as E1.
    pose proof (proj1 (compareEval_zero b c) Hbc') as E2.
    assert (compareEval a c = 0); [|lia].
    apply compareEval_zero. intros i. by rewrite E1, E2.
Qed.

(** Property X5.  [compareEval] is a three-way comparison that orders
    evaluations totally: it returns -1, 0 or 1, swapping the arguments
    negates the result, an evaluation ties with itself, "not above" is
    transitive, and tied evaluations compare alike with any third. *)
Theorem compareEval_is_a_total_preorder (a b c : list Z) :
  (compareEval a b = -1 \/ compareEval a b = 0 \/ compareEval a b = 1) /\
  compareEval b a = - compareEval a b /\
  compareEval a a = 0 /\
  (compareEval a b <= 0 -> compareEval b c <= 0 -> compareEval a c <= 0) /\
  (compareEval a b = 0 -> compareEval a c = compareEval b c).
Proof.
  split; [apply compareEval_range|]. split; [apply compareEval_flip|].
  split; [apply compareEval_refl|]. split; [apply compareEval_le_trans|].
  intros Hab.
  assert (Hba : compareEval b a = 0) by (rewrite compareEval_flip; lia).
  assert (H1 : compareEval a c <= 0 <-> compareEval b c <= 0).
  { split; intros H; eapply compareEval_le_trans; eauto; lia. }
  assert (H2 : compareEval c a <= 0 <-> compareEval c b <= 0).
  { split; intros H; eapply compareEval_le_trans; eauto; lia. }
  rewrite (compareEval_flip a c), (compareEval_flip b c) in H2.
  destruct (compareEval_range a c) as [?|[?|?]], (compareEval_range b c) as [?|[?|?]]; lia.
Qed.

(** ** [bestHandFromSeven] *)

Lemma bestHandFromSeven_fold cards7 :
  bestHandFromSeven cards7 = foldl keepBest (Some (None, [])) (combinations cards7 5).
Proof. reflexivity. Qed.

Lemma mapM_id_Some {A} (l : list A) : mapM Datatypes.id (map Some l) = Some l.
Proof. apply mapM_Some_2. induction l; simpl; constructor; auto. Qed.

Lemma mapM_id_None {A} (l : list (option A)) : None ∈ l -> mapM Datatypes.id l = None.
Proof.
  intros Hin. destruct (mapM Datatypes.id l) as [k|] eqn:E; [|done].
  apply mapM_Some_1 in E. exfalso. induction E as [|x y l k Hx _ IH].
  - by apply elem_of_nil in Hin.
  - apply elem_of_cons in Hin as [<-|Hin]; [discriminate | auto].
Qed.

Lemma keepBest_step be0 bh0 (h : list Card) :
  keepBest (Some (be0, bh0)) (map Some h)
  = match be0 with
    | None => Some (Some (evaluate5 h), h)
    | Some be => if 0 <? compareEval (evaluate5 h) be then Some (Some (evaluate5 h), h)
                 else Some (be0, bh0)
    end.
Proof. unfold keepBest. by rewrite mapM_id_Some. Qed.

Lemma keepBest_skip acc (h : list (option Card)) :
  None ∈ h -> keepBest acc h = None.
Proof. intros Hn. unfold keepBest. rewrite (mapM_id_None _ Hn). by destruct acc as [[? ?]|]. Qed.

Lemma keepBest_throws hs : foldl keepBest None hs = None.
Proof. induction hs; simpl; auto. Qed.

Lemma keepBest_undefined acc hs h :
  h ∈ hs -> None ∈ h -> foldl keepBest acc hs = None.
Proof.
  revert acc. induction hs as [|h0 hs IH]; intros acc Hin Hn.
  - by apply elem_of_nil in Hin.
  - cbn [foldl]. apply elem_of_cons in Hin as [<-|Hin]; [|by apply IH].
    rewrite (keepBest_skip _ _ Hn). apply keepBest_throws.
Qed.

Lemma keepBest_defined (hs : list (list Card)) be0 bh0 :
  exists be bh,
    foldl keepBest (Some (be0, bh0)) (map (map Some) hs) = Some (be, bh) /\
    match be with
    | None => be0 = None /\ hs = [] /\ bh = bh0
    | Some e =>
        ((be0 = Some e /\ bh = bh0) \/ (bh ∈ hs /\ e = evaluate5 bh)) /\
        (forall e0, be0 = Some e0 -> compareEval e0 e <= 0) /\
        (forall h, h ∈ hs -> compareEval (evaluate5 h) e <= 0)
    end.
Proof.
  revert be0 bh0. induction hs as [|h hs IH]; intros be0 bh0.
  - exists be0, bh0. split; [done|]. destruct be0 as [e|]; [|done].
    split; [by left|]. split.
    + intros e0 [= <-]. rewrite compareEval_refl. lia.
    + intros h Hh. by apply elem_of_nil in Hh.
  - cbn [foldl map]. rewrite keepBest_step.
    destruct be0 as [b|].
    + destruct (Z.ltb_spec 0 (compareEval (evaluate5 h) b)) as [Hgt|Hle].
      * destruct (IH (Some (evaluate5 h)) h) as (be & bh & -> & Hspec).
        exists be, bh. split; [done|]. destruct be as [e|]; [|by destruct Hspec].
        destruct Hspec as (Hwho & Hold & Hall).
        assert (Hhe : compareEval (evaluate5 h) e <= 0) by auto.
        split; [|split].
        -- right. destruct Hwho as [[[= <-] ->] | [Hin ->]]; split; auto; (by left) || (by right).
        -- intros e0 [= <-]. apply compareEval_le_trans with (evaluate5 h); [|done].
           rewrite compareEval_flip. lia.
        -- intros h' [->|Hin]%elem_of_cons; auto.
      * destruct (IH (Some b) bh0) as (be & bh & -> & Hspec).
        exists be, bh. split; [done|]. destruct be as [e|]; [|by destruct Hspec].
        destruct Hspec as (Hwho & Hold & Hall).
        assert (Hbe : compareEval b e <= 0) by auto.
        split; [|split].
        -- destruct Hwho as [[[= <-] ->] | [Hin ->]]; [by left | right; split; auto; by right].
        -- intros e0 [= <-]. done.
        -- intros h' [->|Hin]%elem_of_cons; auto.
           by apply compareEval_le_trans with b.
    + destruct (IH (Some (evaluate5 h)) h) as (be & bh & -> & Hspec).
      exists be, bh. split; [done|]. destruct be as [e|]; [|by destruct Hspec].
      destruct Hspec as (Hwho & Hold & Hall).
      split; [|split].
      * right. destruct Hwho as [[[= <-] ->] | [Hin ->]]; split; auto; (by left) || (by right).
      * intros e0 [=].
      * intros h' [->|Hin]%elem_of_cons; auto.
Qed.

Lemma sublist_with_member {A} (l : list A) (x : A) (k : nat) :
  x ∈ l -> (S k <= length l)%nat ->
  exists h, h `sublist_of` l /\ length h = S k /\ x ∈ h.
Proof.
  intros (l1 & l2 & ->)%list_elem_of_split Hlen.
  rewrite length_app in Hlen. simpl in Hlen.
  exists (take (Nat.min k (length l1)) l1 ++ x :: take (k - Nat.min k (length l1)) l2).
  split; [|split].
  - apply sublist_app; [apply sublist_take|]. apply sublist_skip, sublist_take.
  - rewrite length_app. simpl. rewrite !length_take. lia.
  - apply elem_of_app. right. left.
Qed.

(** Property X6.  With fewer than five cards [bestHandFromSeven] returns
    no evaluation and an empty hand; with an [undefined] card among five or
    more it raises; otherwise it returns five of the cards, in their order,
    with their evaluation, and no five of the cards evaluate higher. *)
Theorem bestHandFromSeven_picks_a_best_five (cards7 : list (option Card)) :
  ((length cards7 < 5)%nat -> bestHandFromSeven cards7 = Some (None, [])) /\
  ((5 <= length cards7)%nat -> None ∈ cards7 -> bestHandFromSeven cards7 = None) /\
  (forall cs : list Card,
      cards7 = map Some cs -> (5 <= length cs)%nat ->
      exists e h,
        bestHandFromSeven cards7 = Some (Some e, h) /\
        h `sublist_of` cs /\ length h = 5%nat /\ e = evaluate5 h /\
        forall h', h' `sublist_of` cs -> length h' = 5%nat ->
                   compareEval (evaluate5 h') e <= 0).
Proof.
  rewrite bestHandFromSeven_fold. split; [|split].
  - intros Hlt. by rewrite combinations_short.
  - intros Hlen Hn.
    destruct (sublist_with_member cards7 None 4 Hn Hlen) as (h & Hs & Hl & Hin).
    apply keepBest_undefined with h; [|done].
    by apply elem_of_combinations.
  - intros cs -> Hlen. rewrite combinations_fmap.
    destruct (keepBest_defined (combinations cs 5) None []) as (be & bh & -> & Hspec).
    destruct be as [e|].
    + destruct Hspec as ([[[=] _] | [Hin ->]] & _ & Hall).
      apply elem_of_combinations in Hin as [Hs Hl].
      exists (evaluate5 bh), bh. repeat split; try done.
      intros h' Hs' Hl'. apply Hall. by apply elem_of_combinations.
    + destruct Hspec as (_ & Hnil & _). exfalso.
      assert (Hin : take 5 cs ∈ combinations cs 5).
      { apply elem_of_combinations. split; [apply sublist_take|].
        rewrite length_take. lia. }
      rewrite Hnil in Hin. by apply elem_of_nil in Hin.
Qed.

(** ** [evaluate5] does not depend on the order of the cards *)

Lemma insertDesc_sorted x l :
  StronglySorted Z.ge l -> StronglySorted Z.ge (insertBy (fun a b => b - a) x l).
Proof.
  induction 1 as [|y l Hs IH Hall]; simpl; [repeat constructor|].
  destruct (Z.ltb_spec 0 (y - x)).
  - constructor; [done|]. rewrite insertBy_Permutation. constructor; [lia|done].
  - constructor; [by constructor|]. constructor; [lia|].
    eapply Forall_impl; [exact Hall|]. simpl. lia.
Qed.

Lemma sortDesc_sorted l : StronglySorted Z.ge (sortBy (fun a b => b - a) l).
Proof. induction l; simpl; [constructor | by apply insertDesc_sorted]. Qed.

Lemma sorted_desc_unique (l1 l2 : list Z) :
  StronglySorted Z.ge l1 -> StronglySorted Z.ge l2 -> l1 ≡ₚ l2 -> l1 = l2.
Proof.
  intros H1. revert l2. induction H1 as [|x l1 Hs1 IH Hall1]; intros l2 H2 Hp.
  - by apply Permutation_nil in Hp.
  - destruct H2 as [|y l2 Hs2 Hall2]; [by apply Permutation_nil_r in Hp|].
    rewrite Forall_forall in Hall1, Hall2.
    assert (x = y) as ->.
    { assert (Hx : x ∈ y :: l2) by (rewrite <- Hp; left).
      assert (Hy : y ∈ x :: l1) by (rewrite Hp; left).
      apply elem_of_cons in Hx as [?|Hx]; [done|].
      apply elem_of_cons in Hy as [?|Hy]; [done|].
      specialize (Hall1 _ Hy). specialize (Hall2 _ Hx). lia. }
    f_equal. apply IH; [done|]. by apply Permutation_cons_inv in Hp.
Qed.

Lemma sortDesc_Permutation l1 l2 :
  l1 ≡ₚ l2 -> sortBy (fun a b => b - a) l1 = sortBy (fun a b => b - a) l2.
Proof.
  intros Hp. apply sorted_desc_unique; try apply sortDesc_sorted.
  by rewrite !sortBy_Permutation.
Qed.

Lemma flushOf_spec cards :
  flushOf cards = true <-> forall c1 c2, c1 ∈ cards -> c2 ∈ cards -> card_s c1 = card_s c2.
Proof.
  split.
  - intros Hf c1 c2 H1 H2.
    destruct (decide (card_s c1 = card_s c2)) as [|Hne]; [done|].
    rewrite mixedSuits_no_flush in Hf; [done|]. by exists c1, c2.
  - intros Hall. unfold flushOf. apply forallb_forall. intros s Hs.
    apply bool_decide_eq_true_2.
    assert (Hperm : sortedCards cards ≡ₚ cards) by apply sortBy_Permutation.
    apply in_map_iff in Hs as (c & <- & Hc).
    destruct (sortedCards cards) as [|c0 rest] eqn:E; [done|]. simpl. f_equal.
    apply Hall; rewrite <- Hperm; [by apply list_elem_of_In | left].
Qed.

(** Property X7.  [evaluate5] does not depend on the order in which the
    cards are given. *)
Theorem evaluate5_ignores_card_order (cards cards' : list Card) :
  cards ≡ₚ cards' -> evaluate5 cards = evaluate5 cards'.
Proof.
  intros Hp. rewrite !evaluate5_classify, !sortedCards_ranks. f_equal.
  - apply sortDesc_Permutation. by rewrite Hp.
  - apply eq_true_iff_eq. rewrite !flushOf_spec. by setoid_rewrite Hp.
Qed.

Lemma evaluate5_ignores_card_order_witness :
  evaluate5 fourNines = evaluate5 fourNinesSorted.
Proof.
  apply (evaluate5_ignores_card_order fourNines fourNinesSorted).
  unfold fourNines, fourNinesSorted.
  apply Permutation_skip.
  exact (Permutation_cons_append [mkCard 9 suit_h; mkCard 9 suit_d; mkCard 9 suit_c]
                                 (mkCard 14 suit_d)).
Defined.

(** ** The counts of [evaluate5] *)

Lemma occurrences_cons r x rs :
  occurrences r (x :: rs) = (if r =? x then 1 else 0) + occurrences r rs.
Proof. unfold occurrences. simpl. destruct (r =? x); simpl length; lia. Qed.

Lemma occurrences_nonneg r rs : 0 <= occurrences r rs.
Proof. unfold occurrences. lia. Qed.

Lemma countRanks_acc (m : gmap Z Z) rs r :
  foldl (fun counts x => <[x := default 0 (counts !! x) + 1]> counts) m rs !! r
  = if occurrences r rs =? 0 then m !! r
    else Some (default 0 (m !! r) + occurrences r rs).
Proof.
  revert m. induction rs as [|x rs IH]; intros m; [done|].
  simpl foldl. rewrite IH, occurrences_cons.
  pose proof (occurrences_nonneg r rs) as Hn.
  destruct (Z.eqb_spec r x) as [->|Hne].
  - rewrite lookup_insert_eq. simpl.
    destruct (Z.eqb_spec (occurrences x rs) 0) as [->|];
      destruct (Z.eqb_spec (1 + occurrences x rs) 0); try lia; f_equal; lia.
  - rewrite lookup_insert_ne by done. by rewrite Z.add_0_l.
Qed.

Lemma countRanks_lookup rs r :
  countRanks rs !! r
  = if occurrences r rs =? 0 then None else Some (occurrences r rs).
Proof.
  unfold countRanks. rewrite countRanks_acc, lookup_empty. simpl.
  destruct (_ =? _); done.
Qed.

Lemma occurrences_elem r rs : r ∈ rs <-> occurrences r rs <> 0.
Proof.
  induction rs as [|x rs IH].
  - split; [by intros ?%elem_of_nil | done].
  - rewrite elem_of_cons, occurrences_cons. pose proof (occurrences_nonneg r rs).
    destruct (Z.eqb_spec r x); [split; [lia | by left]|].
    rewrite IH, Z.add_0_l. split; [by intros [?|?] | by right].
Qed.

Lemma occurrences_Permutation r rs rs' :
  rs ≡ₚ rs' -> occurrences r rs = occurrences r rs'.
Proof.
  intros Hp. induction Hp; rewrite ?occurrences_cons; lia.
Qed.

Lemma setOf_Permutation rs rs' : rs ≡ₚ rs' -> setOf rs ≡ₚ setOf rs'.
Proof.
  intros Hp. apply NoDup_Permutation; try apply setOf_NoDup.
  intros x. by rewrite !elem_of_setOf, Hp.
Qed.

Lemma rankEntries_Permutation rs rs' : rs ≡ₚ rs' -> rankEntries rs ≡ₚ rankEntries rs'.
Proof.
  intros Hp. unfold rankEntries. rewrite (setOf_Permutation _ _ Hp).
  erewrite map_ext; [reflexivity|]. intros r. simpl.
  by rewrite (occurrences_Permutation r _ _ Hp).
Qed.

Lemma map_to_list_countRanks rs : map_to_list (countRanks rs) ≡ₚ rankEntries rs.
Proof.
  apply NoDup_Permutation.
  - apply NoDup_map_to_list.
  - unfold rankEntries. apply NoDup_fmap_2; [|apply setOf_NoDup].
    by intros x y [= ->].
  - intros [r c]. rewrite elem_of_map_to_list, countRanks_lookup.
    unfold rankEntries. rewrite list_elem_of_fmap. setoid_rewrite elem_of_setOf.
    pose proof (occurrences_elem r rs) as He.
    destruct (Z.eqb_spec (occurrences r rs) 0) as [E|E]; split.
    + done.
    + intros (r' & [= -> ->] & Hin). by apply occurrences_elem in Hin.
    + intros [= <-]. exists r. split; [done|]. by apply He.
    + by intros (r' & [= -> ->] & _).
Qed.

(** ** Sorting with a total order *)

Section SortUnique.
Context {A : Type} (cmp : A -> A -> Z).
Hypothesis cmp_flip : forall a b, 0 < cmp a b -> cmp b a <= 0.
Hypothesis cmp_trans : forall a b c, cmp a b <= 0 -> cmp b c <= 0 -> cmp a c <= 0.
Hypothesis cmp_antisym : forall a b, cmp a b <= 0 -> cmp b a <= 0 -> a = b.

Lemma insertBy_sorted x l :
  StronglySorted (fun a b => cmp a b <= 0) l ->
  StronglySorted (fun a b => cmp a b <= 0) (insertBy cmp x l).
Proof.
  induction 1 as [|y l Hs IH Hall]; simpl; [repeat constructor|].
  destruct (Z.ltb_spec 0 (cmp x y)).
  - constructor; [done|]. rewrite insertBy_Permutation. constructor; [by apply cmp_flip|done].
  - constructor; [by constructor|]. constructor; [done|].
    eapply Forall_impl; [exact Hall|]. simpl. intros z Hz. by apply (cmp_trans _ y).
Qed.

Lemma sortBy_sorted l : StronglySorted (fun a b => cmp a b <= 0) (sortBy cmp l).
Proof. induction l; simpl; [constructor | by apply insertBy_sorted]. Qed.

Lemma sorted_unique (l1 l2 : list A) :
  StronglySorted (fun a b => cmp a b <= 0) l1 ->
  StronglySorted (fun a b => cmp a b <= 0) l2 ->
  l1 ≡ₚ l2 -> l1 = l2.
Proof.
  intros H1. revert l2. induction H1 as [|x l1 Hs1 IH Hall1]; intros l2 H2 Hp.
  - by apply Permutation_nil in Hp.
  - destruct H2 as [|y l2 Hs2 Hall2]; [by apply Permutation_nil_r in Hp|].
    rewrite Forall_forall in Hall1, Hall2.
    assert (x = y) as ->.
    { assert (Hx : x ∈ y :: l2) by (rewrite <- Hp; left).
      assert (Hy : y ∈ x :: l1) by (rewrite Hp; left).
      apply elem_of_cons in Hx as [?|Hx]; [done|].
      apply elem_of_cons in Hy as [?|Hy]; [done|].
      apply cmp_antisym; [by apply Hall1 | by apply Hall2]. }
    f_equal. apply IH; [done|]. by apply Permutation_cons_inv in Hp.
Qed.

Lemma sortBy_of_Permutation l1 l2 : l1 ≡ₚ l2 -> sortBy cmp l1 = sortBy cmp l2.
Proof.
  intros Hp. apply sorted_unique; try apply sortBy_sorted.
  by rewrite !sortBy_Permutation.
Qed.
End SortUnique.

Lemma byCount_of_Permutation l1 l2 :
  l1 ≡ₚ l2 -> sortBy byCountCmp l1 = sortBy byCountCmp l2.
Proof.
  apply sortBy_of_Permutation; unfold byCountCmp.
  - intros [r1 c1] [r2 c2]. simpl.
    destruct (Z.eqb_spec c2 c1), (Z.eqb_spec c1 c2); simpl; lia.
  - intros [r1 c1] [r2 c2] [r3 c3]. simpl.
    destruct (Z.eqb_spec c2 c1), (Z.eqb_spec c3 c2), (Z.eqb_spec c3 c1); simpl; lia.
  - intros [r1 c1] [r2 c2]. simpl.
    destruct (Z.eqb_spec c2 c1), (Z.eqb_spec c1 c2); simpl; try lia.
    intros. f_equal; lia.
Qed.

Lemma setOf_acc_existsb (acc l : list Z) :
  foldl (fun acc x => if bool_decide (x ∈ acc) then acc else acc ++ [x]) acc l
  = foldl (fun acc x => if existsb (Z.eqb x) acc then acc else acc ++ [x]) acc l.
Proof.
  revert acc. induction l as [|x l IH]; intros acc; simpl; [done|].
  rewrite IH. assert (bool_decide (x ∈ acc) = existsb (Z.eqb x) acc) as ->; [|done].
  destruct (existsb (Z.eqb x) acc) eqn:E.
  - apply bool_decide_eq_true_2. apply existsb_exists in E as (y & Hy & ->%Z.eqb_eq).
    by apply list_elem_of_In.
  - apply bool_decide_eq_false_2. intros Hin%list_elem_of_In.
    assert (existsb (Z.eqb x) acc = true); [|congruence].
    apply existsb_exists. exists x. split; [done | apply Z.eqb_refl].
Qed.

Lemma setOf_existsb l :
  setOf l = foldl (fun acc x => if existsb (Z.eqb x) acc then acc else acc ++ [x]) [] l.
Proof. apply setOf_acc_existsb. Qed.

Lemma classify_verdict ranks fl :
  classify ranks fl
  = verdict ranks (sortBy (fun a b => b - a) (setOf ranks))
            (sortBy byCountCmp (map_to_list (countRanks ranks))) fl.
Proof. reflexivity. Qed.

(** [evaluate5] through the pattern of the ranks. *)
Lemma evaluate5_verdict cards P :
  map card_r cards ≡ₚ P ->
  evaluate5 cards
  = verdict (sortBy (fun a b => b - a) P) (sortBy (fun a b => b - a) (setOf P))
            (sortBy byCountCmp (rankEntries P)) (flushOf cards).
Proof.
  intros Hp. rewrite evaluate5_classify, sortedCards_ranks, classify_verdict.
  assert (Hs : sortBy (fun a b => b - a) (map card_r cards) ≡ₚ P)
    by (by rewrite sortBy_Permutation).
  f_equal.
  - by apply sortDesc_Permutation.
  - by apply sortDesc_Permutation, setOf_Permutation.
  - apply byCount_of_Permutation. rewrite map_to_list_countRanks.
    by apply rankEntries_Permutation.
Qed.

(** ** The counts of a pattern *)

Lemma rankEntries_keys P : map fst (rankEntries P) = setOf P.
Proof. unfold rankEntries. rewrite map_map. simpl. apply map_id. Qed.

Lemma rankEntries_eq P (L : list (Z * Z)) :
  NoDup (map fst L) ->
  Forall (fun e => e.2 = occurrences e.1 P /\ e.2 <> 0) L ->
  Forall (fun r => In r (map fst L)) P ->
  rankEntries P ≡ₚ L.
Proof.
  intros Hnd HL HP. rewrite List.Forall_forall in HL, HP.
  apply NoDup_Permutation.
  - unfold rankEntries. apply NoDup_fmap_2; [|apply setOf_NoDup]. by intros x y [= ->].
  - by apply NoDup_fmap_1 in Hnd.
  - intros [r c]. unfold rankEntries. rewrite list_elem_of_fmap.
    setoid_rewrite elem_of_setOf. split.
    + intros (r' & [= -> ->] & Hin). apply list_elem_of_In, HP, in_map_iff in Hin
        as ([r2 c2] & Hr & Hin). simpl in Hr. subst r2.
      destruct (HL _ Hin) as [Hc _]. simpl in Hc. rewrite <- Hc. by apply list_elem_of_In.
    + intros Hin%list_elem_of_In. destruct (HL _ Hin) as [Hc Hnz]. simpl in *.
      exists r. split; [by rewrite Hc|]. apply occurrences_elem. by rewrite <- Hc.
Qed.

Lemma byCount_eq P (L : list (Z * Z)) :
  NoDup (map fst L) ->
  Forall (fun e => e.2 = occurrences e.1 P /\ e.2 <> 0) L ->
  Forall (fun r => In r (map fst L)) P ->
  StronglySorted (fun a b => byCountCmp a b <= 0) L ->
  sortBy byCountCmp (rankEntries P) = L /\
  length (sortBy (fun a b => b - a) (setOf P)) = length L.
Proof.
  intros Hnd HL HP Hs.
  pose proof (rankEntries_eq P L Hnd HL HP) as Hperm. split.
  - rewrite (byCount_of_Permutation _ _ Hperm).
    revert Hs. generalize L. clear. intros L Hs. induction Hs as [|x l Hs IH Hall]; [done|].
    simpl. change (foldr (insertBy byCountCmp) [] l) with (sortBy byCountCmp l).
    rewrite IH. destruct l as [|y l]; [done|]. simpl.
    apply Forall_cons in Hall as [Hxy _].
    destruct (Z.ltb_spec 0 (byCountCmp x y)); [lia|done].
  - rewrite sortBy_Permutation, <- rankEntries_keys, length_map.
    by rewrite Hperm.
Qed.

Lemma occurrences_nil r : occurrences r [] = 0.
Proof. done. Qed.

Lemma setOf_acc_NoDup (acc l : list Z) :
  NoDup (acc ++ l) ->
  foldl (fun acc x => if bool_decide (x ∈ acc) then acc else acc ++ [x]) acc l = acc ++ l.
Proof.
  revert acc. induction l as [|x l IH]; intros acc Hnd; simpl; [by rewrite app_nil_r|].
  rewrite bool_decide_eq_false_2.
  - rewrite IH; [by rewrite <- app_assoc|]. by rewrite <- app_assoc.
  - apply NoDup_app in Hnd as (_ & Hdis & _). intros Hin. apply (Hdis _ Hin). left.
Qed.

Lemma setOf_NoDup_id (l : list Z) : NoDup l -> setOf l = l.
Proof. intros H. by apply (setOf_acc_NoDup [] l). Qed.

Lemma sortDesc_sorted_id (l : list Z) :
  StronglySorted Z.ge l -> sortBy (fun a b => b - a) l = l.
Proof.
  intros H. apply sorted_desc_unique; [apply sortDesc_sorted | done |].
  apply sortBy_Permutation.
Qed.

Ltac split_eqb :=
  repeat match goal with
         | |- context [Z.eqb ?x ?y] =>
             destruct (Z.eqb_spec x y); cbv beta iota; try lia
         end.

Ltac pattern_counts :=
  apply byCount_eq;
  [ simpl; repeat (apply NoDup_cons; split;
                   [rewrite ?elem_of_cons, ?elem_of_nil; lia|]); apply NoDup_nil_2
  | rewrite ?Forall_cons, Forall_nil; simpl;
    rewrite ?occurrences_cons, ?occurrences_nil; split_eqb
  | rewrite ?Forall_cons, Forall_nil; simpl; tauto
  | repeat (apply SSorted_cons; [|rewrite ?Forall_cons, Forall_nil;
                                  unfold byCountCmp; simpl; lia]);
    apply SSorted_nil ].

(** Property X8.  [evaluate5] ranks a hand by the pattern of its ranks:
    four of a kind 7, full house 6, flush 5, straight 4 (8 with a flush),
    three of a kind 3, two pair 2, one pair 1, high card 0, followed by the
    ranks that break ties: the set and the pairs first, then the kickers
    from high to low; ace to five counts as a straight topped by the five. *)
Theorem evaluate5_ranks_every_pattern (cards : list Card) (p : Pattern) :
  wellFormed p ->
  map card_r cards ≡ₚ patternRanks p ->
  evaluate5 cards = patternValue p (flushOf cards).
Proof.
  intros Hwf Hp. rewrite (evaluate5_verdict _ _ Hp). unfold verdict.
  destruct p as [a b|a b|a b c|a b c|a b c d|a b c d e]; simpl in Hwf;
    simpl patternRanks.
  - assert (H : sortBy byCountCmp (rankEntries [a;a;a;a;b]) = [(a,4);(b,1)] /\
                length (sortBy (fun x y => y - x) (setOf [a;a;a;a;b]))
                = length [(a,4);(b,1)]) by pattern_counts.
    destruct H as [-> ->]. by destruct (flushOf cards).
  - assert (H : sortBy byCountCmp (rankEntries [a;a;a;b;b]) = [(a,3);(b,2)] /\
                length (sortBy (fun x y => y - x) (setOf [a;a;a;b;b]))
                = length [(a,3);(b,2)]) by pattern_counts.
    destruct H as [-> ->]. by destruct (flushOf cards).
  - assert (H : sortBy byCountCmp (rankEntries [a;a;a;b;c]) = [(a,3);(b,1);(c,1)] /\
                length (sortBy (fun x y => y - x) (setOf [a;a;a;b;c]))
                = length [(a,3);(b,1);(c,1)]) by pattern_counts.
    destruct H as [-> ->]. by destruct (flushOf cards).
  - assert (H : sortBy byCountCmp (rankEntries [a;a;b;b;c]) = [(a,2);(b,2);(c,1)] /\
                length (sortBy (fun x y => y - x) (setOf [a;a;b;b;c]))
                = length [(a,2);(b,2);(c,1)]) by pattern_counts.
    destruct H as [-> ->]. by destruct (flushOf cards).
  - assert (H : sortBy byCountCmp (rankEntries [a;a;b;c;d])
                = [(a,2);(b,1);(c,1);(d,1)] /\
                length (sortBy (fun x y => y - x) (setOf [a;a;b;c;d]))
                = length [(a,2);(b,1);(c,1);(d,1)]) by pattern_counts.
    destruct H as [-> ->]. by destruct (flushOf cards).
  - assert (H : sortBy byCountCmp (rankEntries [a;b;c;d;e])
                = [(a,1);(b,1);(c,1);(d,1);(e,1)] /\
                length (sortBy (fun x y => y - x) (setOf [a;b;c;d;e]))
                = length [(a,1);(b,1);(c,1);(d,1);(e,1)]) by pattern_counts.
    destruct H as [-> _].
    rewrite setOf_NoDup_id, sortDesc_sorted_id.
    2: { repeat constructor; lia. }
    2: { repeat (apply NoDup_cons; split;
                 [rewrite ?elem_of_cons, ?elem_of_nil; lia|]). apply NoDup_nil_2. }
    unfold at0. cbn -[Z.sub Z.eqb].
    destruct (Z.eqb_spec (a - b) 1), (Z.eqb_spec (b - c) 1), (Z.eqb_spec (c - d) 1),
      (Z.eqb_spec (d - e) 1), (Z.eqb_spec (a - e) 4); try lia;
      cbn -[Z.sub Z.eqb]; try (by destruct (flushOf cards)).
    all: destruct (bool_decide_reflect ([a; b; c; d; e] = [14; 5; 4; 3; 2])) as [E|E];
      [injection E as -> -> -> -> ->; by destruct (flushOf cards)|].
    all: destruct (Z.eqb_spec a 14), (Z.eqb_spec b 5), (Z.eqb_spec e 2);
      cbn -[Z.sub Z.eqb]; try (by destruct (flushOf cards)).
    all: exfalso; apply E; repeat f_equal; lia.
Qed.

Lemma evaluate5_ranks_every_pattern_witness : evaluate5 fourNines = [7; 9; 14].
Proof.
  apply (evaluate5_ranks_every_pattern fourNines (FourOfAKind 9 14)).
  - simpl. lia.
  - unfold fourNines. simpl. apply Permutation_skip.
    exact (Permutation_cons_append [9; 9; 9] 14).
Defined.

(** ** Turns and halts *)

Section Invariants.
Variable BIG_BLIND : Z.

Lemma step_stuck t e : turnCannotAct t -> step BIG_BLIND t e = t.
Proof.
  unfold turnCannotAct. intros Hstuck. destruct e as [i a|]; simpl.
  - unfold handleAction, handleAction_outcome.
    destruct (seatAt (seats t) i) as [seat|] eqn:Hseat; [|done].
    destruct (folded seat || isAllIn seat) eqn:Hf; [done|].
    destruct (Z.eqb_spec (currentTurnIndex t) i) as [Ht|]; [|done].
    rewrite Ht, Hseat, Hf in Hstuck. discriminate.
  - unfold actionTimeout, actionTimeout_outcome.
    destruct (seatAt (seats t) (currentTurnIndex t)) as [seat|]; [|done].
    apply orb_prop in Hstuck as [-> | ->]; simpl; [done|]. by rewrite andb_false_r.
Qed.

Lemma run_stuck t es : turnCannotAct t -> run BIG_BLIND t es = t.
Proof.
  intros Hstuck. unfold run. induction es as [|e es IH]; simpl; [done|].
  by rewrite step_stuck.
Qed.

(** Property X9.  When the seat whose turn it is is empty, folded or
    all-in, no action message and no expiry of the action timer changes
    the table, however many of them arrive. *)
Theorem no_event_moves_a_table_whose_turn_cannot_act (t : Table) (es : list Event) :
  turnCannotAct t -> run BIG_BLIND t es = t.
Proof. apply run_stuck. Qed.

Lemma actionable_at_next t startIdx :
  nextOccupiedFrom t startIdx <> -1 ->
  exists s, seatAt (seats t) (nextOccupiedFrom t startIdx) = Some s /\ actionable s = true.
Proof.
  unfold nextOccupiedFrom. destruct (ringFind actionable (seats t) startIdx) as [c|] eqn:E.
  - intros _. by apply ringFind_Some in E.
  - done.
Qed.

Lemma passTurn_Continue t t' :
  allActive (seats t) ->
  0 <= currentTurnIndex t < Z.of_nat (length (seats t)) ->
  passTurn t = Continue t' ->
  seats t' = seats t /\ isBettingRoundComplete t' = false /\
  exists s, seatAt (seats t') (currentTurnIndex t') = Some s /\ actionable s = true.
Proof.
  intros Hact Hr. unfold passTurn.
  destruct (Z.eqb_spec (nextOccupiedFrom t (currentTurnIndex t)) (-1)) as [E|E].
  - by rewrite (no_actionable_complete _ _ Hact Hr E).
  - rewrite isBettingRoundComplete_withTurn.
    destruct (isBettingRoundComplete t) eqn:Hc; [done|]. intros [= <-].
    split; [done|]. split; [done|]. simpl. by apply actionable_at_next.
Qed.

(** Property X10.  When an action or a timeout passes the turn on, the
    betting round is not complete and the seat that receives the turn is
    active, has not folded and is not all-in. *)
Theorem turn_passes_to_a_seat_that_can_act (t : Table) (o : Outcome) (t' : Table) :
  allActive (seats t) ->
  (exists seatIndex a, o = handleAction_outcome BIG_BLIND t seatIndex a) \/
  o = actionTimeout_outcome t ->
  o = Continue t' ->
  isBettingRoundComplete t' = false /\
  exists s, seatAt (seats t') (currentTurnIndex t') = Some s /\
            active s = true /\ folded s = false /\ isAllIn s = false.
Proof.
  intros Hact Ho ->.
  assert (Hgoal : isBettingRoundComplete t' = false /\
            exists s, seatAt (seats t') (currentTurnIndex t') = Some s /\ actionable s = true).
  { destruct Ho as [(seatIndex & a & Ho) | Ho].
    - unfold handleAction_outcome in Ho.
      destruct (seatAt (seats t) seatIndex) as [seat|] eqn:Hseat; [|done].
      destruct (folded seat || isAllIn seat); [done|].
      destruct (Z.eqb_spec (currentTurnIndex t) seatIndex) as [Ht|]; [|done].
      simpl in Ho.
      destruct (applyAction BIG_BLIND t seatIndex seat a) as [t1|] eqn:Happ; [|done].
      destruct (applyAction_allActive _ _ _ _ _ _ Hact Hseat Happ) as [Hact1 Hlen].
      apply applyAction_frame in Happ as (_ & _ & _ & _ & Hturn & _).
      symmetry in Ho. apply passTurn_Continue in Ho as (_ & ? & ?); [done|done|].
      rewrite Hturn, Hlen, Ht. by eapply seatAt_range.
    - unfold actionTimeout_outcome in Ho.
      destruct (seatAt (seats t) (currentTurnIndex t)) as [seat|] eqn:Hseat; [|done].
      destruct (negb (folded seat) && negb (isAllIn seat)); [|done].
      set (t1 := withSeats t _) in *.
      destruct (isBettingRoundComplete t1) eqn:Hc; [done|].
      destruct (Z.eqb_spec (nextOccupiedFrom t1 (currentTurnIndex t)) (-1)) as [E|E]; [done|].
      injection Ho as ->. split; [done|]. simpl. by apply actionable_at_next in E. }
  destruct Hgoal as [Hc (s & Hs & Ha)]. split; [done|]. exists s. split; [done|].
  unfold actionable in Ha.
  apply andb_prop in Ha as [[? ?%negb_true_iff]%andb_prop ?%negb_true_iff]. done.
Qed.

(** Property X11.  After the flop, the turn or the river is dealt the turn
    is on a seat that can act; or every seat is folded or all-in, the turn
    is left on the dealer's seat and no action or timeout changes the table
    any more: the remaining streets are not dealt and the pot is not
    paid. *)
Theorem new_street_turn_or_halt (t : Table) :
  allActive (seats t) ->
  0 <= dealerIndex t < Z.of_nat (length (seats t)) ->
  stage t = Preflop \/ stage t = Flop \/ stage t = Turn ->
  let t' := advanceStage BIG_BLIND t in
  (exists s, seatAt (seats t') (currentTurnIndex t') = Some s /\ actionable s = true) \/
  ((forall i s, seatAt (seats t') i = Some s -> folded s || isAllIn s = true) /\
   currentTurnIndex t' = dealerIndex t /\
   forall es, run BIG_BLIND t' es = t').
Proof.
  intros Hact Hd Hst t'.
  assert (Hseats : seats t' = map (option_map clearBet) (seats t)).
  { subst t'. unfold advanceStage. by destruct Hst as [-> | [-> | ->]]. }
  assert (Hturn : currentTurnIndex t' =
                  if nextOccupiedFrom t' (dealerIndex t) =? -1 then dealerIndex t
                  else nextOccupiedFrom t' (dealerIndex t)).
  { subst t'. unfold advanceStage. by destruct Hst as [-> | [-> | ->]]. }
  destruct (Z.eqb_spec (nextOccupiedFrom t' (dealerIndex t)) (-1)) as [E|E].
  - right.
    assert (Hact' : allActive (seats t')).
    { intros i s Hi. rewrite Hseats, seatAt_fmap in Hi.
      destruct (seatAt (seats t) i) eqn:Hi0; [|done]. injection Hi as <-. simpl. eauto. }
    assert (Hnone : forall i s, seatAt (seats t') i = Some s -> folded s || isAllIn s = true).
    { intros i s Hi. apply nextOccupiedFrom_none in E.
      assert (Hr : 0 <= dealerIndex t < Z.of_nat (length (seats t')))
        by (by rewrite Hseats, length_map).
      pose proof (ringFind_None _ _ _ Hr E _ _ Hi) as Hn.
      unfold actionable in Hn. rewrite (Hact' _ _ Hi) in Hn. simpl in Hn.
      destruct (folded s), (isAllIn s); done. }
    split; [done|]. split; [done|].
    intros es. apply run_stuck.
    unfold turnCannotAct.
    destruct (seatAt (seats t') (currentTurnIndex t')) as [s|] eqn:Hs; [eauto|done].
  - left. rewrite Hturn. by apply actionable_at_next.
Qed.

End Invariants.

(** ** The start of a hand *)

Lemma allContributions_putSeat ss i s s' :
  seatAt ss i = Some s ->
  allContributions (putSeat ss i s')
  = allContributions ss - totalContributed s + totalContributed s'.
Proof.
  intros [_ Hl]%seatAt_Some_lookup. unfold putSeat, allContributions.
  by rewrite (sumZ_insert _ _ _ _ _ Hl).
Qed.

Lemma allContributions_fmap (f : Seat -> Seat) ss :
  (forall s, totalContributed (f s) = totalContributed s) ->
  allContributions (map (option_map f) ss) = allContributions ss.
Proof.
  intros Hf. unfold allContributions. induction ss as [|[s|] ss IH]; simpl; rewrite ?Hf; lia.
Qed.

Lemma stacks_fmap (f : Seat -> Seat) ss :
  (forall s, chips (f s) = chips s) ->
  sumZ (map seatChips (map (option_map f) ss)) = sumZ (map seatChips ss).
Proof. intros Hf. induction ss as [|[s|] ss IH]; simpl; rewrite ?Hf; lia. Qed.

Lemma allContributions_reset ss :
  allContributions (map (option_map resetSeat) ss) = 0.
Proof. unfold allContributions. induction ss as [|[s|] ss IH]; simpl; lia. Qed.

Lemma dealRound_money ss d :
  allContributions (dealRound ss d).1 = allContributions ss /\
  sumZ (map seatChips (dealRound ss d).1) = sumZ (map seatChips ss).
Proof.
  unfold allContributions. revert d.
  induction ss as [|[s|] ss IH]; intros d; simpl; [done| |].
  - specialize (IH (removelast d)). destruct (dealRound ss (removelast d)). simpl in *. lia.
  - specialize (IH d). destruct (dealRound ss d). simpl in *. lia.
Qed.

Lemma popDeck_cards (d : list Card) :
  omap (fun c => c) [ (popDeck d).1 ] ++ (popDeck d).2 ≡ₚ d.
Proof.
  unfold popDeck. simpl. destruct (last d) as [x|] eqn:E.
  - apply last_Some in E as [l' ->]. simpl.
    rewrite removelast_last. by rewrite Permutation_cons_append.
  - apply last_None in E as ->. done.
Qed.

Lemma holeCardsOf_cons_push s c ss :
  omap (fun c => c) (holeCardsOf (Some (pushHole s c) :: ss))
  ≡ₚ omap (fun c => c) [c] ++ omap (fun c => c) (holeCardsOf (Some s :: ss)).
Proof.
  unfold holeCardsOf. simpl. rewrite !omap_app. simpl.
  destruct c as [c|]; simpl; [|by rewrite app_nil_r].
  rewrite <- app_assoc. simpl. by rewrite <- Permutation_middle.
Qed.

Lemma dealRound_cards ss d :
  omap (fun c => c) (holeCardsOf (dealRound ss d).1) ++ (dealRound ss d).2
  ≡ₚ omap (fun c => c) (holeCardsOf ss) ++ d.
Proof.
  revert d. induction ss as [|[s|] ss IH]; intros d; [done| |].
  - specialize (IH (removelast d)). cbn [dealRound popDeck].
    destruct (dealRound ss (removelast d)) as [rest' d'] eqn:E. cbn [fst snd] in *.
    rewrite holeCardsOf_cons_push.
    change (holeCardsOf (Some s :: rest')) with (holeCards s ++ holeCardsOf rest').
    change (holeCardsOf (Some s :: ss)) with (holeCards s ++ holeCardsOf ss).
    rewrite !omap_app, <- !app_assoc, IH.
    etrans; [|apply Permutation_app_head, Permutation_app_head, (popDeck_cards d)].
    unfold popDeck. cbn [fst snd].
    rewrite !app_assoc. f_equiv. rewrite <- app_assoc. apply Permutation_app_comm.
  - specialize (IH d). cbn [dealRound].
    destruct (dealRound ss d) as [rest' d'] eqn:E. exact IH.
Qed.

Lemma dealRound_hole_length ss d i s' :
  seatAt (dealRound ss d).1 i = Some s' ->
  exists s, seatAt ss i = Some s /\ length (holeCards s') = S (length (holeCards s)).
Proof.
  intros Hi. pose proof (dealRound_seatAt ss d i) as H.
  destruct (seatAt ss i) as [s|]; [|congruence].
  destruct H as [c Hc]. rewrite Hc in Hi. injection Hi as <-.
  exists s. split; [done|]. simpl. rewrite length_app. simpl. lia.
Qed.

Lemma holeCardsOf_putSeat ss i s s' :
  seatAt ss i = Some s -> holeCards s' = holeCards s ->
  holeCardsOf (putSeat ss i s') = holeCardsOf ss.
Proof.
  intros [_ Hl]%seatAt_Some_lookup Hh. unfold putSeat, holeCardsOf.
  revert Hl. generalize (Z.to_nat i). clear i.
  induction ss as [|o ss IH]; intros k Hk; [done|].
  destruct k as [|k]; simpl in *.
  - injection Hk as ->. by rewrite Hh.
  - by rewrite (IH _ Hk).
Qed.

Lemma holeCardsOf_fmap (f : Seat -> Seat) ss :
  (forall s, holeCards (f s) = holeCards s) ->
  holeCardsOf (map (option_map f) ss) = holeCardsOf ss.
Proof.
  intros Hf. unfold holeCardsOf. induction ss as [|[s|] ss IH]; simpl; by rewrite ?Hf, ?IH.
Qed.

Lemma holeCardsOf_reset ss : holeCardsOf (map (option_map resetSeat) ss) = [].
Proof. unfold holeCardsOf. induction ss as [|[s|] ss IH]; simpl; done. Qed.

Section Accounts.
Variables SMALL_BLIND BIG_BLIND MIN_PLAYERS_TO_START : Z.

(** The table after the reset and the two dealing rounds, and after the
    blinds: the facts all later statements about a started hand rest on. *)
Lemma start_shape t shuffled :
  stage t = Waiting -> MIN_PLAYERS_TO_START <= readyPlayerCount t ->
  let t' := startHandIfReady SMALL_BLIND BIG_BLIND MIN_PLAYERS_TO_START t shuffled in
  stage t' = Preflop /\ community t' = [] /\
  pot t' = allContributions (seats t') /\
  sumZ (map seatChips (seats t')) + pot t' = sumZ (map seatChips (seats t)) /\
  cardsOf t' ≡ₚ shuffled /\
  (forall i s', seatAt (seats t') i = Some s' -> length (holeCards s') = 2%nat) /\
  dealerIndex t' = Z.rem (dealerIndex t + 1) (Z.of_nat (length (seats t))).
Proof.
  intros Hst Hmin. unfold startHandIfReady. rewrite Hst. simpl.
  destruct (Z.ltb_spec (readyPlayerCount t) MIN_PLAYERS_TO_START); [lia|].
  set (ss0 := map (option_map resetSeat) (seats t)).
  pose proof (dealRound_money ss0 shuffled) as [Hc1 Hs1].
  pose proof (dealRound_cards ss0 shuffled) as Hk1.
  pose proof (fun i s' => dealRound_hole_length ss0 shuffled i s') as Hh1.
  destruct (dealRound ss0 shuffled) as [ss1 d1]. simpl in Hc1, Hs1, Hk1, Hh1.
  pose proof (dealRound_money ss1 d1) as [Hc2 Hs2].
  pose proof (dealRound_cards ss1 d1) as Hk2.
  pose proof (fun i s' => dealRound_hole_length ss1 d1 i s') as Hh2.
  destruct (dealRound ss1 d1) as [ss2 d2]. simpl in Hc2, Hs2, Hk2, Hh2.
  assert (Hc : allContributions ss2 = 0).
  { rewrite Hc2, Hc1. apply allContributions_reset. }
  assert (Hs : sumZ (map seatChips ss2) = sumZ (map seatChips (seats t))).
  { rewrite Hs2, Hs1. unfold ss0. by apply stacks_fmap. }
  assert (Hk : omap (fun c => c) (holeCardsOf ss2) ++ d2 ≡ₚ shuffled).
  { rewrite Hk2, Hk1. unfold ss0. by rewrite holeCardsOf_reset. }
  assert (Hh : forall i s', seatAt ss2 i = Some s' -> length (holeCards s') = 2%nat).
  { intros i s' Hi. apply Hh2 in Hi as (s1 & Hi1 & ->).
    apply Hh1 in Hi1 as (s0 & Hi0 & ->). unfold ss0 in Hi0. rewrite seatAt_fmap in Hi0.
    destruct (seatAt (seats t) i); [|done]. by injection Hi0 as <-. }
  set (dealer := Z.rem _ _).
  set (sb := nextOccupiedForBlinds _ dealer). set (bb := nextOccupiedForBlinds _ sb).
  destruct (seatAt ss2 sb) as [sbSeat|] eqn:Hsb.
  2:{ simpl. unfold cardsOf. simpl. rewrite app_nil_r. repeat split; try done; lia. }
  destruct (seatAt ss2 bb) as [bbSeat|] eqn:Hbb.
  2:{ simpl. unfold cardsOf. simpl. rewrite app_nil_r. repeat split; try done; lia. }
  set (small := Z.min SMALL_BLIND (chips sbSeat)).
  set (big := Z.min BIG_BLIND (chips bbSeat)).
  set (ss3 := putSeat ss2 sb (markAllIn (commit sbSeat small))).
  pose proof (seatAt_range _ _ _ Hsb) as Hsbr.
  pose proof (seatAt_range _ _ _ Hbb) as Hbbr.
  assert (Hbb3 : exists b3, seatAt ss3 bb = Some b3 /\ holeCards b3 = holeCards bbSeat).
  { unfold ss3. destruct (Z.eq_dec sb bb) as [<-|Hne].
    - rewrite seatAt_putSeat_eq by done. eexists. split; [done|].
      rewrite Hsb in Hbb. by injection Hbb as <-.
    - rewrite seatAt_putSeat_ne by lia. eauto. }
  destruct Hbb3 as (b3 & Hb3 & Hb3h). rewrite Hb3.
  set (ss4 := putSeat ss3 bb (markAllIn (commit b3 big))).
  assert (Hc4 : allContributions ss4 = small + big).
  { unfold ss4. rewrite (allContributions_putSeat _ _ _ _ Hb3).
    unfold ss3. rewrite (allContributions_putSeat _ _ _ _ Hsb). simpl. lia. }
  assert (Hs4 : sumZ (map seatChips ss4) = sumZ (map seatChips ss2) - small - big).
  { unfold ss4. rewrite (stacks_putSeat _ _ _ _ Hb3).
    unfold ss3. rewrite (stacks_putSeat _ _ _ _ Hsb). simpl. lia. }
  assert (Hk4 : holeCardsOf ss4 = holeCardsOf ss2).
  { unfold ss4. rewrite (holeCardsOf_putSeat _ _ _ _ Hb3) by done.
    unfold ss3. by rewrite (holeCardsOf_putSeat _ _ _ _ Hsb). }
  assert (Hh4 : forall i s', seatAt ss4 i = Some s' -> length (holeCards s') = 2%nat).
  { intros i s' Hi. unfold ss4 in Hi.
    destruct (Z.eq_dec bb i) as [<-|Hne].
    - rewrite seatAt_putSeat_eq in Hi by (unfold ss3; by rewrite length_putSeat).
      injection Hi as <-. simpl. rewrite Hb3h. eauto.
    - rewrite seatAt_putSeat_ne in Hi by lia. unfold ss3 in Hi.
      destruct (Z.eq_dec sb i) as [<-|Hne'].
      + rewrite seatAt_putSeat_eq in Hi by done. injection Hi as <-. simpl. eauto.
      + rewrite seatAt_putSeat_ne in Hi by lia. eauto. }
  simpl. unfold cardsOf. simpl. rewrite app_nil_r, Hk4.
  repeat split; try done; lia.
Qed.

(** Property X12.  A hand that starts is on the preflop stage with an
    empty board; whatever the pot held before is discarded, the new pot is
    the sum of the seats' contributions (the blinds), and the blinds are
    taken from the stacks: stacks plus pot equal the stacks before. *)
Theorem starting_a_hand_keeps_the_books (t : Table) (shuffled : list Card) :
  stage t = Waiting -> MIN_PLAYERS_TO_START <= readyPlayerCount t ->
  let t' := startHandIfReady SMALL_BLIND BIG_BLIND MIN_PLAYERS_TO_START t shuffled in
  stage t' = Preflop /\ community t' = [] /\
  pot t' = allContributions (seats t') /\
  sumZ (map seatChips (seats t')) + pot t' = sumZ (map seatChips (seats t)).
Proof.
  intros Hst Hmin. destruct (start_shape t shuffled Hst Hmin) as (? & ? & ? & ? & _). done.
Qed.

(** Property X13.  At the start of a hand every occupied seat holds two
    hole cards, and hole cards and remaining deck together are the shuffled
    deck: a deck without repeats deals no card twice. *)
Theorem dealing_uses_each_card_once (t : Table) (shuffled : list Card) :
  stage t = Waiting -> MIN_PLAYERS_TO_START <= readyPlayerCount t ->
  let t' := startHandIfReady SMALL_BLIND BIG_BLIND MIN_PLAYERS_TO_START t shuffled in
  cardsOf t' ≡ₚ shuffled /\
  (NoDup shuffled -> NoDup (cardsOf t')) /\
  forall i s', seatAt (seats t') i = Some s' -> length (holeCards s') = 2%nat.
Proof.
  intros Hst Hmin.
  destruct (start_shape t shuffled Hst Hmin) as (_ & _ & _ & _ & Hk & Hh & _).
  split; [done|]. split; [|done]. intros Hnd. by rewrite Hk.
Qed.

(** Property X14.  [startHandIfReady] called again on its own result
    changes nothing: a hand in progress is not dealt again. *)
Theorem hand_in_progress_is_not_restarted (t : Table) (d d' : list Card) :
  startHandIfReady SMALL_BLIND BIG_BLIND MIN_PLAYERS_TO_START
    (startHandIfReady SMALL_BLIND BIG_BLIND MIN_PLAYERS_TO_START t d) d' = startHandIfReady SMALL_BLIND BIG_BLIND MIN_PLAYERS_TO_START t d.
Proof.
  destruct (decide (stage t = Waiting)) as [Hst|Hst].
  - destruct (Z.ltb_spec (readyPlayerCount t) MIN_PLAYERS_TO_START) as [Hlt|Hge].
    + assert (E : startHandIfReady SMALL_BLIND BIG_BLIND MIN_PLAYERS_TO_START t d = t).
      { unfold startHandIfReady. rewrite Hst. simpl.
        by destruct (Z.ltb_spec (readyPlayerCount t) MIN_PLAYERS_TO_START); [|lia]. }
      rewrite E. unfold startHandIfReady. rewrite Hst. simpl.
      by destruct (Z.ltb_spec (readyPlayerCount t) MIN_PLAYERS_TO_START); [|lia].
    + destruct (start_shape t d Hst Hge) as (Hs & _).
      unfold startHandIfReady at 1. by rewrite Hs.
  - assert (E : startHandIfReady SMALL_BLIND BIG_BLIND MIN_PLAYERS_TO_START t d = t).
    { unfold startHandIfReady. by rewrite bool_decide_eq_false_2. }
    rewrite E. unfold startHandIfReady. by rewrite bool_decide_eq_false_2.
Qed.
End Accounts.

(** ** What an event keeps *)

Lemma iter_removelast_shift {A} (d : list A) (k : nat) :
  Nat.iter (S k) (@removelast A) d = Nat.iter k (@removelast A) (removelast d).
Proof. induction k as [|k IH]; [done|]. cbn [Nat.iter nat_rect] in *. by rewrite IH. Qed.

Lemma iter_removelast_cards (d : list Card) (k : nat) :
  omap (fun c => c) (map (fun i => last (Nat.iter i (@removelast Card) d)) (seq 0 k))
  ++ Nat.iter k (@removelast Card) d ≡ₚ d.
Proof.
  revert d. induction k as [|k IH]; intros d; [done|].
  replace (seq 0 (S k)) with (0%nat :: map S (seq 0 k))
    by (simpl; by rewrite seq_shift).
  cbn [map]. rewrite map_map, iter_removelast_shift.
  erewrite map_ext; [|intros i; by rewrite iter_removelast_shift].
  change (Nat.iter 0 (@removelast Card) d) with d.
  pose proof (popDeck_cards d) as Hp. unfold popDeck in Hp. cbn [fst snd] in Hp.
  destruct (last d) as [x|] eqn:Hl; cbn [omap] in *; simpl in *.
  - rewrite IH. exact Hp.
  - rewrite IH. exact Hp.
Qed.

Lemma resolveShowdown_cases t :
  stage (resolveShowdown t) = Waiting \/ resolveShowdown t = t.
Proof.
  unfold resolveShowdown. destruct (activePlayers (seats t)); [by left|].
  destruct (buildResults _ _); [by left | by right].
Qed.

Lemma markAllIn_commit_flag seat x :
  isAllIn seat = false ->
  isAllIn (markAllIn (commit seat x)) = true -> chips (markAllIn (commit seat x)) = 0.
Proof.
  unfold isAllIn. simpl. intros Hnot.
  destruct (Z.eqb_spec (chips seat - x) 0); [done|congruence].
Qed.

Lemma seatsSound_putSeat t ss' toCall' i s s' :
  seatsSound t -> seatAt (seats t) i = Some s ->
  ss' = putSeat (seats t) i s' ->
  currentBetToCall t <= toCall' ->
  0 <= chips s' -> currentBet s' <= toCall' -> (isAllIn s' = true -> chips s' = 0) ->
  forall j sj, seatAt ss' j = Some sj ->
               0 <= chips sj /\ currentBet sj <= toCall' /\ (isAllIn sj = true -> chips sj = 0).
Proof.
  intros Hsound Hi -> Hle H1 H2 H3 j sj Hj.
  pose proof (seatAt_range _ _ _ Hi) as Hr.
  destruct (Z.eq_dec i j) as [<-|Hne].
  - rewrite seatAt_putSeat_eq in Hj by done. by injection Hj as <-.
  - rewrite seatAt_putSeat_ne in Hj by lia.
    destruct (Hsound _ _ Hj) as (? & ? & ?). repeat split; [done|lia|done].
Qed.

Section StepInvariants.
Variable BIG_BLIND : Z.

(** An event either leaves the table as it is, or applies an action of the
    seat whose turn it is (a fold, for the timer) and then passes the turn
    or advances the stage. *)
Lemma step_cases t e :
  step BIG_BLIND t e = t \/
  exists seat a t1 k,
    seatAt (seats t) (currentTurnIndex t) = Some seat /\
    folded seat = false /\ isAllIn seat = false /\
    applyAction BIG_BLIND t (currentTurnIndex t) seat a = Some t1 /\
    (step BIG_BLIND t e = advanceStage BIG_BLIND t1 \/
     step BIG_BLIND t e = advanceStage BIG_BLIND (withTurn t1 k) \/
     step BIG_BLIND t e = withTurn t1 k) /\
    (e = EvAction (currentTurnIndex t) a \/ (e = EvTimeout /\ a = mkAction Fold None)).
Proof.
  destruct e as [seatIndex a|]; simpl.
  - unfold handleAction, handleAction_outcome.
    destruct (seatAt (seats t) seatIndex) as [seat|] eqn:Hseat; [|by left].
    destruct (folded seat || isAllIn seat) eqn:Hf; [by left|].
    apply orb_false_elim in Hf as [Hfold Hall].
    destruct (Z.eqb_spec (currentTurnIndex t) seatIndex) as [Ht|]; [|by left].
    simpl. subst seatIndex.
    destruct (applyAction BIG_BLIND t (currentTurnIndex t) seat a) as [t1|] eqn:Happ;
      [|by left].
    right. destruct (passTurn_frame t1) as [k Hk].
    exists seat, a, t1, k. repeat (split; [done|]). split; [|by left].
    destruct Hk as [-> | [-> | ->]]; simpl; auto.
  - unfold actionTimeout, actionTimeout_outcome.
    destruct (seatAt (seats t) (currentTurnIndex t)) as [seat|] eqn:Hseat; [|by left].
    destruct (negb (folded seat) && negb (isAllIn seat)) eqn:Hc; [|by left].
    apply andb_prop in Hc as [Hfold%negb_true_iff Hall%negb_true_iff].
    right. set (t1 := withSeats t _).
    exists seat, (mkAction Fold None), t1, (nextOccupiedFrom t1 (currentTurnIndex t)).
    repeat (split; [done|]). split; [|by right].
    destruct (isBettingRoundComplete t1); simpl; [by left|].
    destruct (_ =? _); simpl; auto.
Qed.

Lemma applyAction_board t seatIndex seat a t1 :
  applyAction BIG_BLIND t seatIndex seat a = Some t1 ->
  boardForStage t -> boardForStage t1.
Proof.
  intros (Hs & Hc & _)%applyAction_frame. unfold boardForStage. by rewrite Hs, Hc.
Qed.

Lemma advanceStage_board t k :
  boardForStage t ->
  boardForStage (advanceStage BIG_BLIND t) /\
  boardForStage (advanceStage BIG_BLIND (withTurn t k)).
Proof.
  unfold boardForStage, advanceStage.
  destruct (stage t) eqn:E; simpl; rewrite ?E; simpl; intros Hb;
    rewrite ?length_app, ?Hb; simpl; try done.
  split.
  - match goal with |- context [resolveShowdown ?x] =>
      destruct (resolveShowdown_cases x) as [-> | ->]; simpl; done end.
  - match goal with |- context [resolveShowdown ?x] =>
      destruct (resolveShowdown_cases x) as [-> | ->]; simpl; done end.
Qed.

(** Property X15.  Whatever the event, the board keeps the number of cards
    of the stage: none before the flop, three on the flop, four on the turn,
    five on the river and at showdown. *)
Theorem board_has_the_cards_of_the_stage (t : Table) (e : Event) :
  boardForStage t -> boardForStage (step BIG_BLIND t e).
Proof.
  intros Hb.
  destruct (step_cases t e) as [-> | (seat & a & t1 & k & _ & _ & _ & Happ & Hstep & _)];
    [done|].
  pose proof (applyAction_board _ _ _ _ _ Happ Hb) as Hb1.
  destruct (advanceStage_board t1 k Hb1) as [H1 H2].
  by destruct Hstep as [-> | [-> | ->]].
Qed.

Lemma applyAction_cards t seatIndex seat a t1 :
  seatAt (seats t) seatIndex = Some seat ->
  applyAction BIG_BLIND t seatIndex seat a = Some t1 ->
  cardsOf t1 = cardsOf t.
Proof.
  intros Hseat. unfold applyAction, cardsOf. destruct (type_ a).
  - intros [= <-]. simpl. by rewrite (holeCardsOf_putSeat _ _ _ _ Hseat).
  - destruct (negb _); [done|]. by intros [= <-].
  - intros [= <-]. simpl. by rewrite (holeCardsOf_putSeat _ _ _ _ Hseat).
  - destruct (_ <? _); [done|]. intros [= <-]. simpl.
    by rewrite (holeCardsOf_putSeat _ _ _ _ Hseat).
Qed.

Lemma advanceStage_cards t k :
  stage t <> River ->
  cardsOf (advanceStage BIG_BLIND t) ≡ₚ cardsOf t /\
  cardsOf (advanceStage BIG_BLIND (withTurn t k)) ≡ₚ cardsOf t.
Proof.
  intros Hst.
  assert (H : forall n : nat,
    omap (fun c => c)
      (holeCardsOf (map (option_map clearBet) (seats t)) ++
       community t ++ map (fun i => last (Nat.iter i (@removelast Card) (deck t))) (seq 0 n))
    ++ Nat.iter n (@removelast Card) (deck t) ≡ₚ cardsOf t).
  { intros n. unfold cardsOf. rewrite holeCardsOf_fmap by done.
    rewrite !omap_app, <- !app_assoc. do 2 f_equiv. apply iter_removelast_cards. }
  unfold advanceStage, cardsOf.
  destruct (stage t) eqn:E; simpl; rewrite ?E; simpl; try done; split;
    first [ apply (H 3%nat) | apply (H 1%nat) | apply (H 0%nat) ].
Qed.

(** Property X16.  Until the river is played out, an event only moves
    cards from the deck to the board: hole cards, board and deck together
    hold the same cards before and after. *)
Theorem cards_in_play_are_kept_until_the_river (t : Table) (e : Event) :
  stage t <> River ->
  cardsOf (step BIG_BLIND t e) ≡ₚ cardsOf t.
Proof.
  intros Hst.
  destruct (step_cases t e) as [-> | (seat & a & t1 & k & Hseat & _ & _ & Happ & Hstep & _)];
    [done|].
  rewrite <- (applyAction_cards _ _ _ _ _ Hseat Happ).
  apply applyAction_frame in Happ as (Hs & _).
  destruct (advanceStage_cards t1 k) as [H1 H2]; [congruence|].
  by destruct Hstep as [-> | [-> | ->]].
Qed.

Lemma applyAction_contributions t seatIndex seat a t1 :
  seatAt (seats t) seatIndex = Some seat ->
  applyAction BIG_BLIND t seatIndex seat a = Some t1 ->
  pot t1 - allContributions (seats t1) = pot t - allContributions (seats t).
Proof.
  intros Hseat. unfold applyAction. destruct (type_ a).
  - intros [= <-]. simpl. rewrite (allContributions_putSeat _ _ _ _ Hseat). simpl. lia.
  - destruct (negb _); [done|]. by intros [= <-].
  - intros [= <-]. simpl. rewrite (allContributions_putSeat _ _ _ _ Hseat). simpl. lia.
  - destruct (_ <? _); [done|]. intros [= <-]. simpl.
    rewrite (allContributions_putSeat _ _ _ _ Hseat). simpl. lia.
Qed.

Lemma advanceStage_contributions t k :
  stage t <> River ->
  pot (advanceStage BIG_BLIND t) - allContributions (seats (advanceStage BIG_BLIND t))
  = pot t - allContributions (seats t) /\
  pot (advanceStage BIG_BLIND (withTurn t k))
  - allContributions (seats (advanceStage BIG_BLIND (withTurn t k)))
  = pot t - allContributions (seats t).
Proof.
  intros Hst. unfold advanceStage.
  destruct (stage t) eqn:E; simpl; rewrite ?E; simpl;
    rewrite ?allContributions_fmap; done.
Qed.

Lemma books_balance_until_the_river_frame t e :
  stage t <> River -> tableChips (step BIG_BLIND t e) = tableChips t.
Proof.
  intros Hst.
  destruct (step_cases t e) as [-> | (seat & a & t1 & k & Hseat & _ & _ & Happ & Hstep & _)];
    [done|].
  rewrite <- (applyAction_conserves _ _ _ _ _ _ Hseat Happ).
  apply applyAction_frame in Happ as (Hs & _).
  assert (Hst1 : stage t1 <> River) by congruence.
  destruct (advanceStage_conserves BIG_BLIND t1 k Hst1) as [C1 C2].
  by destruct Hstep as [-> | [-> | ->]].
Qed.

(** Property X17.  Until the river is played out, an action or a timeout
    keeps the books: the chips on the table (stacks plus pot) are unchanged,
    and the pot moves by exactly what the seats' [totalContributed] move,
    so a pot equal to the sum of the contributions stays equal to it. *)
Theorem books_balance_until_the_river (t : Table) (e : Event) :
  stage t <> River ->
  tableChips (step BIG_BLIND t e) = tableChips t /\
  pot (step BIG_BLIND t e) - allContributions (seats (step BIG_BLIND t e))
  = pot t - allContributions (seats t).
Proof.
  intros Hst.
  destruct (step_cases t e) as [-> | (seat & a & t1 & k & Hseat & _ & _ & Happ & Hstep & _)];
    [done|].
  rewrite <- (applyAction_conserves _ _ _ _ _ _ Hseat Happ),
          <- (applyAction_contributions _ _ _ _ _ Hseat Happ).
  apply applyAction_frame in Happ as (Hs & _).
  assert (Hst1 : stage t1 <> River) by congruence.
  destruct (advanceStage_conserves BIG_BLIND t1 k Hst1) as [C1 C2].
  destruct (advanceStage_contributions t1 k Hst1) as [P1 P2].
  by destruct Hstep as [-> | [-> | ->]].
Qed.

Lemma applyAction_sound t seatIndex seat a t1 :
  seatsSound t -> seatAt (seats t) seatIndex = Some seat -> isAllIn seat = false ->
  applyAction BIG_BLIND t seatIndex seat a = Some t1 ->
  seatsSound t1.
Proof.
  intros Hsound Hseat Hnot. destruct (Hsound _ _ Hseat) as (Hc & Hb & _).
  unfold applyAction. destruct (type_ a).
  - intros [= <-]. unfold seatsSound. simpl.
    eapply (seatsSound_putSeat t); eauto; simpl; try lia. unfold isAllIn in *. simpl. congruence.
  - destruct (negb _); [done|]. by intros [= <-].
  - intros [= <-]. unfold seatsSound. simpl.
    eapply (seatsSound_putSeat t); eauto; simpl; try lia.
    by apply markAllIn_commit_flag.
  - destruct (_ <? _); [done|]. intros [= <-]. unfold seatsSound. simpl.
    set (invest := Z.min _ (chips seat)).
    destruct (Z.ltb_spec (currentBetToCall t) (currentBet seat + invest)).
    + eapply (seatsSound_putSeat t); eauto; simpl; try lia.
      by apply markAllIn_commit_flag.
    + eapply (seatsSound_putSeat t); eauto; simpl; try lia.
      by apply markAllIn_commit_flag.
Qed.

Lemma advanceStage_sound t k :
  stage t <> River -> seatsSound t ->
  seatsSound (advanceStage BIG_BLIND t) /\
  seatsSound (advanceStage BIG_BLIND (withTurn t k)).
Proof.
  intros Hst Hsound.
  assert (H : forall i s, seatAt (map (option_map clearBet) (seats t)) i = Some s ->
              0 <= chips s /\ currentBet s <= 0 /\ (isAllIn s = true -> chips s = 0)).
  { intros i s Hi. rewrite seatAt_fmap in Hi.
    destruct (seatAt (seats t) i) as [s0|] eqn:E; [|done]. injection Hi as <-.
    destruct (Hsound _ _ E) as (? & _ & ?). by repeat split. }
  unfold advanceStage, seatsSound.
  destruct (stage t) eqn:E; simpl; rewrite ?E; simpl; done.
Qed.

(** Property X18.  Until the river is played out, an action or a timeout
    keeps the seats sound: no stack goes below zero (a call or a raise is
    capped by the stack), no bet exceeds the bet to call, and a seat is
    flagged all-in only with an empty stack. *)
Theorem stacks_and_bets_stay_sound (t : Table) (e : Event) :
  stage t <> River -> seatsSound t -> seatsSound (step BIG_BLIND t e).
Proof.
  intros Hst Hsound.
  destruct (step_cases t e) as [-> | (seat & a & t1 & k & Hseat & _ & Hnot & Happ & Hstep & _)];
    [done|].
  pose proof (applyAction_sound _ _ _ _ _ Hsound Hseat Hnot Happ) as Hs1.
  apply applyAction_frame in Happ as (Hs & _).
  destruct (advanceStage_sound t1 k) as [H1 H2]; [congruence|done|].
  by destruct Hstep as [-> | [-> | ->]].
Qed.

(** Property X19.  A raise that lifts the bet to call was for at least the
    last raise (and the big blind), becomes the last raise by its requested
    amount even when the stack covered less, and makes every later raise by
    a smaller amount illegal. *)
Theorem minimum_raise_follows_the_last_raise
    (t : Table) (seatIndex : Z) (seat : Seat) (amt : Z) (t1 : Table) :
  applyAction BIG_BLIND t seatIndex seat (mkAction Raise (Some amt)) = Some t1 ->
  currentBetToCall t < currentBetToCall t1 ->
  Z.max (lastRaiseAmount t) BIG_BLIND <= amt /\
  lastRaiseAmount t1 = amt /\
  currentBetToCall t1
  = currentBet seat + Z.min (currentBetToCall t - currentBet seat + amt) (chips seat) /\
  forall j seat' amt',
    amt' < amt ->
    applyAction BIG_BLIND t1 j seat' (mkAction Raise (Some amt')) = None.
Proof.
  unfold applyAction at 1. simpl.
  destruct (Z.ltb_spec amt (Z.max (lastRaiseAmount t) BIG_BLIND)) as [|Hge]; [done|].
  intros [= <-]. simpl. set (invest := Z.min _ (chips seat)).
  destruct (Z.ltb_spec (currentBetToCall t) (currentBet seat + invest)) as [Hr|Hr]; [|lia].
  intros _. split; [done|]. split; [done|]. split; [done|].
  intros j seat' amt' Hlt. unfold applyAction. simpl.
  destruct (Z.ltb_spec (currentBetToCall t) (currentBet seat + invest)); [|lia].
  destruct (Z.ltb_spec amt' (Z.max amt BIG_BLIND)); [done|lia].
Qed.
End StepInvariants.

(** ** Wagers outside a hand *)

Section Outside.
Variables SMALL_BLIND BIG_BLIND MIN_PLAYERS_TO_START : Z.

Lemma advanceStage_waiting t k :
  stage t = Waiting ->
  (stage (advanceStage BIG_BLIND t) = Waiting /\ pot (advanceStage BIG_BLIND t) = pot t) /\
  (stage (advanceStage BIG_BLIND (withTurn t k)) = Waiting /\
   pot (advanceStage BIG_BLIND (withTurn t k)) = pot t).
Proof. intros Hst. unfold advanceStage. simpl. by rewrite Hst. Qed.

(** Property X20.  [handleAction] does not look at the stage: while the
    table is waiting for a hand, the seat at [currentTurnIndex] can still
    call or raise, and the chips go to the pot with the stage left at
    waiting.  The hand that starts next discards that pot, so the chips on
    the table drop by it. *)
Theorem wager_outside_a_hand_is_discarded
    (t : Table) (a : Action) (shuffled : list Card) :
  stage t = Waiting ->
  MIN_PLAYERS_TO_START
  <= readyPlayerCount (handleAction BIG_BLIND t (currentTurnIndex t) a) ->
  let t1 := handleAction BIG_BLIND t (currentTurnIndex t) a in
  stage t1 = Waiting /\ tableChips t1 = tableChips t /\
  tableChips (startHandIfReady SMALL_BLIND BIG_BLIND MIN_PLAYERS_TO_START t1 shuffled)
  = tableChips t - pot t1 /\
  forall seat amt,
    seatAt (seats t) (currentTurnIndex t) = Some seat ->
    folded seat = false -> isAllIn seat = false ->
    a = mkAction Raise (Some amt) ->
    Z.max (lastRaiseAmount t) BIG_BLIND <= amt ->
    pot t1 = pot t + Z.min (currentBetToCall t - currentBet seat + amt) (chips seat).
Proof.
  intros Hst Hmin t1. fold t1 in Hmin.
  assert (Hshape : stage t1 = Waiting /\ tableChips t1 = tableChips t /\
            forall seat amt,
              seatAt (seats t) (currentTurnIndex t) = Some seat ->
              folded seat = false -> isAllIn seat = false ->
              a = mkAction Raise (Some amt) ->
              Z.max (lastRaiseAmount t) BIG_BLIND <= amt ->
              pot t1 = pot t + Z.min (currentBetToCall t - currentBet seat + amt)
                                     (chips seat)).
  { split; [|split].
    - destruct (step_cases BIG_BLIND t (EvAction (currentTurnIndex t) a))
        as [E | (seat & a0 & t0 & k & _ & _ & _ & Happ & Hstep & _)].
      + simpl in E. fold t1 in E. by rewrite E.
      + simpl in Hstep. fold t1 in Hstep.
        apply applyAction_frame in Happ as (Hs & _).
        destruct (advanceStage_waiting t0 k) as [[H1 _] [H2 _]]; [congruence|].
        destruct Hstep as [-> | [-> | ->]]; [done|done|].
        simpl. congruence.
    - apply (books_balance_until_the_river_frame BIG_BLIND t
               (EvAction (currentTurnIndex t) a)). by rewrite Hst.
    - intros seat amt Hseat Hf Ha -> Hamt. unfold t1.
      unfold handleAction, handleAction_outcome. rewrite Hseat, Hf, Ha, Z.eqb_refl. simpl.
      unfold applyAction. simpl.
      destruct (Z.ltb_spec amt (Z.max (lastRaiseAmount t) BIG_BLIND)); [lia|].
      match goal with |- context [passTurn ?x] => set (t0 := x) end.
      assert (Hst0 : stage t0 = Waiting) by exact Hst.
      destruct (passTurn_frame t0) as [k Hk].
      destruct (advanceStage_waiting t0 k Hst0) as [[_ P1] [_ P2]].
      destruct Hk as [-> | [-> | ->]]; simpl; rewrite ?P1, ?P2; done. }
  destruct Hshape as (Hs1 & Hc1 & Hpot). split; [done|]. split; [done|]. split; [|done].
  destruct (start_shape SMALL_BLIND BIG_BLIND MIN_PLAYERS_TO_START t1 shuffled Hs1 Hmin)
    as (_ & _ & _ & Hbooks & _).
  unfold tableChips at 1. rewrite Hbooks, <- Hc1. unfold tableChips. lia.
Qed.
End Outside.

(** ** Leaving, disconnecting and the action handler *)

Lemma seatAt_map (f : option Seat -> option Seat) ss i :
  f None = None ->
  seatAt (map f ss) i = f (seatAt ss i).
Proof.
  intros Hf. unfold seatAt. destruct (i <? 0); [done|].
  rewrite list_lookup_fmap. destruct (ss !! Z.to_nat i) as [[s|]|]; simpl; done.
Qed.

Lemma seatAt_leave t sock i :
  seatAt (seats (leave t sock)) i
  = match seatAt (seats t) i with
    | Some s => if bool_decide (socketId s = Some sock) then None else Some s
    | None => None
    end.
Proof. unfold leave, removePlayerBySocket. simpl. by rewrite seatAt_map. Qed.

(** Property X21.  [leave] empties exactly the seats bound to the leaving
    socket and nothing else: the other seats, the pot, the stage and the
    turn are as before (the leaver's contributions stay in the pot, the
    stack is gone), and leaving twice is leaving once. *)
Theorem leave_removes_exactly_the_seats_of_the_socket (t : Table) (sock : string) :
  let t' := leave t sock in
  (forall i s, seatAt (seats t') i = Some s <->
               seatAt (seats t) i = Some s /\ socketId s <> Some sock) /\
  length (seats t') = length (seats t) /\
  pot t' = pot t /\ stage t' = stage t /\ currentTurnIndex t' = currentTurnIndex t /\
  leave t' sock = t'.
Proof.
  intros t'. subst t'. split; [|split; [|repeat split]].
  - intros i s. rewrite seatAt_leave.
    destruct (seatAt (seats t) i) as [s0|]; [|split; [done|by intros [? _]]].
    case_bool_decide as Hd.
    + split; [done|]. by intros [[= ->] Hn].
    + split; [by intros [= ->] | by intros [? _]].
  - unfold leave, removePlayerBySocket. simpl. by rewrite length_map.
  - unfold leave, removePlayerBySocket, withSeats. simpl. f_equal.
    rewrite map_map. apply map_ext. intros [s|]; [|done].
    destruct (bool_decide (socketId s = Some sock)) eqn:E; [done|]. by rewrite E.
Qed.

(** Property X22.  When the player whose turn it is leaves, the turn stays
    on the emptied seat and no action message or timer expiry changes the
    table afterwards. *)
Theorem leaving_on_turn_halts_the_hand
    (BIG_BLIND : Z) (t : Table) (sock : string) (s : Seat) (es : list Event) :
  seatAt (seats t) (currentTurnIndex t) = Some s ->
  socketId s = Some sock ->
  run BIG_BLIND (leave t sock) es = leave t sock.
Proof.
  intros Hs Hsock. apply run_stuck. unfold turnCannotAct.
  replace (currentTurnIndex (leave t sock)) with (currentTurnIndex t) by done.
  rewrite seatAt_leave, Hs. by rewrite bool_decide_eq_true_2.
Qed.

Lemma seatAt_disconnect t pk sock now i :
  seatAt (seats (disconnect t pk sock now)) i
  = match seatAt (seats t) i with
    | Some s =>
        if truthyStr pk && bool_decide (pubkey s = pk) && bool_decide (socketId s = Some sock)
        then Some (markDisconnected s (now + 60000)) else Some s
    | None => None
    end.
Proof.
  unfold disconnect. destruct (truthyStr pk); simpl.
  - by rewrite seatAt_map.
  - by destruct (seatAt (seats t) i).
Qed.

(** Property X23.  A disconnect frees no seat and changes nothing of what
    the room is shown; a seat that was occupied stays taken: every [sit]
    for it, by whatever socket and identity, is turned down and leaves the
    table unchanged, so the player who lost the connection cannot get the
    seat back. *)
Theorem disconnect_keeps_the_seat_and_the_public_view
    (SMALL_BLIND BIG_BLIND MIN_PLAYERS_TO_START ACTION_TIMEOUT_MS : Z)
    (t : Table) (sockPubkey : option string) (sock : string) (now : Z) :
  let t' := disconnect t sockPubkey sock now in
  (forall extras, publicState ACTION_TIMEOUT_MS t' extras
                  = publicState ACTION_TIMEOUT_MS t extras) /\
  (forall i, is_Some (seatAt (seats t') i) <-> is_Some (seatAt (seats t) i)) /\
  (forall i pk' sock' lookup shuffled,
      is_Some (seatAt (seats t) i) ->
      let r := sit SMALL_BLIND BIG_BLIND MIN_PLAYERS_TO_START t' pk' sock' i
                   lookup shuffled in
      r.2 = t' /\ (r.1 = SeatTaken \/ r.1 = NotAuthenticated)).
Proof.
  intros t'.
  assert (Hsome : forall i, is_Some (seatAt (seats t') i) <-> is_Some (seatAt (seats t) i)).
  { intros i. unfold t'. rewrite seatAt_disconnect.
    destruct (seatAt (seats t) i) as [s|]; [|done].
    destruct (_ && _); split; eauto. }
  split; [|split; [done|]].
  - intros extras. unfold t', disconnect. destruct (truthyStr sockPubkey); [|done].
    unfold publicState. simpl. f_equal. rewrite map_map. apply map_ext.
    intros [s|]; [|done]. by destruct (_ && _).
  - intros i pk' sock' lookup shuffled Hocc r.
    apply Hsome in Hocc as [s Hs]. subst r. unfold sit, sitGuards.
    assert (Hr := seatAt_range _ _ _ Hs).
    destruct pk' as [pk'|]; simpl; [|by eauto].
    destruct (String.eqb pk' ""); simpl; [by eauto|].
    destruct (Z.ltb_spec i 0); [lia|]. destruct (Z.leb_spec (Z.of_nat (length (seats t'))) i); [lia|].
    simpl. rewrite Hs. simpl. by eauto.
Qed.

(** Property X24.  The seat of a disconnected player is kept for the
    reconnect window: the scheduled callback does nothing while the clock
    is within 60000 ms of the disconnect and empties the seat, and only
    it, once the clock is past; pot, stage and turn are not touched. *)
Theorem seat_is_freed_only_after_the_reconnect_window
    (t : Table) (i : Z) (s : Seat) (pk sock : string) (now now' : Z) :
  seatAt (seats t) i = Some s ->
  pubkey s = Some pk -> pk <> ""%string -> socketId s = Some sock ->
  0 <= now ->
  let t1 := disconnect t (Some pk) sock now in
  let t2 := reclaimExpired t1 i pk now' in
  (now' <= now + 60000 -> t2 = t1) /\
  (now + 60000 < now' ->
   seatAt (seats t2) i = None /\
   (forall j, j <> i -> seatAt (seats t2) j = seatAt (seats t1) j) /\
   pot t2 = pot t /\ stage t2 = stage t /\ currentTurnIndex t2 = currentTurnIndex t).
Proof.
  intros Hs Hpk Hne Hsock Hnow t1 t2.
  assert (Htruthy : truthyStr (Some pk) = true).
  { simpl. destruct (String.eqb_spec pk ""); done. }
  assert (H1 : seatAt (seats t1) i = Some (markDisconnected s (now + 60000))).
  { unfold t1. rewrite seatAt_disconnect, Hs, Htruthy.
    by rewrite !bool_decide_eq_true_2. }
  assert (Hfields : pot t1 = pot t /\ stage t1 = stage t
                    /\ currentTurnIndex t1 = currentTurnIndex t).
  { unfold t1, disconnect. by rewrite Htruthy. }
  assert (Hr := seatAt_range _ _ _ H1).
  unfold t2, reclaimExpired. rewrite H1. simpl.
  rewrite bool_decide_eq_true_2 by done. simpl.
  destruct (Z.eqb_spec (now + 60000) 0); [lia|]. simpl.
  split.
  - intros Hle. destruct (Z.ltb_spec (now + 60000) now'); [lia|done].
  - intros Hlt. destruct (Z.ltb_spec (now + 60000) now'); [|lia].
    simpl. split; [|split; [|done]].
    + unfold seatAt. destruct (i <? 0); [done|].
      rewrite list_lookup_insert_eq by lia. done.
    + intros j Hj. unfold seatAt. destruct (Z.ltb_spec j 0); [done|].
      rewrite list_lookup_insert_ne by lia. done.
Qed.

Lemma getEmptySeat_spec ss :
  match list_find (fun o : option Seat => o = None) ss with
  | Some (i, _) =>
      getEmptySeat (Some ss) = Z.of_nat i /\ (i < length ss)%nat /\
      seatAt ss (Z.of_nat i) = None /\
      forall j, 0 <= j < Z.of_nat i -> is_Some (seatAt ss j)
  | None =>
      getEmptySeat (Some ss) = 0 /\
      forall j, 0 <= j < Z.of_nat (length ss) -> is_Some (seatAt ss j)
  end.
Proof.
  unfold getEmptySeat.
  destruct (list_find _ ss) as [[i o]|] eqn:E.
  - apply list_find_Some in E as (Hl & -> & Hbefore).
    split; [done|]. split; [by apply lookup_lt_Some in Hl|]. split.
    + rewrite seatAt_of_nat, Hl. done.
    + intros j Hj. replace j with (Z.of_nat (Z.to_nat j)) by lia.
      rewrite seatAt_of_nat.
      destruct (ss !! Z.to_nat j) as [o|] eqn:Ej.
      * specialize (Hbefore _ _ Ej ltac:(lia)). destruct o; [by eauto|done].
      * apply lookup_ge_None in Ej. apply lookup_lt_Some in Hl. lia.
  - split; [done|]. intros j Hj. replace j with (Z.of_nat (Z.to_nat j)) by lia.
    rewrite seatAt_of_nat.
    destruct (ss !! Z.to_nat j) as [o|] eqn:Ej.
    + apply list_find_None in E. rewrite Forall_lookup in E.
      specialize (E _ _ Ej). destruct o; [by eauto|done].
    + apply lookup_ge_None in Ej. lia.
Qed.

(** Property X25.  [/api/get_empty_seat] answers with the lowest empty
    seat of the snapshot.  A [sit] for it by an authenticated player, with
    nothing run in between, passes every guard: it is granted when the
    lookup of the player succeeds and the player is not banned, answered
    "banned" for a banned player and "server" when the lookup fails.  When
    every seat is occupied the answer is 0, a seat that is taken. *)
Theorem suggested_seat_is_granted_unless_the_table_is_full
    (SMALL_BLIND BIG_BLIND MIN_PLAYERS_TO_START : Z)
    (t : Table) (pk sock : string) (lookup : Lookup) (shuffled : list Card) :
  pk <> ""%string ->
  let r := getEmptySeat (Some (seats t)) in
  let reply := (sit SMALL_BLIND BIG_BLIND MIN_PLAYERS_TO_START t (Some pk) sock r
                    lookup shuffled).1 in
  ((exists i, 0 <= i < Z.of_nat (length (seats t)) /\ seatAt (seats t) i = None) ->
   sitGuards t (Some pk) r = inr pk /\
   reply = match lookup with
           | LookupFailed => ServerError
           | LookupDone true => Banned
           | LookupDone false => Sat r
           end /\
   seatAt (seats t) r = None /\
   forall j, 0 <= j < r -> is_Some (seatAt (seats t) j)) /\
  ((forall i, 0 <= i < Z.of_nat (length (seats t)) -> is_Some (seatAt (seats t) i)) ->
   r = 0 /\ reply = (if length (seats t) =? 0 then BadSeat else SeatTaken)%nat).
Proof.
  intros Hne r reply. subst reply r.
  pose proof (getEmptySeat_spec (seats t)) as Hspec.
  assert (Heq : String.eqb pk "" = false) by (by destruct (String.eqb_spec pk "")).
  destruct (list_find _ (seats t)) as [[i o]|].
  - destruct Hspec as (-> & Hlt & Hnone & Hbefore). split.
    + intros _.
      assert (Hg : sitGuards t (Some pk) (Z.of_nat i) = inr pk).
      { unfold sitGuards. rewrite Heq.
        destruct (Z.ltb_spec (Z.of_nat i) 0); [lia|].
        destruct (Z.leb_spec (Z.of_nat (length (seats t))) (Z.of_nat i)); [lia|].
        simpl. by rewrite Hnone. }
      split; [exact Hg|]. split; [|done]. unfold sit. rewrite Hg.
      unfold sitSettled. by destruct lookup as [|[|]].
    + intros Hfull. destruct (Hfull (Z.of_nat i)) as [s Hs]; [lia|]. congruence.
  - destruct Hspec as (-> & Hfull). split.
    + intros (i & Hi & Hnone). destruct (Hfull i Hi) as [s Hs]. congruence.
    + intros _. split; [done|]. unfold sit, sitGuards. rewrite Heq. simpl.
      destruct (length (seats t)) as [|n] eqn:El; simpl; [done|].
      destruct (Hfull 0) as [s Hs]; [lia|]. by rewrite Hs.
Qed.

(** Property X26.  An [action] message changes the table only when the
    socket is authenticated as the identity that holds the named seat, the
    seat has the turn, and it is neither folded nor all-in. *)
Theorem action_changes_the_table_only_for_its_owner_on_turn
    (BIG_BLIND : Z) (t : Table) (sockPubkey : option string) (seatIndex : Z) (a : Action) :
  (onAction BIG_BLIND t sockPubkey seatIndex a).2 <> t ->
  exists s, seatAt (seats t) seatIndex = Some s /\
            truthyStr sockPubkey = true /\ pubkey s = sockPubkey /\
            currentTurnIndex t = seatIndex /\
            folded s = false /\ isAllIn s = false.
Proof.
  unfold onAction. destruct (truthyStr sockPubkey); simpl; [|done].
  destruct (seatAt (seats t) seatIndex) as [s|] eqn:Hs; [|done].
  case_bool_decide as Hpk; simpl; [|done].
  unfold handleAction, handleAction_outcome. rewrite Hs.
  destruct (folded s || isAllIn s) eqn:Hf; [done|].
  apply orb_false_elim in Hf as [Hfold Hall].
  destruct (Z.eqb_spec (currentTurnIndex t) seatIndex) as [Ht|]; simpl; [|done].
  intros _. by exists s.
Qed.

(** ** Who is paid at showdown *)

(** *** The head of a sorted array *)

Lemma insertBy_head {A} (cmp : A -> A -> Z) x l h rest :
  (forall a b, 0 < cmp a b -> cmp b a <= 0) ->
  (forall a, cmp a a <= 0) ->
  (forall a b c, cmp a b <= 0 -> cmp b c <= 0 -> cmp a c <= 0) ->
  (forall h' rest', l = h' :: rest' -> forall y, y ∈ l -> cmp h' y <= 0) ->
  insertBy cmp x l = h :: rest ->
  forall y, y ∈ x :: l -> cmp h y <= 0.
Proof.
  intros Hflip Hrefl Htrans Hl. destruct l as [|h' r]; simpl.
  - intros [= <- <-] y ->%list_elem_of_singleton. apply Hrefl.
  - specialize (Hl h' r eq_refl).
    destruct (Z.ltb_spec 0 (cmp x h')) as [Hlt|Hge].
    + intros [= <- <-] y [->|Hy]%elem_of_cons; [by apply Hflip | by apply Hl].
    + intros [= <- <-] y [->|Hy]%elem_of_cons; [apply Hrefl|].
      apply (Htrans _ h'); [done | by apply Hl].
Qed.

Lemma sortBy_head {A} (cmp : A -> A -> Z) l h rest :
  (forall a b, 0 < cmp a b -> cmp b a <= 0) ->
  (forall a, cmp a a <= 0) ->
  (forall a b c, cmp a b <= 0 -> cmp b c <= 0 -> cmp a c <= 0) ->
  sortBy cmp l = h :: rest ->
  forall y, y ∈ l -> cmp h y <= 0.
Proof.
  intros Hflip Hrefl Htrans. revert h rest.
  induction l as [|x l IH]; intros h rest; [done|].
  change (sortBy cmp (x :: l)) with (insertBy cmp x (sortBy cmp l)).
  intros E y Hy.
  assert (Hy' : y ∈ x :: sortBy cmp l) by (by rewrite sortBy_Permutation).
  clear Hy. revert y Hy'. apply (insertBy_head cmp x (sortBy cmp l) h rest); try done.
  intros h' rest' E' y Hy. apply (IH h' rest' E'). by rewrite sortBy_Permutation in Hy.
Qed.


(** Property X27.  The winners of a pot are exactly the eligible seats
    whose best hand no eligible seat beats. *)
Theorem each_pot_goes_to_the_best_eligible_hands
    (results : list Result) (p : Pot) (w : Z) :
  w ∈ potWinners results p <->
  exists r, r ∈ results /\ r_idx r = w /\ r_idx r ∈ eligibleIndices p /\
            forall r', r' ∈ results -> r_idx r' ∈ eligibleIndices p ->
                       compareEval (r_bestEval r') (r_bestEval r) <= 0.
Proof.
  unfold potWinners.
  set (elig := List.filter _ results).
  set (cmp := fun a b : Result => compareEval (r_bestEval b) (r_bestEval a)).
  assert (Helig : forall r, r ∈ elig <-> r ∈ results /\ r_idx r ∈ eligibleIndices p).
  { intros r. unfold elig. rewrite list_elem_of_In, filter_In, <- list_elem_of_In.
    by rewrite bool_decide_eq_true. }
  assert (Hhead : forall h rest, sortBy cmp elig = h :: rest ->
                                 forall y, y ∈ elig -> cmp h y <= 0).
  { intros h rest. apply sortBy_head; unfold cmp.
    - intros a b H. rewrite compareEval_flip. lia.
    - intros a. by rewrite compareEval_refl.
    - intros a b c H1 H2. by apply (compareEval_le_trans _ (r_bestEval b)). }
  rewrite list_elem_of_In, in_map_iff. split.
  - intros (r & <- & [Hr Htie]%filter_In). exists r.
    apply list_elem_of_In in Hr. rewrite sortBy_Permutation in Hr.
    apply Helig in Hr as Hr'. destruct Hr' as [Hres He].
    split; [done|]. split; [done|]. split; [done|].
    intros r' Hr' He'.
    destruct (sortBy cmp elig) as [|h rest] eqn:E.
    { pose proof (sortBy_Permutation cmp elig) as Hp. rewrite E in Hp.
      apply Permutation_nil in Hp. rewrite Hp in Hr. by apply elem_of_nil in Hr. }
    apply Z.eqb_eq in Htie.
    apply (compareEval_le_trans _ (r_bestEval h)).
    + apply (Hhead h rest eq_refl r'). by apply Helig.
    + rewrite compareEval_flip. lia.
  - intros (r & Hres & <- & He & Hbest). exists r. split; [done|].
    assert (Hr : r ∈ elig) by (by apply Helig).
    apply filter_In. split.
    { apply list_elem_of_In. by rewrite sortBy_Permutation. }
    destruct (sortBy cmp elig) as [|h rest] eqn:E.
    { pose proof (sortBy_Permutation cmp elig) as Hp. rewrite E in Hp.
      apply Permutation_nil in Hp. rewrite Hp in Hr. by apply elem_of_nil in Hr. }
    apply Z.eqb_eq.
    pose proof (Hhead h rest eq_refl r Hr) as H1. unfold cmp in H1.
    assert (Hh : h ∈ elig).
    { rewrite <- (sortBy_Permutation cmp elig), E. left. }
    apply Helig in Hh as [Hh1 Hh2].
    pose proof (Hbest h Hh1 Hh2) as H2. rewrite compareEval_flip in H2. lia.
Qed.

(** *** What one seat receives *)

Lemma addChips_0 (o : option Seat) : (fun s => addChips s 0) <$> o = o.
Proof. destruct o as [s|]; [|done]. simpl. destruct s. unfold addChips. simpl. by rewrite Z.add_0_r. Qed.

Lemma paid_refl ss i : paid ss ss i 0.
Proof. unfold paid. by rewrite addChips_0. Qed.

Lemma paid_trans ss ss' ss'' i x y :
  paid ss ss' i x -> paid ss' ss'' i y -> paid ss ss'' i (x + y).
Proof.
  unfold paid. intros H1 H2. rewrite H2, H1.
  destruct (seatAt ss i) as [s|]; [|done]. simpl. f_equal.
  unfold addChips. simpl. f_equal. lia.
Qed.

Lemma paid_creditSeat ss w x i :
  paid ss (creditSeat ss w x) i (if decide (i = w) then x else 0).
Proof.
  unfold paid. rewrite creditSeat_seatAt. case_decide; [done|]. by rewrite addChips_0.
Qed.

Lemma paid_creditAll ws ss x i :
  exists k : nat,
    paid ss (foldl (fun acc w => creditSeat acc w x) ss ws) i (Z.of_nat k * x) /\
    (i ∉ ws -> k = 0%nat).
Proof.
  revert ss. induction ws as [|w ws IH]; intros ss; simpl.
  - exists 0%nat. split; [apply paid_refl | done].
  - destruct (IH (creditSeat ss w x)) as (k & Hk & Hz).
    pose proof (paid_creditSeat ss w x i) as H1.
    destruct (decide (i = w)) as [->|Hne].
    + exists (S k). split.
      * replace (Z.of_nat (S k) * x) with (x + Z.of_nat k * x) by lia.
        by apply (paid_trans _ _ _ _ _ _ H1).
      * intros Hn. exfalso. apply Hn. left.
    + exists k. split.
      * replace (Z.of_nat k * x) with (0 + Z.of_nat k * x) by lia.
        by apply (paid_trans _ _ _ _ _ _ H1).
      * intros Hn. apply Hz. intros Hin. apply Hn. by right.
Qed.

Lemma paid_payPot ss p ws i :
  exists g, paid ss (payPot ss p ws) i g /\
            (i ∉ ws -> g = 0) /\
            (0 <= amount p -> 0 <= g).
Proof.
  unfold payPot.
  set (share := amount p / Z.of_nat (length ws)).
  destruct (paid_creditAll ws ss share i) as (k & Hk & Hz).
  assert (Hshare : 0 <= amount p -> 0 <= share).
  { intros Ha. unfold share. destruct ws as [|w0 rest]; simpl.
    - by rewrite Z.div_0_r.
    - apply Z.div_pos; lia. }
  destruct (Z.ltb_spec 0 (amount p - share * Z.of_nat (length ws))) as [Hlt|Hge].
  - destruct ws as [|w0 rest].
    + exists (Z.of_nat k * share). split; [done|]. split; [intros Hn; rewrite Hz by done; lia|].
      intros Ha. specialize (Hshare Ha). lia.
    + pose proof (paid_creditSeat
                    (foldl (fun acc w => creditSeat acc w share) ss (w0 :: rest))
                    w0 (amount p - share * Z.of_nat (length (w0 :: rest))) i) as H2.
      eexists. split; [exact (paid_trans _ _ _ _ _ _ Hk H2)|]. split.
      * intros Hn. rewrite Hz by done. rewrite decide_False; [lia|].
        intros ->. apply Hn. left.
      * intros Ha. specialize (Hshare Ha). case_decide; nia.
  - exists (Z.of_nat k * share). split; [done|]. split; [intros Hn; rewrite Hz by done; lia|].
    intros Ha. specialize (Hshare Ha). nia.
Qed.

Lemma paid_payAll results pots ss i :
  exists g,
    paid ss (foldl (fun acc pw => payPot acc pw.1 pw.2) ss
                   (zip pots (map (potWinners results) pots))) i g /\
    ((forall p, p ∈ pots -> i ∉ potWinners results p) -> g = 0) /\
    ((forall p, p ∈ pots -> 0 <= amount p) -> 0 <= g).
Proof.
  revert ss. induction pots as [|p pots IH]; intros ss; simpl.
  - exists 0. split; [apply paid_refl|]. split; [done|lia].
  - destruct (paid_payPot ss p (potWinners results p) i) as (g1 & H1 & Hz1 & Hp1).
    destruct (IH (payPot ss p (potWinners results p))) as (g2 & H2 & Hz2 & Hp2).
    exists (g1 + g2). split; [by apply (paid_trans _ _ _ _ _ _ H1)|]. split.
    + intros Hn. rewrite Hz1, Hz2; [lia| |].
      * intros p' Hp'. apply Hn. by right.
      * apply Hn. left.
    + intros Ha.
      assert (0 <= g1) by (apply Hp1, Ha; left).
      assert (0 <= g2) by (apply Hp2; intros p' Hp'; apply Ha; by right).
      lia.
Qed.

Lemma StronglySorted_lt_lookup (l : list Z) (k : nat) a b :
  StronglySorted Z.lt l -> l !! k = Some a -> l !! S k = Some b -> a < b.
Proof.
  intros Hs. revert k. induction Hs as [|x l Hs IH Hall]; intros k; [done|].
  destruct k as [|k]; simpl.
  - intros [= ->] Hb. rewrite List.Forall_forall in Hall. apply Hall.
    apply list_elem_of_In. by apply list_elem_of_lookup_2 in Hb.
  - apply IH.
Qed.

Lemma buildPots_amount_nonneg results p :
  (forall r, r ∈ results -> 0 <= r_contrib r) ->
  p ∈ buildPots results -> 0 <= amount p.
Proof.
  intros Hc [k Hk]%list_elem_of_lookup_1. unfold buildPots in Hk.
  apply potsFrom_lookup in Hk as (level & Hl & _ & ->).
  apply Z.mul_nonneg_nonneg; [|lia].
  destruct k as [|k'].
  - apply list_elem_of_lookup_2, elem_of_contribLevels, list_elem_of_In, in_map_iff in Hl
      as (r & <- & Hr). apply list_elem_of_In, Hc in Hr. lia.
  - destruct (contribLevels results !! k') as [a|] eqn:E; simpl.
    + pose proof (StronglySorted_lt_lookup _ _ _ _ (contribLevels_sorted results) E Hl). lia.
    + apply lookup_ge_None in E. apply lookup_lt_Some in Hl. lia.
Qed.

(** Property X28.  A showdown changes nothing of a seat but its chips; a
    folded seat receives nothing, and when no unfolded seat has a negative
    contribution no seat loses chips. *)
Theorem showdown_only_adds_chips_to_unfolded_seats
    (t : Table) (results : list Result) (i : Z) :
  buildResults (community t) (activePlayers (seats t)) = Some results ->
  activePlayers (seats t) <> [] ->
  exists gain,
    seatAt (seats (resolveShowdown t)) i
    = (fun s => addChips s gain) <$> seatAt (seats t) i /\
    ((forall s, seatAt (seats t) i = Some s -> folded s = true) -> gain = 0) /\
    ((forall j s, seatAt (seats t) j = Some s -> folded s = false ->
                  0 <= totalContributed s) -> 0 <= gain).
Proof.
  intros Hres Hne. unfold resolveShowdown.
  destruct (activePlayers (seats t)) as [|pl pls] eqn:E; [done|].
  rewrite Hres. simpl. rewrite <- E in *.
  pose proof (buildResults_fields _ _ _ Hres) as Hf.
  destruct (paid_payAll results (buildPots results) (seats t) i) as (g & Hg & Hz & Hp).
  exists g. split; [exact Hg|]. split.
  - intros Hfold. apply Hz. intros p _ Hw.
    apply potWinners_in_results in Hw. rewrite (results_idx _ _ Hf) in Hw.
    apply list_elem_of_In, in_map_iff in Hw as ([j s] & Hj & Hin). simpl in Hj. subst j.
    apply list_elem_of_In, elem_of_activePlayers in Hin as [Hs Hnf].
    rewrite (Hfold _ Hs) in Hnf. discriminate.
  - intros Hc. apply Hp. intros p. apply buildPots_amount_nonneg.
    intros r Hr. apply list_elem_of_In in Hr.
    assert (Hex : exists q, In q (activePlayers (seats t)) /\ r_contrib r = totalContributed q.2).
    { clear -Hf Hr. induction Hf as [|q r0 ps rs [_ Hcq] _ IH]; [done|].
      destruct Hr as [->|Hr]; [exists q; split; [by left|done]|].
      destruct (IH Hr) as (q' & Hq' & Hc'). exists q'. split; [by right|done]. }
    destruct Hex as ([j s] & Hin & ->).
    apply list_elem_of_In, elem_of_activePlayers in Hin as [Hs Hnf]. simpl. eauto.
Qed.

(** Property X29.  A showdown at which every seat has folded pays nobody:
    the pot is set to zero with every stack as it was, and the hand is
    reset to the waiting stage. *)
Theorem showdown_with_every_seat_folded_pays_nobody (t : Table) :
  (forall i s, seatAt (seats t) i = Some s -> folded s = true) ->
  let t' := resolveShowdown t in
  stage t' = Waiting /\ pot t' = 0 /\ community t' = [] /\
  forall i, seatAt (seats t') i = resetSeat <$> seatAt (seats t) i.
Proof.
  intros Hall. unfold resolveShowdown.
  destruct (activePlayers (seats t)) as [|[i s] ps] eqn:E.
  - simpl. repeat split. intros i. by rewrite seatAt_fmap.
  - assert (Hin : (i, s) ∈ activePlayers (seats t)) by (rewrite E; left).
    apply elem_of_activePlayers in Hin as [Hs Hf]. rewrite (Hall _ _ Hs) in Hf. done.
Qed.


(** ** A hand with one seat left *)




Section Lone.
Variable BIG_BLIND : Z.
Hypothesis BIG_BLIND_pos : 0 < BIG_BLIND.







End Lone.


(** The small blind raises all-in and the big blind folds: the flop is
    dealt, the pot of 1002 stays unpaid, the turn is left on seat 0, which
    has folded, and no event moves the table again. *)
Lemma all_in_lone_seat_halts_on_the_flop :
  map (option_map folded) (seats headsUpAllInFolded)
  = [Some true; Some false; None; None; None; None] /\
  (isAllIn <$> seatAt (seats headsUpAllInFolded) 1) = Some true /\
  stage headsUpAllInFolded = Flop /\
  length (community headsUpAllInFolded) = 3%nat /\
  pot headsUpAllInFolded = 1002 /\
  map (option_map chips) (seats headsUpAllInFolded)
  = [Some 998; Some 0; None; None; None; None] /\
  dealerIndex headsUpAllInFolded = 0 /\
  currentTurnIndex headsUpAllInFolded = 0 /\
  forall es, run 2 headsUpAllInFolded es = headsUpAllInFolded.
Proof.
  repeat split; try reflexivity.
  intros es. apply run_stuck. vm_compute. reflexivity.
Qed.

(** ** Worked hands for the rest of the server *)

Lemma seatsSound_check t :
  forallb (fun '(i, o) =>
             match o with
             | Some s => (0 <=? chips s) && (currentBet s <=? currentBetToCall t)
                         && (negb (isAllIn s) || (chips s =? 0))
             | None => true
             end)
          (imap (fun i (o : option Seat) => (i, o)) (seats t)) = true ->
  seatsSound t.
Proof.
  intros H i s Hs.
  pose proof (seatAt_forallb
                (fun _ s => (0 <=? chips s) && (currentBet s <=? currentBetToCall t)
                            && (negb (isAllIn s) || (chips s =? 0)))
                (seats t) H i s Hs) as Hq.
  apply andb_prop in Hq as [[H1%Z.leb_le H2%Z.leb_le]%andb_prop H3].
  split; [done|]. split; [done|]. intros Ha. rewrite Ha in H3. by apply Z.eqb_eq in H3.
Qed.

Lemma no_event_moves_a_table_whose_turn_cannot_act_witness :
  run 2 headsUpAllIn
      [EvTimeout; EvAction 0 (mkAction Check None); EvAction 1 (mkAction Fold None)]
  = headsUpAllIn.
Proof.
  apply (no_event_moves_a_table_whose_turn_cannot_act 2 headsUpAllIn).
  vm_compute. reflexivity.
Defined.

Lemma turn_passes_to_a_seat_that_can_act_witness :
  isBettingRoundComplete headsUpAfterRaise = false /\
  exists s, seatAt (seats headsUpAfterRaise) (currentTurnIndex headsUpAfterRaise) = Some s /\
            active s = true /\ folded s = false /\ isAllIn s = false.
Proof.
  apply (turn_passes_to_a_seat_that_can_act
           2 headsUpStart
           (handleAction_outcome 2 headsUpStart 1 (mkAction Raise (Some 2)))
           headsUpAfterRaise).
  - apply allActive_check. vm_compute. reflexivity.
  - left. exists 1, (mkAction Raise (Some 2)). reflexivity.
  - vm_compute. reflexivity.
Defined.

Lemma new_street_turn_or_halt_witness :
  (exists s, seatAt (seats (advanceStage 2 headsUpAllInCalled))
                    (currentTurnIndex (advanceStage 2 headsUpAllInCalled)) = Some s /\
             actionable s = true) \/
  ((forall i s, seatAt (seats (advanceStage 2 headsUpAllInCalled)) i = Some s ->
                folded s || isAllIn s = true) /\
   currentTurnIndex (advanceStage 2 headsUpAllInCalled) = dealerIndex headsUpAllInCalled /\
   forall es, run 2 (advanceStage 2 headsUpAllInCalled) es
              = advanceStage 2 headsUpAllInCalled).
Proof.
  apply (new_street_turn_or_halt 2 headsUpAllInCalled).
  - apply allActive_check. vm_compute. reflexivity.
  - split; [apply Z.leb_le | apply Z.ltb_lt]; vm_compute; reflexivity.
  - left. vm_compute. reflexivity.
Defined.

Lemma starting_a_hand_keeps_the_books_witness :
  stage headsUpStart = Preflop /\ community headsUpStart = [] /\
  pot headsUpStart = allContributions (seats headsUpStart) /\
  sumZ (map seatChips (seats headsUpStart)) + pot headsUpStart
  = sumZ (map seatChips (seats headsUpLobby)).
Proof.
  apply (starting_a_hand_keeps_the_books 1 2 2 headsUpLobby fullDeck).
  - reflexivity.
  - apply Z.leb_le. vm_compute. reflexivity.
Defined.

Lemma dealing_uses_each_card_once_witness :
  cardsOf headsUpStart ≡ₚ fullDeck /\
  (NoDup fullDeck -> NoDup (cardsOf headsUpStart)) /\
  forall i s', seatAt (seats headsUpStart) i = Some s' -> length (holeCards s') = 2%nat.
Proof.
  apply (dealing_uses_each_card_once 1 2 2 headsUpLobby fullDeck).
  - reflexivity.
  - apply Z.leb_le. vm_compute. reflexivity.
Defined.

Lemma board_has_the_cards_of_the_stage_witness :
  boardForStage (step 2 headsUpStart (EvAction 1 (mkAction Call None))).
Proof.
  apply (board_has_the_cards_of_the_stage 2 headsUpStart).
  vm_compute. reflexivity.
Defined.

Lemma cards_in_play_are_kept_until_the_river_witness :
  cardsOf (step 2 headsUpStart (EvAction 1 (mkAction Call None))) ≡ₚ cardsOf headsUpStart.
Proof.
  apply (cards_in_play_are_kept_until_the_river 2 headsUpStart).
  vm_compute. discriminate.
Defined.

Lemma books_balance_until_the_river_witness :
  tableChips (step 2 headsUpStart EvTimeout) = tableChips headsUpStart /\
  pot (step 2 headsUpStart EvTimeout)
  - allContributions (seats (step 2 headsUpStart EvTimeout))
  = pot headsUpStart - allContributions (seats headsUpStart).
Proof.
  apply (books_balance_until_the_river 2 headsUpStart EvTimeout).
  vm_compute. discriminate.
Defined.

Lemma stacks_and_bets_stay_sound_witness :
  seatsSound (step 2 headsUpStart (EvAction 1 (mkAction Raise (Some 1000)))).
Proof.
  apply (stacks_and_bets_stay_sound 2 headsUpStart).
  - vm_compute. discriminate.
  - apply seatsSound_check. vm_compute. reflexivity.
Defined.

Lemma minimum_raise_follows_the_last_raise_witness :
  Z.max (lastRaiseAmount headsUpStart) 2 <= 4 /\
  lastRaiseAmount headsUpRaisedBy4 = 4 /\
  currentBetToCall headsUpRaisedBy4
  = currentBet (headsUpSeat 1)
    + Z.min (currentBetToCall headsUpStart - currentBet (headsUpSeat 1) + 4)
            (chips (headsUpSeat 1)) /\
  forall j seat' amt',
    amt' < 4 ->
    applyAction 2 headsUpRaisedBy4 j seat' (mkAction Raise (Some amt')) = None.
Proof.
  apply (minimum_raise_follows_the_last_raise 2 headsUpStart 1 (headsUpSeat 1) 4
                                              headsUpRaisedBy4).
  - vm_compute. reflexivity.
  - apply Z.ltb_lt. vm_compute. reflexivity.
Defined.

Lemma leaving_on_turn_halts_the_hand_witness :
  run 2 (leave headsUpStart "sock-b")
      [EvTimeout; EvAction 0 (mkAction Call None); EvAction 1 (mkAction Fold None)]
  = leave headsUpStart "sock-b".
Proof.
  apply (leaving_on_turn_halts_the_hand 2 headsUpStart "sock-b" (headsUpSeat 1)).
  - vm_compute. reflexivity.
  - vm_compute. reflexivity.
Defined.

Lemma seat_is_freed_only_after_the_reconnect_window_witness :
  let t1 := disconnect headsUpStart (Some "alice"%string) "sock-a" 1000 in
  let t2 := reclaimExpired t1 0 "alice" 62000 in
  (62000 <= 1000 + 60000 -> t2 = t1) /\
  (1000 + 60000 < 62000 ->
   seatAt (seats t2) 0 = None /\
   (forall j, j <> 0 -> seatAt (seats t2) j = seatAt (seats t1) j) /\
   pot t2 = pot headsUpStart /\ stage t2 = stage headsUpStart /\
   currentTurnIndex t2 = currentTurnIndex headsUpStart).
Proof.
  apply (seat_is_freed_only_after_the_reconnect_window
           headsUpStart 0 (headsUpSeat 0) "alice" "sock-a" 1000 62000).
  - vm_compute. reflexivity.
  - vm_compute. reflexivity.
  - discriminate.
  - vm_compute. reflexivity.
  - lia.
Defined.

Lemma suggested_seat_is_granted_unless_the_table_is_full_witness :
  let r := getEmptySeat (Some (seats headsUpLobby)) in
  let reply := (sit 1 2 2 headsUpLobby (Some "carol"%string) "sock-c" r
                    (LookupDone false) fullDeck).1 in
  ((exists i, 0 <= i < Z.of_nat (length (seats headsUpLobby)) /\
              seatAt (seats headsUpLobby) i = None) ->
   sitGuards headsUpLobby (Some "carol"%string) r = inr "carol"%string /\
   reply = Sat r /\ seatAt (seats headsUpLobby) r = None /\
   forall j, 0 <= j < r -> is_Some (seatAt (seats headsUpLobby) j)) /\
  ((forall i, 0 <= i < Z.of_nat (length (seats headsUpLobby)) ->
              is_Some (seatAt (seats headsUpLobby) i)) ->
   r = 0 /\ reply = (if length (seats headsUpLobby) =? 0 then BadSeat else SeatTaken)%nat).
Proof.
  apply (suggested_seat_is_granted_unless_the_table_is_full
           1 2 2 headsUpLobby "carol" "sock-c" (LookupDone false) fullDeck).
  discriminate.
Defined.

Lemma action_changes_the_table_only_for_its_owner_on_turn_witness :
  exists s, seatAt (seats headsUpStart) 1 = Some s /\
            truthyStr (Some "bob"%string) = true /\ pubkey s = Some "bob"%string /\
            currentTurnIndex headsUpStart = 1 /\
            folded s = false /\ isAllIn s = false.
Proof.
  apply (action_changes_the_table_only_for_its_owner_on_turn
           2 headsUpStart (Some "bob"%string) 1 (mkAction Fold None)).
  intros H. apply (f_equal stage) in H. vm_compute in H. discriminate H.
Defined.

Lemma showdown_only_adds_chips_to_unfolded_seats_witness :
  exists gain,
    seatAt (seats (resolveShowdown split201)) 0
    = (fun s => addChips s gain) <$> seatAt (seats split201) 0 /\
    ((forall s, seatAt (seats split201) 0 = Some s -> folded s = true) -> gain = 0) /\
    ((forall j s, seatAt (seats split201) j = Some s -> folded s = false ->
                  0 <= totalContributed s) -> 0 <= gain).
Proof.
  apply (showdown_only_adds_chips_to_unfolded_seats split201 split201Results 0).
  - vm_compute. reflexivity.
  - vm_compute. discriminate.
Defined.


Lemma showdown_with_every_seat_folded_pays_nobody_witness :
  stage (resolveShowdown everyoneFolded) = Waiting /\
  pot (resolveShowdown everyoneFolded) = 0 /\
  community (resolveShowdown everyoneFolded) = [] /\
  forall i, seatAt (seats (resolveShowdown everyoneFolded)) i
            = resetSeat <$> seatAt (seats everyoneFolded) i.
Proof.
  apply (showdown_with_every_seat_folded_pays_nobody everyoneFolded).
  intros i s. apply (seatAt_forallb (fun _ s => folded s)). vm_compute. reflexivity.
Defined.

Lemma wager_outside_a_hand_is_discarded_witness :
  let t1 := handleAction 2 headsUpResolved (currentTurnIndex headsUpResolved)
                         (mkAction Raise (Some 2)) in
  stage t1 = Waiting /\ tableChips t1 = tableChips headsUpResolved /\
  tableChips (startHandIfReady 1 2 2 t1 fullDeck) = tableChips headsUpResolved - pot t1 /\
  forall seat amt,
    seatAt (seats headsUpResolved) (currentTurnIndex headsUpResolved) = Some seat ->
    folded seat = false -> isAllIn seat = false ->
    mkAction Raise (Some 2) = mkAction Raise (Some amt) ->
    Z.max (lastRaiseAmount headsUpResolved) 2 <= amt ->
    pot t1 = pot headsUpResolved
             + Z.min (currentBetToCall headsUpResolved - currentBet seat + amt) (chips seat).
Proof.
  apply (wager_outside_a_hand_is_discarded 1 2 2 headsUpResolved (mkAction Raise (Some 2))
                                           fullDeck).
  - vm_compute. reflexivity.
  - apply Z.leb_le. vm_compute. reflexivity.
Defined.
